(** * NYC Property Analytics dashboard (src/App.js): metrics, chart, animation
      slots and the data-loading effect, as a shallow embedding.

    A JavaScript number is modelled by the rational [Q] it denotes.  The
    arithmetic of App.js (the two sums and the quotient of [kpis], the
    quotient and the product of [BarChart]) rounds every result to the
    nearest IEEE-754 double, ties to even, with [fl]; comparisons,
    [Math.round] and [Math.max] are exact on doubles, and a comparator
    [b - a] is used for its sign only, which rounding keeps.  [NaN], the
    infinities and the sign of zero are not represented: a result of
    magnitude [2^1024] or more, which overflows, is outside the model.  A row
    field that is [undefined], [null] or absent is [None].
    React state is explicit state passing; the continuation of every [await]
    is a transition taken when the corresponding promise settles. *)

From Stdlib Require Import QArith Qround Qminmax Qpower Lqa ZArith Lia List Permutation Sorted.
From stdpp Require Import base option list strings gmap.
Import ListNotations.

(** ** JavaScript primitives used by App.js *)

Module JS.
Local Open Scope Q_scope.

(** [v || 0] on a number-or-missing value: every falsy value gives [0]. *)
Definition falsy (v : option Q) : bool :=
  match v with
  | None => true
  | Some x => Qeq_bool x 0
  end.

Definition or_zero (v : option Q) : Q :=
  match v with
  | Some x => if falsy v then 0 else x
  | None => 0
  end.

(** *** Double precision *)

Definition pow2 (e : Z) : Q := Qpower 2 e.

(** The binade of a positive number: [2^e <= q < 2^(e+1)]. *)
Definition ilog2 (q : Q) : Z :=
  let d := (Z.log2 (Qnum q) - Z.log2 (Zpos (Qden q)))%Z in
  if Qle_bool (pow2 d) q then d else (d - 1)%Z.

(** Nearest integer, ties to even. *)
Definition rne (m : Q) : Z :=
  let f := Qfloor m in
  match Qcompare (m - inject_Z f) (1 # 2) with
  | Lt => f
  | Gt => (f + 1)%Z
  | Eq => if Z.even f then f else (f + 1)%Z
  end.

(** The exponent of the unit in the last place of a positive number in
    binary64: 53 significant bits, subnormals below [2^-1022]. *)
Definition ulp_exp (q : Q) : Z := (Z.max (ilog2 q) (-1022) - 52)%Z.

Definition fl_pos (q : Q) : Q :=
  inject_Z (rne (q / pow2 (ulp_exp q))) * pow2 (ulp_exp q).

(** The double nearest to [q]: the result of an IEEE-754 operation whose
    exact result is [q]. *)
Definition fl (q : Q) : Q :=
  match Qcompare q 0 with
  | Eq => 0
  | Gt => fl_pos q
  | Lt => - fl_pos (- q)
  end.

(** [Math.round]: nearest integer, halves rounded towards +infinity. *)
Definition Math_round (x : Q) : Q := inject_Z (Qfloor (x + (1 # 2))).

(** [Math.max(...xs)] on a non-empty argument list [x, ...xs]. *)
Definition Math_max (x : Q) (xs : list Q) : Q := fold_left Qmax xs x.

(** [array.length] as a number. *)
Definition length_of {A} (l : list A) : Q := inject_Z (Z.of_nat (length l)).

(** [Array.prototype.sort(cmp)] on a copy.  ECMAScript requires the sort to be
    stable; for a consistent comparator the result is then determined, and it
    is computed here by a stable insertion sort: an element is placed before
    the first later element it does not compare strictly greater than. *)
Fixpoint sort_insert {A} (cmp : A -> A -> Q) (x : A) (l : list A) : list A :=
  match l with
  | [] => [x]
  | y :: l' => if Qle_bool (cmp x y) 0 then x :: l else y :: sort_insert cmp x l'
  end.

Fixpoint Array_sort {A} (cmp : A -> A -> Q) (l : list A) : list A :=
  match l with
  | [] => []
  | x :: l' => sort_insert cmp x (Array_sort cmp l')
  end.

(** [array.slice(0, n)] *)
Definition slice0 {A} (n : nat) (l : list A) : list A := firstn n l.

End JS.

(** ** Rows and the KPI computation ([kpis], [chartData]) *)

Module Metrics.
Import JS.
Local Open Scope Q_scope.

(** One element of [res.boroughs] / [res.neighborhoods]. *)
Record Row := mkRow {
  borough : option string;
  neighborhood : option string;
  count : option Q;
  median_value : option Q;
  avg_value : option Q
}.

Record Kpis := mkKpis {
  totalSales : Q;
  median : Q;
  topLabel : option string;
  topValue : Q;
  topVolumeLabel : option string;
  topVolumeCount : Q
}.

Definition dash : string := "—".

Definition byMedian (a b : Row) : Q := or_zero (median_value b) - or_zero (median_value a).
Definition byCount (a b : Row) : Q := or_zero (count b) - or_zero (count a).

(** [useMemo(() => {...}, [data, isAll])] *)
Definition kpis (data : list Row) (isAll : bool) : Kpis :=
  match data with
  | [] =>
      {| totalSales := 0; median := 0;
         topLabel := Some dash; topValue := 0;
         topVolumeLabel := Some dash; topVolumeCount := 0 |}
  | _ =>
      let totalSales := fold_left (fun sum r => fl (sum + or_zero (count r))) data 0 in
      let median :=
        Math_round
          (fl (fold_left (fun sum r => fl (sum + or_zero (median_value r))) data 0
               / length_of data)) in
      let sortedByMedian := Array_sort byMedian data in
      let sortedByCount := Array_sort byCount data in
      {| totalSales := totalSales;
         median := median;
         topLabel := if isAll then head sortedByMedian ≫= borough
                     else head sortedByMedian ≫= neighborhood;
         topValue := or_zero (head sortedByMedian ≫= median_value);
         topVolumeLabel := if isAll then head sortedByCount ≫= borough
                           else head sortedByCount ≫= neighborhood;
         topVolumeCount := or_zero (head sortedByCount ≫= count) |}
  end.

(** [chartData] *)
Definition chartData (data : list Row) (isAll : bool) : list Row :=
  if isAll then data else slice0 10 (Array_sort byMedian data).

End Metrics.

(** ** The bar chart ([BarChart]) *)

Module Chart.
Import JS Metrics.
Local Open Scope Q_scope.

(** What one chart row renders: the label cell, the bar width in percent,
    and the value shown on the right. *)
Record Bar := mkBar {
  bar_label : option string;
  bar_pct : Q;
  bar_val : Q
}.

(** [Number(d[valueKey]) || 0] and [Number(row[valueKey] || 0)] agree on a
    number-or-missing field: both give the number, or 0 when it is falsy. *)
Definition bar_value (valueKey : Row -> option Q) (d : Row) : Q :=
  or_zero (valueKey d).

(** [Math.max(...data.map(d => Number(d[valueKey]) || 0))]; the spread of an
    empty array never happens because of the guard in [BarChart]. *)
Definition chart_max (valueKey : Row -> option Q) (data : list Row) : option Q :=
  match map (bar_value valueKey) data with
  | [] => None
  | x :: xs => Some (Math_max x xs)
  end.

Definition bar_pct_of (max val : Q) : Q :=
  if Qlt_le_dec 0 max
  then Math_max 4 [Math_round (fl (fl (val / max) * 100))]
  else 0.

(** [None] is the [null] returned for an empty collection. *)
Definition BarChart (data : list Row) (labelKey : Row -> option string)
    (valueKey : Row -> option Q) : option (list Bar) :=
  match chart_max valueKey data with
  | None => None
  | Some max =>
      Some (map (fun row =>
                   let val := bar_value valueKey row in
                   {| bar_label := labelKey row;
                      bar_pct := bar_pct_of max val;
                      bar_val := val |}) data)
  end.

End Chart.

(** ** One animated KPI value ([AnimatedNumber]) *)

Module Animated.
Import JS.
Local Open Scope Q_scope.

(** The hooks of one mounted [AnimatedNumber]: the [previous] ref, the
    [hasAnimated] state, and the dependency array of the last effect run
    ([None] before the first commit). *)
Record Slot := mkSlot {
  previous : Q;
  hasAnimated : bool;
  lastDeps : option (option Q * bool)
}.

(** The props handed to [useSpring]. *)
Record Spring := mkSpring {
  from : Q;
  to : Q
}.

Definition mountSlot : Slot :=
  {| previous := 0; hasAnimated := false; lastDeps := None |}.

(** [Object.is] on a number-or-undefined prop. *)
Definition same_value (a b : option Q) : bool :=
  match a, b with
  | None, None => true
  | Some x, Some y => Qeq_bool x y
  | _, _ => false
  end.

Definition deps_changed (s : Slot) (value : option Q) : bool :=
  match lastDeps s with
  | None => true
  | Some (v, h) => negb (same_value v value && Bool.eqb h (hasAnimated s))
  end.

(** The effect body: remember the value, mark the first animation. *)
Definition effect (value : option Q) (s : Slot) : Slot :=
  {| previous := or_zero value;
     hasAnimated :=
       if negb (hasAnimated s) && negb (Qle_bool (or_zero value) 0)
       then true else hasAnimated s;
     lastDeps := Some (value, hasAnimated s) |}.

(** One render followed by its commit. *)
Definition AnimatedNumber (value : option Q) (s : Slot) : Spring * Slot :=
  let fromValue := if hasAnimated s then previous s else 0 in
  ({| from := fromValue; to := or_zero value |},
   if deps_changed s value then effect value s else s).

(** The springs requested over a sequence of renders, and the final slot. *)
Fixpoint renders (values : list (option Q)) (s : Slot) : list Spring * Slot :=
  match values with
  | [] => ([], s)
  | v :: vs =>
      let '(sp, s1) := AnimatedNumber v s in
      let '(sps, s2) := renders vs s1 in
      (sp :: sps, s2)
  end.

End Animated.

(** ** The data-loading effect of [App] *)

Module Coordinator.
Import Metrics.

(** The body of an HTTP response ([response.data]); either key may be absent. *)
Record Body := mkBody {
  boroughs : option (list Row);
  neighborhoods : option (list Row)
}.

(** How the promise of [getNYCRecentSales] / [getNeighborhoodSales] settles.
    A fulfilled promise may carry [null]/[undefined] ([None]). *)
Inductive Outcome :=
| Fulfilled (res : option Body)
| Rejected (err : string).

(** The closure created by one run of the effect: the [months] and
    [selectedBorough] of the render it belongs to, and its [cancel] variable,
    which the cleanup function and [load] share. *)
Record Closure := mkClosure {
  eff_months : Z;
  eff_borough : string;
  cancel : bool
}.

(** The [useState] cells of [App] and the effect bookkeeping: the closures
    whose request is still in flight, the run whose cleanup is registered
    ([None] once unmounted), and the number of runs so far. *)
Record App := mkApp {
  salesData : list Row;
  neighborhoodData : list Row;
  months : Z;
  selectedBorough : string;
  loadingNYC : bool;
  inflight : gmap nat Closure;
  current : option nat;
  issued : nat
}.

Definition isAll (st : App) : bool := String.eqb (selectedBorough st) "All".
Definition data (st : App) : list Row :=
  if isAll st then salesData st else neighborhoodData st.

(** *** State and exceptions *)

Inductive Completion (A : Type) :=
| Normal (a : A)
| Throw (err : string).
Arguments Normal {A} a.
Arguments Throw {A} err.

Definition M (A : Type) : Type := App -> Completion A * App.

Definition ret {A} (a : A) : M A := fun st => (Normal a, st).
Definition throw {A} (err : string) : M A := fun st => (Throw err, st).
Definition bind {A B} (m : M A) (k : A -> M B) : M B :=
  fun st =>
    match m st with
    | (Normal a, st1) => k a st1
    | (Throw err, st1) => (Throw err, st1)
    end.

(** [try { body } finally { fin }]: [fin] always runs; the completion of
    [body] is kept unless [fin] itself throws. *)
Definition try_finally {A} (body : M A) (fin : M unit) : M A :=
  fun st =>
    let '(c, st1) := body st in
    match fin st1 with
    | (Normal _, st2) => (c, st2)
    | (Throw err, st2) => (Throw err, st2)
    end.

Notation "'let*' x := m 'in' k" := (bind m (fun x => k))
  (at level 10, x name, m at level 100, k at level 200).
Notation "m >> k" := (bind m (fun _ => k))
  (at level 58, right associativity).

Definition when (b : bool) (m : M unit) : M unit := if b then m else ret tt.

Definition setSalesData (rows : list Row) : M unit := fun st =>
  (Normal tt, mkApp rows (neighborhoodData st) (months st) (selectedBorough st)
                    (loadingNYC st) (inflight st) (current st) (issued st)).
Definition setNeighborhoodData (rows : list Row) : M unit := fun st =>
  (Normal tt, mkApp (salesData st) rows (months st) (selectedBorough st)
                    (loadingNYC st) (inflight st) (current st) (issued st)).
Definition setLoadingNYC (b : bool) : M unit := fun st =>
  (Normal tt, mkApp (salesData st) (neighborhoodData st) (months st)
                    (selectedBorough st) b (inflight st) (current st) (issued st)).

(** Reading the [cancel] variable of run [id]. *)
Definition read_cancel (id : nat) : M bool := fun st =>
  (Normal (from_option cancel true (inflight st !! id)), st).

(** [await p] once [p] has settled. *)
Definition await (o : Outcome) : M (option Body) :=
  match o with
  | Fulfilled res => ret res
  | Rejected err => throw err
  end.

(** [res?.boroughs || []] and [res?.neighborhoods || []] *)
Definition boroughs_or_empty (res : option Body) : list Row :=
  default [] (res ≫= boroughs).
Definition neighborhoods_or_empty (res : option Body) : list Row :=
  default [] (res ≫= neighborhoods).

(** *** [load] *)

(** [load] up to its [await]: the flag is raised and the request leaves. *)
Definition load_start : M unit := setLoadingNYC true.

(** [load] from its [await] on, for the run [id] whose closure captured
    [borough], when the awaited promise settles as [o]. *)
Definition load_resume (id : nat) (borough : string) (o : Outcome) : M unit :=
  try_finally
    (if String.eqb borough "All" then
       let* res := await o in
       let* c := read_cancel id in
       when (negb c)
         (setSalesData (boroughs_or_empty res) >>
          setNeighborhoodData [])
     else
       let* res := await o in
       let* c := read_cancel id in
       when (negb c)
         (setNeighborhoodData (neighborhoods_or_empty res)))
    (let* c := read_cancel id in
     when (negb c) (setLoadingNYC false)).

(** *** The effect *)

(** The cleanup function [() => (cancel = true)] of the registered run. *)
Definition cleanup (st : App) : App :=
  match current st with
  | None => st
  | Some id =>
      mkApp (salesData st) (neighborhoodData st) (months st) (selectedBorough st)
            (loadingNYC st)
            (alter (fun c => mkClosure (eff_months c) (eff_borough c) true) id (inflight st))
            None (issued st)
  end.

(** One run of the effect body: a fresh closure with [cancel = false], then
    [load()] up to its [await]; the promise [load] returns is dropped. *)
Definition run_effect (st : App) : App :=
  let id := issued st in
  let st1 :=
    mkApp (salesData st) (neighborhoodData st) (months st) (selectedBorough st)
          (loadingNYC st)
          (<[id := mkClosure (months st) (selectedBorough st) false]> (inflight st))
          (Some id) (S id) in
  snd (load_start st1).

(** The component after its first render and effect. *)
Definition mount : App :=
  run_effect (mkApp [] [] 12 "All" true ∅ None 0).

(** A committed change of [months] or [selectedBorough]: cleanup of the
    previous run, then a new run. *)
Definition rerun (st : App) : App := run_effect (cleanup st).

Inductive Event :=
| SetMonths (m : Z)             (* a month button: setMonths(m) *)
| SetBorough (b : string)       (* handleBoroughClick(b) *)
| Settle (id : nat) (o : Outcome)  (* the request of run id settles *)
| Unmount.

(** The completion of the promise returned by [load] for run [id], and the
    state it leaves; a request that is not in flight cannot settle. *)
Definition settle (id : nat) (o : Outcome) (st : App) : Completion unit * App :=
  match inflight st !! id with
  | None => (Normal tt, st)
  | Some c =>
      let '(r, st1) := load_resume id (eff_borough c) o st in
      (r, mkApp (salesData st1) (neighborhoodData st1) (months st1)
                (selectedBorough st1) (loadingNYC st1)
                (delete id (inflight st1)) (current st1) (issued st1))
  end.

Definition step (st : App) (ev : Event) : App :=
  match ev with
  | SetMonths m =>
      match current st with
      | None => st
      | Some _ =>
          if Z.eqb m (months st) then st
          else rerun (mkApp (salesData st) (neighborhoodData st) m (selectedBorough st)
                            (loadingNYC st) (inflight st) (current st) (issued st))
      end
  | SetBorough b =>
      match current st with
      | None => st
      | Some _ =>
          if String.eqb b (selectedBorough st) then st
          else rerun (mkApp (salesData st) (neighborhoodData st) (months st) b
                            (loadingNYC st) (inflight st) (current st) (issued st))
      end
  | Settle id o => snd (settle id o st)
  | Unmount => cleanup st
  end.

Definition run (st : App) (evs : list Event) : App := fold_left step evs st.

End Coordinator.

(** ** The requests of api.js *)

Module Api.
Import Coordinator.

(** A query parameter value: a number or a string. *)
Inductive Param :=
| PNum (n : Z)
| PStr (s : string).

(** What [axios.get(url, { params })] is asked for.  Each function below
    awaits it and returns [response.data]; a rejection is not handled and
    rejects the function's own promise. *)
Record Request := mkRequest {
  url : string;
  params : gmap string Param
}.

Definition API_BASE : string :=
  "https://portfolio-demo-production.up.railway.app/api".

(** [getProperties(limit = 100, zipCode = null)]: [zip_code] is added only
    when [zipCode] is truthy; an omitted argument is [None]. *)
Definition getProperties (limit : option Z) (zipCode : option string) : Request :=
  let limit := default 100%Z limit in
  let params : gmap string Param := {[ "limit" := PNum limit ]} in
  let params :=
    match zipCode with
    | Some z => if negb (String.eqb z "") then <["zip_code" := PStr z]> params else params
    | None => params
    end in
  mkRequest (API_BASE +:+ "/properties") params.

Definition getMarketSummary : Request :=
  mkRequest (API_BASE +:+ "/market-summary") ∅.

Definition getZipAnalysis : Request :=
  mkRequest (API_BASE +:+ "/zip-analysis") ∅.

(** [getRecentPermits(limit = 25)] *)
Definition getRecentPermits (limit : option Z) : Request :=
  mkRequest (API_BASE +:+ "/recent-permits") {[ "limit" := PNum (default 25%Z limit) ]}.

(** [getNYCRecentSales(months = 12, limit = 20000)] *)
Definition getNYCRecentSales (months limit : option Z) : Request :=
  mkRequest (API_BASE +:+ "/nyc/recent-sales")
            (<["months" := PNum (default 12%Z months)]>
               {[ "limit" := PNum (default 20000%Z limit) ]}).

(** [getNeighborhoodSales(borough, months)] *)
Definition getNeighborhoodSales (borough : string) (months : Z) : Request :=
  mkRequest (API_BASE +:+ "/nyc/neighborhoods")
            (<["borough" := PStr borough]> {[ "months" := PNum months ]}).

(** The call [load] makes for the closure of its run: the branch on
    [selectedBorough === "All"] of App.js. *)
Definition load_request (c : Closure) : Request :=
  if String.eqb (eff_borough c) "All"
  then getNYCRecentSales (Some (eff_months c)) None
  else getNeighborhoodSales (eff_borough c) (eff_months c).

End Api.

(** ** What [App] renders *)

Module View.
Import JS Metrics Chart Coordinator.

(** [rows.length > 0] *)
Definition nonempty (rows : list Row) : bool := negb (Nat.eqb (length rows) 0).

(** [chartLabelKey] *)
Definition chartLabelKey (st : App) : Row -> option string :=
  if isAll st then borough else neighborhood.

(** The conditional parts of the JSX [App] returns; [None] (or [false]) is a
    part that is not rendered.  The chart part holds what [BarChart]
    returns; the neighbourhood table holds its rows in display order. *)
Record Screen := mkScreen {
  kpiSection : option Kpis;
  loadingText : bool;
  boroughTable : option (list Row);
  chartSection : option (option (list Bar));
  neighborhoodTable : option (list Row)
}.

(** The [value] props of the four [AnimatedNumber] slots of the KPI section,
    in document order. *)
Definition kpi_targets (k : Kpis) : list (option Q) :=
  [Some (totalSales k); Some (median k); Some (topValue k); Some (topVolumeCount k)].

Definition render (st : App) : Screen :=
  {| kpiSection :=
       if negb (loadingNYC st) && nonempty (data st)
       then Some (kpis (data st) (isAll st)) else None;
     loadingText := loadingNYC st;
     boroughTable :=
       if negb (loadingNYC st) && isAll st && nonempty (salesData st)
       then Some (salesData st) else None;
     chartSection :=
       if negb (loadingNYC st) && nonempty (data st)
       then Some (BarChart (chartData (data st) (isAll st)) (chartLabelKey st) median_value)
       else None;
     neighborhoodTable :=
       if negb (loadingNYC st) && negb (isAll st) && nonempty (neighborhoodData st)
       then Some (Array_sort byMedian (neighborhoodData st)) else None |}.

End View.

(** * Vocabulary of the properties *)

Section MetricsVocabulary.
Import JS Metrics Chart Animated.
Local Open Scope Q_scope.

(** The comparator [(a, b) => key(b) - key(a)]: descending by [key]. *)
Definition descending_by {A} (key : A -> Q) (a b : A) : Q := key b - key a.

(** [a] may stand before [b] in a list that is descending by [key]. *)
Definition ge_key {A} (key : A -> Q) (a b : A) : Prop := key b <= key a.

(** The elements whose key is [v]. *)
Definition with_key {A} (key : A -> Q) (v : Q) (a : A) : bool := Qeq_bool (key a) v.

(** The sum of a list of numbers. *)
Definition Qsum (l : list Q) : Q := foldr Qplus 0 l.

(** The sum of a list of numbers as the code computes it: from the left,
    each partial sum rounded to a double. *)
Definition double_sum (l : list Q) : Q := fold_left (fun s x => fl (s + x)) l 0.

(** Doubles are smaller than [2^1024] in magnitude: an operation overflows
    when its rounded result is not.  No partial sum of the list does. *)
Definition finite (x : Q) : Prop := - pow2 1024 < x < pow2 1024.

Definition sums_finite (l : list Q) : Prop :=
  forall n : nat, finite (double_sum (take n l)).

(** A non-negative whole number. *)
Definition whole (x : Q) : Prop := exists z : Z, (0 <= z)%Z /\ x == inject_Z z.

(** A number that is a double. *)
Definition is_double (x : Q) : Prop := fl x == x.

(** A number within [2^-45] of a rounding tie of [Math.round], that is of
    an integer plus a half. *)
Definition near_tie (x : Q) : Prop :=
  exists k : Z,
    inject_Z k + (1 # 2) - pow2 (-45) < x < inject_Z k + (1 # 2) + pow2 (-45).

(** [r.median_value || 0] and [r.count || 0] *)
Definition median_key (r : Row) : Q := or_zero (median_value r).

Definition count_key (r : Row) : Q := or_zero (count r).

(** The arithmetic mean the summary is compared with: the values that are
    present are added up, and every row counts in the denominator. *)
Definition mean_of_medians (data : list Row) : Q :=
  Qsum (omap median_value data) / length_of data.

(** Sample collections. *)
Definition rows_1_2 : list Row :=
  [ mkRow (Some "A") None (Some 1) (Some 1) None;
    mkRow (Some "B") None (Some 1) (Some 2) None ].

Definition rows_100_200_missing : list Row :=
  [ mkRow (Some "A") None None (Some 100) None;
    mkRow (Some "B") None None (Some 200) None;
    mkRow (Some "C") None None None None ].

Definition rows_A_B : list Row :=
  [ mkRow (Some "A") None (Some 10) (Some 500000) None;
    mkRow (Some "B") None (Some 30) (Some 500000) None ].

Definition nrow (name : string) (m : Q) : Row :=
  mkRow None (Some name) (Some 1) (Some m) None.

(** Fifteen neighbourhoods; the largest median, 20, occurs twice. *)
Definition rows15 : list Row :=
  [ nrow "n1" 5; nrow "n2" 9; nrow "n3" 3; nrow "n4" 20; nrow "n5" 7;
    nrow "n6" 1; nrow "n7" 20; nrow "n8" 8; nrow "n9" 2; nrow "n10" 6;
    nrow "n11" 4; nrow "n12" 10; nrow "n13" 11; nrow "n14" 12; nrow "n15" 13 ].

(** The doubles nearest to 867.84, 171.43, 542.91 and 407.82. *)
Definition rows_fractional : list Row :=
  [ mkRow (Some "A") None None (Some (fl (86784 # 100))) None;
    mkRow (Some "B") None None (Some (fl (17143 # 100))) None;
    mkRow (Some "C") None None (Some (fl (54291 # 100))) None;
    mkRow (Some "D") None None (Some (fl (40782 # 100))) None ].

Definition rows_23_40 : list Row :=
  [ mkRow (Some "A") None None (Some 23) None;
    mkRow (Some "B") None None (Some 40) None ].

Definition rows_bars : list Row :=
  [ mkRow (Some "A") None (Some 10) (Some 1) None;
    mkRow (Some "B") None (Some 30) (Some 2) None;
    mkRow (Some "C") None (Some 2) None None ].

(** [(value || 0) > 0] *)
Definition positive (v : option Q) : bool := negb (Qle_bool (or_zero v) 0).

(** What a slot must hold after the targets [past] were committed. *)
Definition slot_tracks (s : Slot) (past : list (option Q)) : Prop :=
  previous s == or_zero (List.last past None) /\
  hasAnimated s = existsb positive past /\
  (forall v b, lastDeps s = Some (v, b) ->
               previous s = or_zero v /\ (hasAnimated s = false -> or_zero v <= 0)).

Definition targets_0_5_5_8_0_3 : list (option Q) :=
  [Some 0; Some 5; Some 5; Some 8; Some 0; Some 3].

Definition targets_m3_7_2 : list (option Q) := [Some (-3); Some 7; Some 2]%Q.

End MetricsVocabulary.

Section CoordinatorVocabulary.
Import Metrics Coordinator.

(** A settlement [(id, outcome)] as an event. *)
Definition settle_event (s : nat * Outcome) : Event := Settle (fst s) (snd s).

(** The rows a response carries for the scope of a state. *)
Definition response_rows (st : App) (res : option Body) : list Row :=
  if isAll st then boroughs_or_empty res else neighborhoods_or_empty res.

(** Both row collections of a state. *)
Definition rows (st : App) : list Row * list Row :=
  (salesData st, neighborhoodData st).

(** What every state reached from [mount] satisfies: only the registered
    run has [cancel = false]; it is the latest run, and its closure holds
    the selection of the current render. *)
Record consistent (st : App) : Prop := {
  cons_issued : forall id c, inflight st !! id = Some c -> id < issued st;
  cons_cancel : forall id c, inflight st !! id = Some c ->
                             (cancel c = false <-> current st = Some id);
  cons_latest : forall id, current st = Some id -> issued st = S id;
  cons_closure : forall id c, current st = Some id -> inflight st !! id = Some c ->
                              eff_months c = months st /\ eff_borough c = selectedBorough st
}.

(** The selections W1 = 1 month, W2 = 3 months, W3 = Brooklyn, issued one
    after the other from the mounted component (run 0 is the mount's own). *)
Definition W123 : list Event := [SetMonths 1; SetMonths 3; SetBorough "Brooklyn"].

(** A response whose rows carry [tag] as their name. *)
Definition response (tag : string) : option Body :=
  Some {| boroughs := Some [mkRow (Some tag) None (Some 1%Q) (Some 1%Q) None];
          neighborhoods := Some [mkRow None (Some tag) (Some 1%Q) (Some 1%Q) None] |}.

(** The four requests settle with W2 first and W1 last. *)
Definition W1_last : list (nat * Outcome) :=
  [ (2, Fulfilled (response "W2")); (3, Fulfilled (response "W3"));
    (0, Fulfilled (response "mount")); (1, Fulfilled (response "W1")) ].

Definition borough_row : Row :=
  mkRow (Some "Queens") None (Some 7%Q) (Some 650000%Q) None.

Definition neighborhood_row : Row :=
  mkRow None (Some "Park Slope") (Some 3%Q) (Some 1200000%Q) None.

Definition boroughs_response : option Body := Some (mkBody (Some [borough_row]) None).
Definition brooklyn_response : option Body := Some (mkBody None (Some [neighborhood_row])).

(** All boroughs loaded, then Brooklyn selected. *)
Definition all_loaded_brooklyn_selected : list Event :=
  [Settle 0 (Fulfilled boroughs_response); SetBorough "Brooklyn"].

(** ... and Brooklyn's response applied. *)
Definition all_then_brooklyn : list Event :=
  all_loaded_brooklyn_selected ++ [Settle 1 (Fulfilled brooklyn_response)].

(** All boroughs loaded, then the window changed to 3 months. *)
Definition all_loaded_3_months_selected : list Event :=
  [Settle 0 (Fulfilled boroughs_response); SetMonths 3].

End CoordinatorVocabulary.

(** * Properties *)

(** ** Facts about the JavaScript primitives *)

Section PrimitiveFacts.
Import JS.
Local Open Scope Q_scope.

Lemma or_zero_None : or_zero None = 0.
Proof. reflexivity. Qed.

Lemma or_zero_Some (x : Q) : or_zero (Some x) == x.
Proof.
  unfold or_zero, falsy. destruct (Qeq_bool x 0) eqn:E; [|reflexivity].
  apply Qeq_bool_iff in E. symmetry. exact E.
Qed.

Lemma Math_round_comp (x y : Q) : x == y -> Math_round x = Math_round y.
Proof.
  intros E. unfold Math_round. f_equal. apply Qfloor_comp. rewrite E. reflexivity.
Qed.

(** [Math.round] gives the integer within a half of its argument, the upper
    one on a tie. *)
Lemma Math_round_spec (x : Q) :
  exists z : Z, Math_round x = inject_Z z /\ x - (1 # 2) < inject_Z z <= x + (1 # 2).
Proof.
  exists (Qfloor (x + (1 # 2))). split; [reflexivity|].
  split; [|apply Qfloor_le].
  pose proof (Qlt_floor (x + (1 # 2))) as Hlt.
  rewrite inject_Z_plus in Hlt. change (inject_Z 1) with 1 in Hlt.
  revert Hlt. generalize (inject_Z (Qfloor (x + (1 # 2)))). intros q Hlt.
  lra.
Qed.

Lemma Math_round_integer (z : Z) : Math_round (inject_Z z) = inject_Z z.
Proof.
  unfold Math_round. f_equal.
  pose proof (Qfloor_le (inject_Z z + (1 # 2))) as Hle.
  pose proof (Qlt_floor (inject_Z z + (1 # 2))) as Hlt.
  set (f := Qfloor (inject_Z z + (1 # 2))) in *. clearbody f.
  rewrite inject_Z_plus in Hlt. change (inject_Z 1) with 1 in Hlt.
  assert (H1 : inject_Z f < inject_Z (z + 1)).
  { rewrite inject_Z_plus. change (inject_Z 1) with 1.
    revert Hle Hlt. generalize (inject_Z f) (inject_Z z). intros; lra. }
  assert (H2 : inject_Z z < inject_Z (f + 1)).
  { rewrite inject_Z_plus. change (inject_Z 1) with 1.
    revert Hle Hlt. generalize (inject_Z f) (inject_Z z). intros; lra. }
  rewrite <- Zlt_Qlt in H1, H2. lia.
Qed.

Lemma Math_max_ge (xs : list Q) (x : Q) :
  x <= Math_max x xs /\ Forall (fun y => y <= Math_max x xs) xs.
Proof.
  unfold Math_max. revert x. induction xs as [|y ys IH]; intros x; cbn [fold_left].
  - split; [lra|constructor].
  - destruct (IH (Qmax x y)) as [H1 H2].
    pose proof (Q.le_max_l x y). pose proof (Q.le_max_r x y).
    split; [lra|]. constructor; [lra|exact H2].
Qed.

Lemma Math_max_attained (xs : list Q) (x : Q) :
  Math_max x xs = x \/ In (Math_max x xs) xs.
Proof.
  unfold Math_max. revert x. induction xs as [|y ys IH]; intros x; cbn [fold_left].
  - left; reflexivity.
  - destruct (IH (Qmax x y)) as [H|H]; [|right; right; exact H].
    rewrite H. unfold Qmax, GenericMinMax.gmax.
    destruct (x ?= y); [left|right; left|left]; reflexivity.
Qed.

Lemma Math_round_mono (x y : Q) : x <= y -> Math_round x <= Math_round y.
Proof.
  intros H. unfold Math_round. rewrite <- Zle_Qle. apply Qfloor_resp_le.
  lra.
Qed.

End PrimitiveFacts.

(** ** Rounding to double precision *)

Section DoubleFacts.
Import JS.
Local Open Scope Q_scope.

Lemma pow2_pos (e : Z) : 0 < pow2 e.
Proof. apply Qpower_0_lt. reflexivity. Qed.

Lemma pow2_plus (a b : Z) : pow2 (a + b) == pow2 a * pow2 b.
Proof. apply Qpower_plus. discriminate. Qed.

Lemma pow2_succ (a : Z) : pow2 (a + 1) == 2 * pow2 a.
Proof. rewrite pow2_plus. change (pow2 1) with 2. apply Qmult_comm. Qed.

Lemma pow2_le (a b : Z) : (a <= b)%Z -> pow2 a <= pow2 b.
Proof. intros H. apply Qpower_le_compat_l; [exact H|discriminate]. Qed.

Lemma pow2_lt (a b : Z) : (a < b)%Z -> pow2 a < pow2 b.
Proof. intros H. apply Qpower_lt_compat_l; [exact H|reflexivity]. Qed.

Lemma pow2_Z (z : Z) : (0 <= z)%Z -> pow2 z == inject_Z (2 ^ z).
Proof. intros H. unfold pow2. rewrite (Zpower_Qpower 2 z H). reflexivity. Qed.

Lemma pow2_cancel (a : Z) : pow2 a * pow2 (- a) == 1.
Proof. rewrite <- pow2_plus, Z.add_opp_diag_r. reflexivity. Qed.

Lemma Qdiv_lt_cross (a b c d : Q) :
  0 < b -> 0 < d -> a * d < c * b -> a / b < c / d.
Proof.
  intros Hb Hd H. apply Qlt_shift_div_r; [exact Hb|].
  assert (E : c / d * b == c * b / d) by (field; intros E0; rewrite E0 in Hd; discriminate).
  rewrite E. apply Qlt_shift_div_l; assumption.
Qed.

Lemma Qdiv_le_cross (a b c d : Q) :
  0 < b -> 0 < d -> a * d <= c * b -> a / b <= c / d.
Proof.
  intros Hb Hd H. apply Qle_shift_div_r; [exact Hb|].
  assert (E : c / d * b == c * b / d) by (field; intros E0; rewrite E0 in Hd; discriminate).
  rewrite E. apply Qle_shift_div_l; assumption.
Qed.

Lemma pow2_minus (a b : Z) : pow2 (a - b) == pow2 a / pow2 b.
Proof.
  unfold Z.sub. rewrite pow2_plus. unfold Qdiv. apply Qmult_comp; [reflexivity|].
  unfold pow2. rewrite Qpower_opp. reflexivity.
Qed.

Lemma ilog2_spec (q : Q) : 0 < q -> pow2 (ilog2 q) <= q < pow2 (ilog2 q + 1).
Proof.
  intros Hq. destruct q as [a b].
  assert (Ha : (0 < a)%Z).
  { unfold Qlt in Hq. cbn in Hq. lia. }
  unfold ilog2. cbn [Qnum Qden].
  set (la := Z.log2 a). set (lb := Z.log2 (Zpos b)).
  destruct (Z.log2_spec a Ha) as [Ha1 Ha2]. fold la in Ha1, Ha2.
  destruct (Z.log2_spec (Zpos b) (Pos2Z.is_pos b)) as [Hb1 Hb2]. fold lb in Hb1, Hb2.
  assert (Hla : (0 <= la)%Z) by apply Z.log2_nonneg.
  assert (Hlb : (0 <= lb)%Z) by apply Z.log2_nonneg.
  assert (Eq : a # b == inject_Z a / inject_Z (Zpos b)) by apply Qmake_Qdiv.
  assert (Qa1 : pow2 la <= inject_Z a) by (rewrite pow2_Z by lia; rewrite <- Zle_Qle; lia).
  assert (Qa2 : inject_Z a < pow2 (la + 1))
    by (rewrite pow2_Z by lia; rewrite <- Zlt_Qlt; replace (la + 1)%Z with (Z.succ la) by lia; lia).
  assert (Qb1 : pow2 lb <= inject_Z (Zpos b)) by (rewrite pow2_Z by lia; rewrite <- Zle_Qle; lia).
  assert (Qb2 : inject_Z (Zpos b) < pow2 (lb + 1))
    by (rewrite pow2_Z by lia; rewrite <- Zlt_Qlt; replace (lb + 1)%Z with (Z.succ lb) by lia; lia).
  assert (Pa : 0 < inject_Z a) by (change 0 with (inject_Z 0); rewrite <- Zlt_Qlt; lia).
  assert (Pb : 0 < inject_Z (Zpos b)) by reflexivity.
  pose proof (pow2_pos la) as P1. pose proof (pow2_pos lb) as P2.
  pose proof (pow2_pos (la + 1)) as P3. pose proof (pow2_pos (lb + 1)) as P4.
  assert (Hup : a # b < pow2 (la - lb + 1)).
  { replace (la - lb + 1)%Z with ((la + 1) - lb)%Z by lia.
    rewrite pow2_minus, Eq. apply Qdiv_lt_cross; [exact Pb|exact P2|].
    revert Qa2 Qb1 Pa Pb P2 P3.
    generalize (inject_Z a) (inject_Z (Zpos b)) (pow2 (la + 1)) (pow2 lb). intros; nra. }
  assert (Hlow : pow2 (la - lb - 1) <= a # b).
  { replace (la - lb - 1)%Z with (la - (lb + 1))%Z by lia.
    rewrite pow2_minus, Eq. apply Qdiv_le_cross; [exact P4|exact Pb|].
    revert Qa1 Qb2 Pa Pb P1 P4.
    generalize (inject_Z a) (inject_Z (Zpos b)) (pow2 la) (pow2 (lb + 1)). intros; nra. }
  destruct (Qle_bool (pow2 (la - lb)) (a # b)) eqn:E.
  - apply Qle_bool_iff in E. split; assumption.
  - split; [exact Hlow|]. replace (la - lb - 1 + 1)%Z with (la - lb)%Z by lia.
    apply Qnot_le_lt. intros H. apply Qle_bool_iff in H. congruence.
Qed.

Lemma ilog2_unique (q : Q) (e : Z) : pow2 e <= q < pow2 (e + 1) -> ilog2 q = e.
Proof.
  intros [H1 H2].
  assert (Hq : 0 < q) by (eapply Qlt_le_trans; [apply pow2_pos|exact H1]).
  destruct (ilog2_spec q Hq) as [G1 G2].
  destruct (Z.lt_trichotomy (ilog2 q) e) as [Hlt|[Heq|Hgt]]; [exfalso|exact Heq|exfalso].
  - assert (pow2 (ilog2 q + 1) <= pow2 e) by (apply pow2_le; lia).
    revert H1 G2 H. generalize (pow2 (ilog2 q + 1)) (pow2 e). intros; lra.
  - assert (pow2 (e + 1) <= pow2 (ilog2 q)) by (apply pow2_le; lia).
    revert H2 G1 H. generalize (pow2 (ilog2 q)) (pow2 (e + 1)). intros; lra.
Qed.

Lemma ilog2_mono (x y : Q) : 0 < x -> x <= y -> (ilog2 x <= ilog2 y)%Z.
Proof.
  intros Hx Hxy. assert (Hy : 0 < y) by lra.
  destruct (ilog2_spec x Hx) as [X1 _]. destruct (ilog2_spec y Hy) as [_ Y2].
  destruct (Z.le_gt_cases (ilog2 x) (ilog2 y)) as [H|H]; [exact H|exfalso].
  assert (pow2 (ilog2 y + 1) <= pow2 (ilog2 x)) by (apply pow2_le; lia).
  revert X1 Y2 H0 Hxy. generalize (pow2 (ilog2 y + 1)) (pow2 (ilog2 x)). intros; lra.
Qed.

Lemma ilog2_comp (x y : Q) : 0 < x -> x == y -> ilog2 x = ilog2 y.
Proof.
  intros Hx E. apply ilog2_unique. rewrite E. apply ilog2_spec. rewrite <- E. exact Hx.
Qed.

(* rne *)
Lemma rne_bounds (m : Q) : (Qfloor m <= rne m <= Qfloor m + 1)%Z.
Proof.
  unfold rne. destruct (m - inject_Z (Qfloor m) ?= 1 # 2); [destruct (Z.even _)| |]; lia.
Qed.

Lemma rne_error (m : Q) : m - (1 # 2) <= inject_Z (rne m) <= m + (1 # 2).
Proof.
  pose proof (Qfloor_le m) as H1. pose proof (Qlt_floor m) as H2.
  rewrite inject_Z_plus in H2. change (inject_Z 1) with 1 in H2.
  unfold rne. destruct (Qcompare_spec (m - inject_Z (Qfloor m)) (1 # 2)) as [E|E|E];
    [destruct (Z.even _)| |]; rewrite ?inject_Z_plus; change (inject_Z 1) with 1;
    revert H1 H2 E; generalize (inject_Z (Qfloor m)); intros; lra.
Qed.

Lemma rne_Z (z : Z) : rne (inject_Z z) = z.
Proof.
  unfold rne. rewrite Qfloor_Z.
  assert (E : (inject_Z z - inject_Z z ?= 1 # 2) = Lt).
  { apply (proj1 (Qlt_alt _ _)). generalize (inject_Z z). intros; lra. }
  rewrite E. reflexivity.
Qed.

Lemma rne_comp (a b : Q) : a == b -> rne a = rne b.
Proof.
  intros E. unfold rne. rewrite (Qfloor_comp a b E).
  assert (E' : (a - inject_Z (Qfloor b) ?= 1 # 2) = (b - inject_Z (Qfloor b) ?= 1 # 2)).
  { apply Qcompare_comp; [rewrite E|]; reflexivity. }
  rewrite E'. reflexivity.
Qed.

Lemma rne_mono (a b : Q) : a <= b -> (rne a <= rne b)%Z.
Proof.
  intros Hab. pose proof (Qfloor_resp_le a b Hab) as Hf.
  pose proof (rne_bounds a) as Ha. pose proof (rne_bounds b) as Hb.
  destruct (Z.eq_dec (Qfloor a) (Qfloor b)) as [E|Hne]; [|lia].
  unfold rne in *. rewrite E in *.
  destruct (Qcompare_spec (a - inject_Z (Qfloor b)) (1 # 2)) as [Ea|Ea|Ea];
    destruct (Qcompare_spec (b - inject_Z (Qfloor b)) (1 # 2)) as [Eb|Eb|Eb];
    try (destruct (Z.even (Qfloor b))); try lia; exfalso;
    revert Ea Eb Hab; generalize (inject_Z (Qfloor b)); intros; lra.
Qed.

Lemma ulp_exp_mono (x y : Q) : 0 < x -> x <= y -> (ulp_exp x <= ulp_exp y)%Z.
Proof. intros Hx Hxy. unfold ulp_exp. pose proof (ilog2_mono x y Hx Hxy). lia. Qed.

Lemma ulp_exp_comp (x y : Q) : 0 < x -> x == y -> ulp_exp x = ulp_exp y.
Proof. intros Hx E. unfold ulp_exp. rewrite (ilog2_comp x y Hx E). reflexivity. Qed.

Lemma fl_pos_comp (x y : Q) : 0 < x -> x == y -> fl_pos x == fl_pos y.
Proof.
  intros Hx E. unfold fl_pos. rewrite (ulp_exp_comp x y Hx E).
  rewrite (rne_comp (x / pow2 (ulp_exp y)) (y / pow2 (ulp_exp y))); [reflexivity|].
  rewrite E. reflexivity.
Qed.

Lemma fl_comp (x y : Q) : x == y -> fl x == fl y.
Proof.
  intros E. unfold fl. rewrite <- (Qcompare_comp x y E 0 0 (Qeq_refl 0)).
  destruct (Qcompare_spec x 0) as [H|H|H]; [reflexivity| |].
  - apply Qopp_comp. apply fl_pos_comp; [lra|rewrite E; reflexivity].
  - apply fl_pos_comp; assumption.
Qed.

(** A value on the grid of its own binade is left alone. *)
Lemma fl_pos_grid (q : Q) (k : Z) :
  0 < q -> q == inject_Z k * pow2 (ulp_exp q) -> fl_pos q == q.
Proof.
  intros Hq E. unfold fl_pos.
  assert (Ek : q / pow2 (ulp_exp q) == inject_Z k).
  { rewrite E at 1. field. pose proof (pow2_pos (ulp_exp q)) as P. intros E0.
    rewrite E0 in P. discriminate. }
  rewrite (rne_comp _ _ Ek), rne_Z. symmetry. exact E.
Qed.

(** ... more generally a multiple of a power of two no finer than that grid. *)
Lemma fl_pos_dyadic (q : Q) (z j : Z) :
  0 < q -> q == inject_Z z * pow2 j -> (ulp_exp q <= j)%Z -> fl_pos q == q.
Proof.
  intros Hq E Hj. apply (fl_pos_grid q (z * 2 ^ (j - ulp_exp q))); [exact Hq|].
  rewrite inject_Z_mult, <- pow2_Z by lia. rewrite E at 1.
  rewrite <- Qmult_assoc, <- pow2_plus.
  replace (j - ulp_exp q + ulp_exp q)%Z with j by lia. reflexivity.
Qed.

Lemma fl_pos_error (q : Q) :
  0 < q ->
  q - pow2 (ulp_exp q) * (1 # 2) <= fl_pos q <= q + pow2 (ulp_exp q) * (1 # 2).
Proof.
  intros Hq. unfold fl_pos. pose proof (pow2_pos (ulp_exp q)) as P.
  pose proof (rne_error (q / pow2 (ulp_exp q))) as [H1 H2].
  assert (E : q == q / pow2 (ulp_exp q) * pow2 (ulp_exp q)).
  { field. intros E0. rewrite E0 in P. discriminate. }
  revert H1 H2 E P. generalize (inject_Z (rne (q / pow2 (ulp_exp q)))).
  generalize (q / pow2 (ulp_exp q)) (pow2 (ulp_exp q)). intros m u r H1 H2 E P.
  rewrite E. split; nra.
Qed.

(** A power of two between [x] and [y] that lies on both grids separates
    the rounded values. *)
Lemma fl_pos_le_threshold (x : Q) (b : Z) :
  0 < x -> x <= pow2 b -> (ulp_exp x <= b)%Z -> fl_pos x <= pow2 b.
Proof.
  intros Hx Hle Hb. unfold fl_pos. set (E := ulp_exp x) in *.
  pose proof (pow2_pos E) as P.
  assert (Ht : pow2 b == inject_Z (2 ^ (b - E)) * pow2 E).
  { rewrite <- pow2_Z by lia. rewrite <- pow2_plus.
    replace (b - E + E)%Z with b by lia. reflexivity. }
  assert (Hr : (rne (x / pow2 E) <= 2 ^ (b - E))%Z).
  { rewrite <- (rne_Z (2 ^ (b - E))). apply rne_mono.
    apply Qle_shift_div_r; [exact P|]. rewrite <- Ht. exact Hle. }
  rewrite Ht. apply Qmult_le_compat_r; [|apply Qlt_le_weak, P].
  rewrite <- Zle_Qle. exact Hr.
Qed.

Lemma fl_pos_ge_threshold (y : Q) (b : Z) :
  0 < y -> pow2 b <= y -> (ulp_exp y <= b)%Z -> pow2 b <= fl_pos y.
Proof.
  intros Hy Hle Hb. unfold fl_pos. set (E := ulp_exp y) in *.
  pose proof (pow2_pos E) as P.
  assert (Ht : pow2 b == inject_Z (2 ^ (b - E)) * pow2 E).
  { rewrite <- pow2_Z by lia. rewrite <- pow2_plus.
    replace (b - E + E)%Z with b by lia. reflexivity. }
  assert (Hr : (2 ^ (b - E) <= rne (y / pow2 E))%Z).
  { rewrite <- (rne_Z (2 ^ (b - E))) at 1. apply rne_mono.
    apply Qle_shift_div_l; [exact P|]. rewrite <- Ht. exact Hle. }
  rewrite Ht. apply Qmult_le_compat_r; [|apply Qlt_le_weak, P].
  rewrite <- Zle_Qle. exact Hr.
Qed.

Lemma fl_pos_mono (x y : Q) : 0 < x -> x <= y -> fl_pos x <= fl_pos y.
Proof.
  intros Hx Hxy. assert (Hy : 0 < y) by lra.
  pose proof (ulp_exp_mono x y Hx Hxy) as HE.
  destruct (Z.eq_dec (ulp_exp x) (ulp_exp y)) as [E|Hne].
  - unfold fl_pos. rewrite E. pose proof (pow2_pos (ulp_exp y)) as P.
    apply Qmult_le_compat_r; [|apply Qlt_le_weak, P].
    rewrite <- Zle_Qle. apply rne_mono.
    apply Qmult_le_compat_r; [exact Hxy|]. apply Qlt_le_weak, Qinv_lt_0_compat, P.
  - assert (Hlt : (ulp_exp x < ulp_exp y)%Z) by lia.
    destruct (ilog2_spec x Hx) as [_ X2]. destruct (ilog2_spec y Hy) as [Y1 _].
    unfold ulp_exp in Hlt.
    assert (Hb : (ilog2 x + 1 <= ilog2 y)%Z) by lia.
    assert (Hxb : x <= pow2 (ilog2 y)).
    { pose proof (pow2_le _ _ Hb). revert X2 H.
      generalize (pow2 (ilog2 x + 1)) (pow2 (ilog2 y)). intros; lra. }
    apply (Qle_trans _ (pow2 (ilog2 y))).
    + apply fl_pos_le_threshold; [exact Hx|exact Hxb|unfold ulp_exp; lia].
    + apply fl_pos_ge_threshold; [exact Hy|exact Y1|unfold ulp_exp; lia].
Qed.

Lemma fl_pos_nonneg (x : Q) : 0 < x -> 0 <= fl_pos x.
Proof.
  intros Hx. unfold fl_pos. pose proof (pow2_pos (ulp_exp x)) as P.
  apply Qmult_le_0_compat; [|apply Qlt_le_weak, P].
  change 0 with (inject_Z 0). rewrite <- Zle_Qle, <- (rne_Z 0). apply rne_mono.
  apply Qle_shift_div_l; [exact P|]. rewrite Qmult_0_l. apply Qlt_le_weak, Hx.
Qed.

Lemma fl_mono (x y : Q) : x <= y -> fl x <= fl y.
Proof.
  intros Hxy. unfold fl.
  destruct (Qcompare_spec x 0) as [Hx|Hx|Hx]; destruct (Qcompare_spec y 0) as [Hy|Hy|Hy];
    try (exfalso; lra); try apply Qle_refl.
  - apply fl_pos_nonneg, Hy.
  - assert (0 <= fl_pos (- x)) by (apply fl_pos_nonneg; lra).
    revert H. generalize (fl_pos (- x)). intros; lra.
  - assert (fl_pos (- y) <= fl_pos (- x)) by (apply fl_pos_mono; lra).
    revert H. generalize (fl_pos (- x)) (fl_pos (- y)). intros; lra.
  - assert (0 <= fl_pos (- x)) by (apply fl_pos_nonneg; lra).
    assert (0 <= fl_pos y) by (apply fl_pos_nonneg; lra).
    revert H H0. generalize (fl_pos (- x)) (fl_pos y). intros; lra.
  - apply fl_pos_mono; assumption.
Qed.

Lemma fl_nonneg (x : Q) : 0 <= x -> 0 <= fl x.
Proof. intros H. change 0 with (fl 0) at 1. apply fl_mono, H. Qed.

(** Whole numbers up to 2^53 are doubles. *)
Lemma fl_Z (z : Z) : (0 <= z <= 2 ^ 53)%Z -> fl (inject_Z z) == inject_Z z.
Proof.
  intros [H0 H53]. unfold fl.
  destruct (Qcompare_spec (inject_Z z) 0) as [E|E|E]; [symmetry; exact E| |].
  - exfalso. change 0 with (inject_Z 0) in E. rewrite <- Zlt_Qlt in E. lia.
  - destruct (Z.eq_dec z (2 ^ 53)%Z) as [->|Hne].
    + apply (fl_pos_grid _ (2 ^ 52)%Z); [exact E|]. vm_compute. reflexivity.
    + apply (fl_pos_dyadic (inject_Z z) z 0 E); [change (pow2 0) with 1; ring|].
      destruct (ilog2_spec (inject_Z z) E) as [L1 _].
      assert (Hl : (ilog2 (inject_Z z) < 53)%Z).
      { destruct (Z.lt_ge_cases (ilog2 (inject_Z z)) 53%Z) as [?|Hge]; [assumption|exfalso].
        assert (pow2 53 <= pow2 (ilog2 (inject_Z z))) by (apply pow2_le; lia).
        assert (inject_Z z < pow2 53).
        { rewrite pow2_Z by lia. rewrite <- Zlt_Qlt. lia. }
        revert L1 H H1. generalize (inject_Z z) (pow2 53) (pow2 (ilog2 (inject_Z z))).
        intros; lra. }
      unfold ulp_exp. lia.
Qed.

Lemma Qfloor_unique (x : Q) (k : Z) :
  inject_Z k <= x -> x < inject_Z k + 1 -> Qfloor x = k.
Proof.
  intros H1 H2. pose proof (Qfloor_le x) as F1. pose proof (Qlt_floor x) as F2.
  rewrite inject_Z_plus in F2. change (inject_Z 1) with 1 in F2.
  assert (A : inject_Z (Qfloor x) < inject_Z (k + 1)).
  { rewrite inject_Z_plus. change (inject_Z 1) with 1.
    revert H2 F1. generalize (inject_Z (Qfloor x)) (inject_Z k). intros; lra. }
  assert (B : inject_Z k < inject_Z (Qfloor x + 1)).
  { rewrite inject_Z_plus. change (inject_Z 1) with 1.
    revert H1 F2. generalize (inject_Z (Qfloor x)) (inject_Z k). intros; lra. }
  rewrite <- Zlt_Qlt in A, B. lia.
Qed.

Lemma ilog2_lt (q : Q) (b : Z) : 0 < q -> q < pow2 b -> (ilog2 q < b)%Z.
Proof.
  intros Hq Hb. destruct (ilog2_spec q Hq) as [L _].
  destruct (Z.lt_ge_cases (ilog2 q) b) as [?|Hge]; [assumption|exfalso].
  pose proof (pow2_le _ _ Hge). revert L Hb H. generalize (pow2 (ilog2 q)) (pow2 b).
  intros; lra.
Qed.

(** Half-integers below 2^52 are doubles. *)
Lemma fl_pos_half (z : Z) :
  (0 < z < 2 ^ 53)%Z -> fl_pos (inject_Z z * (1 # 2)) == inject_Z z * (1 # 2).
Proof.
  intros [H0 H53].
  assert (Hq : 0 < inject_Z z * (1 # 2)).
  { assert (0 < inject_Z z) by (change 0 with (inject_Z 0); rewrite <- Zlt_Qlt; lia).
    revert H. generalize (inject_Z z). intros; lra. }
  apply (fl_pos_dyadic _ z (-1) Hq); [reflexivity|].
  assert (Hl : (ilog2 (inject_Z z * (1 # 2)) < 52)%Z).
  { apply ilog2_lt; [exact Hq|].
    assert (inject_Z z < inject_Z (2 ^ 53)) by (rewrite <- Zlt_Qlt; exact H53).
    change (inject_Z (2 ^ 53)) with (2 * pow2 52) in H.
    revert H. generalize (inject_Z z) (pow2 52). intros; lra. }
  unfold ulp_exp. lia.
Qed.

(** For whole numbers [s < 2^51] and [n > 0], rounding the quotient to a
    double does not change what [Math.round] makes of it. *)
Lemma round_fl_quotient (s n : Z) :
  (0 <= s < 2 ^ 51)%Z -> (0 < n)%Z ->
  Qfloor (fl (inject_Z s / inject_Z n) + (1 # 2))
  = Qfloor (inject_Z s / inject_Z n + (1 # 2)).
Proof.
  intros [Hs0 Hs] Hn.
  assert (Pn : 0 < inject_Z n) by (change 0 with (inject_Z 0); rewrite <- Zlt_Qlt; lia).
  assert (Nn : ~ inject_Z n == 0) by (intros E; rewrite E in Pn; discriminate).
  destruct (Z.eq_dec s 0%Z) as [->|Hs1].
  { apply Qfloor_comp. apply Qplus_comp; [|reflexivity].
    assert (E : inject_Z 0 / inject_Z n == 0) by (field; exact Nn).
    rewrite (fl_comp _ _ E). rewrite E. reflexivity. }
  set (q := inject_Z s / inject_Z n).
  assert (Ps : 1 <= inject_Z s) by (change 1 with (inject_Z 1); rewrite <- Zle_Qle; lia).
  assert (Hq : 0 < q).
  { unfold q. apply Qlt_shift_div_l; [exact Pn|]. rewrite Qmult_0_l.
    revert Ps. generalize (inject_Z s). intros; lra. }
  assert (Eqn : q * inject_Z n == inject_Z s) by (unfold q; field; exact Nn).
  assert (Hqs : q <= inject_Z s).
  { assert (1 <= inject_Z n) by (change 1 with (inject_Z 1); rewrite <- Zle_Qle; lia).
    revert Eqn Hq H. generalize (inject_Z s) (inject_Z n). intros; nra. }
  clearbody q.
  assert (Efl : fl q = fl_pos q).
  { unfold fl. destruct (Qcompare_spec q 0) as [E|E|E]; try reflexivity; exfalso; lra. }
  rewrite Efl.
  set (k := Qfloor (q + (1 # 2))).
  pose proof (Qfloor_le (q + (1 # 2))) as K1. pose proof (Qlt_floor (q + (1 # 2))) as K2.
  fold k in K1, K2. rewrite inject_Z_plus in K2. change (inject_Z 1) with 1 in K2.
  assert (Hk0 : (0 <= k)%Z).
  { assert (inject_Z (-1) < inject_Z k).
    { change (inject_Z (-1)) with (-1). revert K2 Hq. generalize (inject_Z k). intros; lra. }
    rewrite <- Zlt_Qlt in H. lia. }
  assert (Hk51 : (k <= 2 ^ 51)%Z).
  { assert (inject_Z k < inject_Z (2 ^ 51 + 1)).
    { assert (inject_Z s <= inject_Z (2 ^ 51 - 1)) by (rewrite <- Zle_Qle; lia).
      change (inject_Z (2 ^ 51 - 1)) with (inject_Z (2 ^ 51 + 1) - 2) in H.
      revert K1 Hqs H. generalize (inject_Z k) (inject_Z s) (inject_Z (2 ^ 51 + 1)).
      intros; lra. }
    rewrite <- Zlt_Qlt in H. lia. }
  apply Qfloor_unique.
  - (* lower bound *)
    destruct (Z.eq_dec k 0%Z) as [Ek|Ek].
    + rewrite Ek. pose proof (fl_pos_nonneg q Hq) as H. change (inject_Z 0) with 0.
      revert H. generalize (fl_pos q). intros; lra.
    + assert (Hh : fl_pos (inject_Z (2 * k - 1) * (1 # 2)) == inject_Z (2 * k - 1) * (1 # 2))
        by (apply fl_pos_half; lia).
      assert (Eh : inject_Z (2 * k - 1) * (1 # 2) == inject_Z k - (1 # 2)).
      { replace (2 * k - 1)%Z with (2 * k + (-1))%Z by lia.
        rewrite inject_Z_plus, inject_Z_mult.
        change (inject_Z 2) with 2. change (inject_Z (-1)) with (-1). ring. }
      assert (Hpos : 0 < inject_Z (2 * k - 1) * (1 # 2)).
      { assert (0 < inject_Z (2 * k - 1)) by (change 0 with (inject_Z 0); rewrite <- Zlt_Qlt; lia).
        revert H. generalize (inject_Z (2 * k - 1)). intros; lra. }
      assert (Hle : inject_Z (2 * k - 1) * (1 # 2) <= q).
      { rewrite Eh. revert K1. generalize (inject_Z k). intros; lra. }
      pose proof (fl_pos_mono _ _ Hpos Hle) as Hm. rewrite Hh, Eh in Hm.
      revert Hm. generalize (fl_pos q) (inject_Z k). intros; lra.
  - (* upper bound *)
    assert (Hh : fl_pos (inject_Z (2 * k + 1) * (1 # 2)) == inject_Z (2 * k + 1) * (1 # 2))
      by (apply fl_pos_half; lia).
    assert (Eh : inject_Z (2 * k + 1) * (1 # 2) == inject_Z k + (1 # 2)).
    { rewrite inject_Z_plus, inject_Z_mult.
      change (inject_Z 2) with 2. change (inject_Z 1) with 1. ring. }
    assert (Hlt : q < inject_Z k + (1 # 2)).
    { revert K2. generalize (inject_Z k). intros; lra. }
    assert (Hle : q <= inject_Z (2 * k + 1) * (1 # 2)) by (rewrite Eh; lra).
    pose proof (fl_pos_mono _ _ Hq Hle) as Hm. rewrite Hh, Eh in Hm.
    destruct (Qlt_le_dec (fl_pos q) (inject_Z k + (1 # 2))) as [Hdone|Hge].
    { revert Hdone. generalize (fl_pos q) (inject_Z k). intros; lra. }
    exfalso.
    (* the gap between q and the half-integer is at least 1/(2n) *)
    assert (Hgap : 1 <= (inject_Z k + (1 # 2) - q) * (2 * inject_Z n)).
    { assert (Hz : (2 * s < (2 * k + 1) * n)%Z).
      { rewrite Zlt_Qlt. rewrite !inject_Z_mult, inject_Z_plus, inject_Z_mult.
        change (inject_Z 2) with 2. change (inject_Z 1) with 1.
        rewrite <- Eqn. revert Hlt Pn. generalize (inject_Z k) (inject_Z n). intros; nra. }
      assert (Hz' : (1 <= (2 * k + 1) * n - 2 * s)%Z) by lia.
      rewrite Zle_Qle in Hz'. unfold Z.sub in Hz'.
      rewrite inject_Z_plus, inject_Z_opp, !inject_Z_mult, inject_Z_plus, inject_Z_mult in Hz'.
      change (inject_Z 2) with 2 in Hz'. change (inject_Z 1) with 1 in Hz'.
      rewrite <- Eqn in Hz'. revert Hz'. generalize (inject_Z k) (inject_Z n). intros; nra. }
    pose proof (fl_pos_error q Hq) as [_ Herr].
    pose proof (pow2_pos (ulp_exp q)) as Pu.
    destruct (ilog2_spec q Hq) as [L1 L2].
    destruct (Z.le_gt_cases (-1022)%Z (ilog2 q)) as [Hnorm|Hsub].
    + assert (Eu : pow2 (ulp_exp q) == pow2 (ilog2 q) * pow2 (-52)).
      { unfold ulp_exp. rewrite Z.max_l by lia. unfold Z.sub. apply pow2_plus. }
      assert (Hs52 : inject_Z s < inject_Z (2 ^ 51)) by (rewrite <- Zlt_Qlt; lia).
      assert (E51 : inject_Z (2 ^ 51) * pow2 (-52) == 1 # 2) by reflexivity.
      pose proof (pow2_pos (-52)) as P52.
      revert Hgap Herr Hge Eu L1 Eqn Hs52 E51 P52 Hq Pn Pu.
      generalize (fl_pos q) (inject_Z k) (inject_Z n) (inject_Z s) (pow2 (ulp_exp q))
                 (pow2 (ilog2 q)) (pow2 (-52)) (inject_Z (2 ^ 51)).
      intros f kk nn ss u p e52 c51 Hgap Herr Hge Eu L1 Eqn Hs52 E51 P52 Hq Pn Pu.
      assert (G1 : kk + (1 # 2) - q <= u * (1 # 2)) by lra.
      assert (G2 : 1 <= u * nn) by nra.
      assert (A1 : p * nn <= ss) by (rewrite <- Eqn; apply Qmult_le_compat_r; lra).
      assert (G3 : u * nn <= ss * e52).
      { rewrite Eu. assert (Hr : p * e52 * nn == p * nn * e52) by ring. rewrite Hr.
        apply Qmult_le_compat_r; lra. }
      assert (G4 : ss * e52 <= c51 * e52) by (apply Qmult_le_compat_r; lra).
      lra.
    + assert (Eu : pow2 (ulp_exp q) == pow2 (-1074)).
      { unfold ulp_exp. rewrite Z.max_r by lia. reflexivity. }
      assert (Hq4 : q < 1 # 4).
      { assert (pow2 (ilog2 q + 1) <= pow2 (-2)) by (apply pow2_le; lia).
        change (pow2 (-2)) with (1 # 4) in H.
        revert L2 H. generalize (pow2 (ilog2 q + 1)). intros; lra. }
      assert (Hu4 : pow2 (-1074) <= 1 # 4).
      { change (1 # 4) with (pow2 (-2)). apply pow2_le. lia. }
      assert (Hk : 0 <= inject_Z k) by (change 0 with (inject_Z 0); rewrite <- Zle_Qle; lia).
      rewrite Eu in Herr.
      revert Herr Hge Hq4 Hu4 Hk. generalize (fl_pos q) (inject_Z k) (pow2 (-1074)).
      intros; lra.
Qed.

Lemma fl_0 : fl 0 = 0.
Proof. reflexivity. Qed.

Lemma fl_le_Z (x : Q) (z : Z) : (0 <= z <= 2 ^ 53)%Z -> x <= inject_Z z -> fl x <= inject_Z z.
Proof. intros Hz Hx. rewrite <- (fl_Z z Hz). apply fl_mono, Hx. Qed.

Lemma Math_round_fl_quotient (s n : Z) :
  (0 <= s < 2 ^ 51)%Z -> (0 < n)%Z ->
  Math_round (fl (inject_Z s / inject_Z n)) = Math_round (inject_Z s / inject_Z n).
Proof.
  intros Hs Hn. unfold Math_round. f_equal. apply round_fl_quotient; assumption.
Qed.

(** *** Sums *)

Lemma Qsum_cons (x : Q) (l : list Q) : Qsum (x :: l) = x + Qsum l.
Proof. reflexivity. Qed.

Lemma Qsum_nonneg (l : list Q) : (forall x, In x l -> 0 <= x) -> 0 <= Qsum l.
Proof.
  induction l as [|x l IH]; intros H; [apply Qle_refl|].
  rewrite Qsum_cons.
  pose proof (H x (or_introl eq_refl)).
  assert (0 <= Qsum l) by (apply IH; intros y Hy; apply H; right; exact Hy).
  generalize dependent (Qsum l). intros; lra.
Qed.

Lemma whole_nonneg (x : Q) : whole x -> 0 <= x.
Proof.
  intros (z & Hz & E). rewrite E. change 0 with (inject_Z 0). rewrite <- Zle_Qle. exact Hz.
Qed.

Lemma whole_plus (x y : Q) : whole x -> whole y -> whole (x + y).
Proof.
  intros (a & Ha & Ea) (b & Hb & Eb). exists (a + b)%Z. split; [lia|].
  rewrite inject_Z_plus, Ea, Eb. reflexivity.
Qed.

Lemma whole_comp (x y : Q) : x == y -> whole x -> whole y.
Proof. intros E (z & Hz & Ez). exists z. split; [exact Hz|]. rewrite <- E. exact Ez. Qed.

Lemma whole_Qsum (l : list Q) : (forall x, In x l -> whole x) -> whole (Qsum l).
Proof.
  induction l as [|x l IH]; intros H.
  - exists 0%Z. split; [lia|reflexivity].
  - rewrite Qsum_cons. apply whole_plus; [apply H; left; reflexivity|].
    apply IH. intros y Hy. apply H. right. exact Hy.
Qed.

(** A whole number up to 2^53 is left alone by the rounding. *)
Lemma fl_whole (x : Q) : whole x -> x <= inject_Z (2 ^ 53) -> fl x == x.
Proof.
  intros (z & Hz & E) Hle. rewrite (fl_comp _ _ E), E. apply fl_Z.
  split; [exact Hz|]. rewrite Zle_Qle, <- E. exact Hle.
Qed.

(** Adding whole numbers in double precision is exact as long as the total
    stays within 2^53. *)
Lemma double_fold_whole (l : list Q) (a : Q) :
  whole a -> (forall x, In x l -> whole x) -> a + Qsum l <= inject_Z (2 ^ 53) ->
  fold_left (fun s x => fl (s + x)) l a == a + Qsum l.
Proof.
  revert a. induction l as [|x l IH]; intros a Ha Hl Hb.
  - cbn. unfold Qsum. cbn. ring.
  - cbn [fold_left]. rewrite Qsum_cons in *.
    assert (Hx : whole x) by (apply Hl; left; reflexivity).
    assert (Hl' : forall y, In y l -> whole y) by (intros y Hy; apply Hl; right; exact Hy).
    assert (Hs : 0 <= Qsum l) by (apply Qsum_nonneg; intros y Hy; apply whole_nonneg, Hl', Hy).
    assert (Hax : whole (a + x)) by (apply whole_plus; assumption).
    assert (E : fl (a + x) == a + x).
    { apply fl_whole; [exact Hax|].
      revert Hb Hs. generalize (Qsum l) (inject_Z (2 ^ 53)). intros; lra. }
    rewrite (IH (fl (a + x))).
    + rewrite E. ring.
    + apply (whole_comp (a + x)); [symmetry; exact E|exact Hax].
    + exact Hl'.
    + rewrite E. revert Hb. generalize (Qsum l) (inject_Z (2 ^ 53)). intros; lra.
Qed.

Lemma double_sum_whole (l : list Q) :
  (forall x, In x l -> whole x) -> Qsum l <= inject_Z (2 ^ 53) -> double_sum l == Qsum l.
Proof.
  intros Hl Hb. unfold double_sum. rewrite (double_fold_whole l 0).
  - ring.
  - exists 0%Z. split; [lia|reflexivity].
  - exact Hl.
  - rewrite Qplus_0_l. exact Hb.
Qed.

(** A sum of non-negative numbers in double precision is non-negative and
    at least as large as every double among its terms. *)
Lemma double_fold_nonneg (l : list Q) (a : Q) :
  0 <= a -> (forall x, In x l -> 0 <= x) -> 0 <= fold_left (fun s x => fl (s + x)) l a.
Proof.
  revert a. induction l as [|x l IH]; intros a Ha Hl; [exact Ha|].
  cbn [fold_left]. apply IH.
  - apply fl_nonneg. pose proof (Hl x (or_introl eq_refl)). lra.
  - intros y Hy. apply Hl. right. exact Hy.
Qed.

Lemma double_fold_ge_start (l : list Q) (a c : Q) :
  is_double c -> c <= a -> (forall x, In x l -> 0 <= x) ->
  c <= fold_left (fun s x => fl (s + x)) l a.
Proof.
  revert a. induction l as [|x l IH]; intros a Hc Hca Hl; [exact Hca|].
  cbn [fold_left]. apply IH; [exact Hc| |intros y Hy; apply Hl; right; exact Hy].
  unfold is_double in Hc. rewrite <- Hc. apply fl_mono.
  pose proof (Hl x (or_introl eq_refl)). lra.
Qed.

Lemma double_fold_ge_elem (l : list Q) (a y : Q) :
  0 <= a -> (forall x, In x l -> 0 <= x /\ is_double x) -> In y l ->
  y <= fold_left (fun s x => fl (s + x)) l a.
Proof.
  revert a. induction l as [|x l IH]; intros a Ha Hl Hy; [destruct Hy|].
  cbn [fold_left]. destruct (Hl x (or_introl eq_refl)) as [Hx Dx].
  assert (Hl' : forall z, In z l -> 0 <= z /\ is_double z)
    by (intros z Hz; apply Hl; right; exact Hz).
  destruct Hy as [<-|Hy].
  - apply double_fold_ge_start; [exact Dx| |intros z Hz; apply Hl', Hz].
    unfold is_double in Dx. rewrite <- Dx at 1. apply fl_mono. lra.
  - apply IH; [|exact Hl'|exact Hy]. apply fl_nonneg. lra.
Qed.

Lemma double_sum_ge_elem (l : list Q) (y : Q) :
  (forall x, In x l -> 0 <= x /\ is_double x) -> In y l -> y <= double_sum l.
Proof. intros Hl Hy. apply double_fold_ge_elem; [apply Qle_refl|exact Hl|exact Hy]. Qed.

(** The absolute error of rounding a number below [2^b]. *)
Lemma fl_abs_error (q : Q) (b : Z) :
  (-1021 <= b)%Z -> 0 <= q -> q < pow2 b ->
  q - pow2 (b - 54) <= fl q <= q + pow2 (b - 54).
Proof.
  intros Hb H0 Hq. pose proof (pow2_pos (b - 54)) as P.
  unfold fl. destruct (Qcompare_spec q 0) as [E|E|E].
  - rewrite E. revert P. generalize (pow2 (b - 54)). intros; lra.
  - exfalso. lra.
  - pose proof (fl_pos_error q E) as [H1 H2].
    assert (Hu : (ulp_exp q <= b - 53)%Z).
    { unfold ulp_exp. pose proof (ilog2_lt q b E Hq). lia. }
    assert (Hp : pow2 (ulp_exp q) * (1 # 2) <= pow2 (b - 54)).
    { apply pow2_le in Hu. replace (b - 53)%Z with ((b - 54) + 1)%Z in Hu by lia.
      rewrite pow2_succ in Hu. revert Hu.
      generalize (pow2 (ulp_exp q)) (pow2 (b - 54)). intros; lra. }
    revert H1 H2 Hp. generalize (fl_pos q) (pow2 (ulp_exp q)) (pow2 (b - 54)).
    intros; lra.
Qed.

Lemma Math_round_unique (x : Q) (k : Z) :
  inject_Z k - (1 # 2) <= x -> x < inject_Z k + (1 # 2) -> Math_round x = inject_Z k.
Proof.
  intros H1 H2. unfold Math_round. f_equal. apply Qfloor_unique.
  - revert H1. generalize (inject_Z k). intros; lra.
  - revert H2. generalize (inject_Z k). intros; lra.
Qed.

(** A quotient in [0, 1] scaled by 100, as the chart computes it: the two
    roundings move the result by less than [2^-45]. *)
Lemma fl_scaled_quotient_error (q : Q) :
  0 <= q <= 1 ->
  q * 100 - pow2 (-45) < fl (fl q * 100) < q * 100 + pow2 (-45).
Proof.
  intros [H0 H1].
  assert (A : q - pow2 (-53) <= fl q <= q + pow2 (-53)).
  { apply (fl_abs_error q 1); [lia|exact H0|]. change (pow2 1) with 2. lra. }
  assert (B0 : 0 <= fl q) by (apply fl_nonneg, H0).
  assert (B1 : fl q <= 1) by (apply (fl_le_Z q 1); [lia|exact H1]).
  assert (C : fl q * 100 - pow2 (-47) <= fl (fl q * 100) <= fl q * 100 + pow2 (-47)).
  { apply (fl_abs_error (fl q * 100) 7); [lia| |].
    - revert B0. generalize (fl q). intros; lra.
    - change (pow2 7) with 128. revert B1. generalize (fl q). intros; lra. }
  assert (E1 : pow2 (-47) == 64 * pow2 (-53)) by reflexivity.
  assert (E2 : pow2 (-45) == 4 * pow2 (-47)) by reflexivity.
  pose proof (pow2_pos (-53)) as P.
  revert A C E1 E2 P.
  generalize (fl (fl q * 100)) (fl q) (pow2 (-53)) (pow2 (-47)) (pow2 (-45)).
  intros; lra.
Qed.

End DoubleFacts.

(** ** The stable sort *)

Section SortFacts.
Import JS.
Local Open Scope Q_scope.

Context {A : Type}.
Variable key : A -> Q.

Lemma sort_insert_perm (x : A) (l : list A) :
  Permutation (sort_insert (descending_by key) x l) (x :: l).
Proof.
  induction l as [|y l IH]; simpl; [reflexivity|].
  destruct (Qle_bool _ _); [reflexivity|].
  rewrite IH. apply perm_swap.
Qed.

Lemma Array_sort_perm (l : list A) :
  Permutation (Array_sort (descending_by key) l) l.
Proof.
  induction l as [|x l IH]; simpl; [reflexivity|].
  rewrite sort_insert_perm. constructor. exact IH.
Qed.

Lemma Array_sort_length (l : list A) :
  length (Array_sort (descending_by key) l) = length l.
Proof. apply Permutation_length, Array_sort_perm. Qed.

Lemma sort_insert_sorted (x : A) (l : list A) :
  StronglySorted (ge_key key) l ->
  StronglySorted (ge_key key) (sort_insert (descending_by key) x l).
Proof.
  induction 1 as [|y l Hs IH Hy]; simpl.
  - repeat constructor.
  - unfold descending_by at 1. destruct (Qle_bool _ _) eqn:E.
    + apply Qle_bool_iff in E. constructor; [constructor; assumption|].
      constructor; [unfold ge_key; lra|].
      eapply List.Forall_impl; [|exact Hy]. unfold ge_key. intros a Ha. lra.
    + assert (Hlt : key x < key y).
      { destruct (Qlt_le_dec (key x) (key y)) as [?|Hge]; [assumption|].
        assert (Qle_bool (key y - key x) 0 = true) by (apply Qle_bool_iff; lra).
        congruence. }
      constructor; [exact IH|].
      eapply Permutation_Forall; [symmetry; apply sort_insert_perm|].
      constructor; [unfold ge_key; lra|exact Hy].
Qed.

Lemma Array_sort_sorted (l : list A) :
  StronglySorted (ge_key key) (Array_sort (descending_by key) l).
Proof.
  induction l as [|x l IH]; simpl; [constructor|].
  apply sort_insert_sorted, IH.
Qed.

Lemma sort_insert_stable (v : Q) (x : A) (l : list A) :
  List.filter (with_key key v) (sort_insert (descending_by key) x l)
  = List.filter (with_key key v) (x :: l).
Proof.
  induction l as [|y l IH]; [reflexivity|].
  cbn [sort_insert]. unfold descending_by at 1.
  destruct (Qle_bool _ _) eqn:E; [reflexivity|].
  cbn [List.filter] in *. rewrite IH.
  destruct (with_key key v x) eqn:Ex, (with_key key v y) eqn:Ey; try reflexivity.
  exfalso. unfold with_key in *.
  apply Qeq_bool_iff in Ex, Ey.
  assert (Qle_bool (key y - key x) 0 = true) by (apply Qle_bool_iff; lra).
  congruence.
Qed.

Lemma Array_sort_stable (v : Q) (l : list A) :
  List.filter (with_key key v) (Array_sort (descending_by key) l)
  = List.filter (with_key key v) l.
Proof.
  induction l as [|x l IH]; [reflexivity|].
  cbn [Array_sort]. rewrite sort_insert_stable.
  cbn [List.filter]. rewrite IH. reflexivity.
Qed.

(** A descending arrangement that keeps equal keys in input order is
    unique, so any stable sort returns what [Array_sort] computes. *)
Lemma stable_descending_unique (s s' : list A) :
  Permutation s s' ->
  StronglySorted (ge_key key) s -> StronglySorted (ge_key key) s' ->
  (forall v, List.filter (with_key key v) s = List.filter (with_key key v) s') ->
  s = s'.
Proof.
  revert s'. induction s as [|x s IH]; intros s' Hp Hs Hs' Hf.
  - apply Permutation_nil in Hp. congruence.
  - destruct s' as [|y s']; [apply Permutation_sym, Permutation_nil in Hp; discriminate|].
    apply StronglySorted_inv in Hs as [Hs Hx]. apply StronglySorted_inv in Hs' as [Hs' Hy].
    assert (Hxy : key x == key y).
    { assert (Hle1 : key x <= key y).
      { assert (Hin : In x (y :: s')) by (eapply Permutation_in; [exact Hp|left; reflexivity]).
        destruct Hin as [<-|Hin]; [lra|].
        rewrite List.Forall_forall in Hy. apply (Hy x Hin). }
      assert (Hle2 : key y <= key x).
      { assert (Hin : In y (x :: s))
          by (eapply Permutation_in; [symmetry; exact Hp|left; reflexivity]).
        destruct Hin as [<-|Hin]; [lra|].
        rewrite List.Forall_forall in Hx. apply (Hx y Hin). }
      lra. }
    assert (Exy : x = y).
    { specialize (Hf (key x)). cbn [List.filter] in Hf. unfold with_key in Hf.
      assert (E1 : Qeq_bool (key x) (key x) = true) by (apply Qeq_bool_iff; reflexivity).
      assert (E2 : Qeq_bool (key y) (key x) = true)
        by (apply Qeq_bool_iff; symmetry; exact Hxy).
      rewrite E1, E2 in Hf. congruence. }
    subst y. f_equal. apply IH.
    + eapply Permutation_cons_inv. exact Hp.
    + exact Hs.
    + exact Hs'.
    + intros v. specialize (Hf v). cbn [List.filter] in Hf.
      destruct (with_key key v x); congruence.
Qed.

(** The head of the sorted copy is the first element, in input order, whose
    key is the largest. *)
Lemma Array_sort_head (l : list A) :
  l <> [] ->
  exists (i : nat) (r : A),
    head (Array_sort (descending_by key) l) = Some r /\
    l !! i = Some r /\
    (forall k a, l !! k = Some a -> key a <= key r) /\
    (forall k a, (k < i)%nat -> l !! k = Some a -> key a < key r).
Proof.
  induction l as [|x l IH]; [congruence|]. intros _.
  destruct l as [|y l].
  - exists 0%nat, x. simpl. repeat split; try reflexivity.
    + intros [|k] a Hk; simpl in Hk; [|discriminate]. injection Hk as <-. lra.
    + intros k a Hk. lia.
  - destruct IH as (i & r & Hh & Hi & Hmax & Hfirst); [discriminate|].
    cbn [Array_sort] in *.
    destruct (sort_insert (descending_by key) y (Array_sort (descending_by key) l)) as [|r' s];
      [discriminate|].
    injection Hh as ->.
    cbn [sort_insert]. unfold descending_by at 1.
    destruct (Qle_bool _ _) eqn:E.
    + apply Qle_bool_iff in E. exists 0%nat, x. repeat split; try reflexivity.
      * intros [|k] a Hk; cbn in Hk.
        -- injection Hk as <-. lra.
        -- specialize (Hmax k a Hk). lra.
      * intros k a Hk. lia.
    + assert (Hlt : key x < key r).
      { destruct (Qlt_le_dec (key x) (key r)) as [?|Hge]; [assumption|].
        assert (Qle_bool (key r - key x) 0 = true) by (apply Qle_bool_iff; lra).
        congruence. }
      exists (S i), r. repeat split; try reflexivity.
      * exact Hi.
      * intros [|k] a Hk; cbn in Hk.
        -- injection Hk as <-. lra.
        -- exact (Hmax k a Hk).
      * intros [|k] a Hlt' Hk; cbn in Hk.
        -- injection Hk as <-. exact Hlt.
        -- apply (Hfirst k a); [lia|exact Hk].
Qed.

End SortFacts.

(** ** The KPI summary *)

Section MetricsFacts.
Import JS Metrics.
Local Open Scope Q_scope.

(** The left-to-right reduction over the rows is the double-precision sum
    of the values it reads. *)
Lemma reduce_double_sum (f : Row -> Q) (data : list Row) :
  fold_left (fun sum r => fl (sum + f r)) data 0 = double_sum (map f data).
Proof.
  unfold double_sum. generalize 0. induction data as [|r data IH]; intros a; [reflexivity|].
  cbn [fold_left map]. apply IH.
Qed.

Lemma Qsum_or_zero (field : Row -> option Q) (data : list Row) :
  Qsum (map (fun r => or_zero (field r)) data) == Qsum (omap field data).
Proof.
  induction data as [|r data IH]; [reflexivity|].
  change (omap field (r :: data))
    with (match field r with Some y => y :: omap field data | None => omap field data end).
  cbn [map Qsum foldr]. unfold Qsum in IH. rewrite IH.
  destruct (field r) as [x|].
  - rewrite or_zero_Some. reflexivity.
  - rewrite or_zero_None. apply Qplus_0_l.
Qed.

Lemma kpis_median_double (data : list Row) (isAll : bool) :
  data <> [] ->
  median (kpis data isAll)
  = Math_round (fl (double_sum (map median_key data) / length_of data)).
Proof.
  intros Hne. destruct data as [|r data]; [congruence|].
  cbn [kpis median]. unfold median_key. rewrite <- reduce_double_sum. reflexivity.
Qed.

Lemma mean_of_medians_eq (data : list Row) :
  mean_of_medians data == Qsum (map median_key data) / length_of data.
Proof.
  unfold mean_of_medians, median_key. rewrite Qsum_or_zero. reflexivity.
Qed.

(** For whole-number medians whose sum is below 2^51 the double arithmetic
    of [kpis] loses nothing. *)
Lemma kpis_median_eq (data : list Row) (isAll : bool) :
  data <> [] ->
  (forall r, In r data -> whole (median_key r)) ->
  Qsum (map median_key data) < inject_Z (2 ^ 51) ->
  median (kpis data isAll) = Math_round (mean_of_medians data).
Proof.
  intros Hne Hw Hb. rewrite (kpis_median_double data isAll Hne).
  assert (Hwl : forall x, In x (map median_key data) -> whole x).
  { intros x Hx. apply in_map_iff in Hx as (r & <- & Hr). apply Hw, Hr. }
  destruct (whole_Qsum _ Hwl) as (s & Hs0 & Es).
  assert (Hs : (s < 2 ^ 51)%Z) by (rewrite Zlt_Qlt, <- Es; exact Hb).
  assert (Ed : double_sum (map median_key data) == inject_Z s).
  { rewrite double_sum_whole; [exact Es|exact Hwl|].
    rewrite Es, <- Zle_Qle. lia. }
  assert (Hn : (0 < Z.of_nat (length data))%Z) by (destruct data; [congruence|cbn; lia]).
  unfold length_of.
  rewrite (Math_round_comp _ (fl (inject_Z s / inject_Z (Z.of_nat (length data))))).
  - rewrite (Math_round_fl_quotient s _ (conj Hs0 Hs) Hn).
    apply Math_round_comp. rewrite mean_of_medians_eq, Es. reflexivity.
  - apply fl_comp. rewrite Ed. reflexivity.
Qed.

(** The medians [100, 200, missing] of the specification: 300 / 3. *)
Example kpis_median_100_200_missing :
  median (kpis rows_100_200_missing true) = 100.
Proof. vm_compute. reflexivity. Qed.

(** Medians 867.84, 171.43, 542.91, 407.82: the double sum is a little
    below 1990, so the summary holds 497 where the exact mean rounds to 498. *)
Example kpis_median_fractional :
  median (kpis rows_fractional true) = 497 /\
  Math_round (((86784 # 100) + (17143 # 100) + (54291 # 100) + (40782 # 100)) / 4) = 498.
Proof. split; vm_compute; reflexivity. Qed.

(** C2, as stated, fails: for the medians [1, 2] the arithmetic mean is 3/2,
    and the summary holds [Math.round(1.5) = 2]. *)
Lemma kpis_median_differs_from_mean :
  mean_of_medians rows_1_2 == 3 # 2 /\
  median (kpis rows_1_2 true) == 2 /\
  ~ median (kpis rows_1_2 true) == mean_of_medians rows_1_2.
Proof.
  split; [reflexivity|]. split; [vm_compute; reflexivity|].
  intros H. vm_compute in H. discriminate.
Qed.

(** C2, amended: for a non-empty collection the summary's [median] is
    [Math.round] of the mean of [median_value] as computed in double
    precision (no partial sum overflowing): the values are added from the
    left, an absent value adding 0, each partial sum rounded to a double,
    and the sum is divided by the number of all rows, the quotient rounded
    to a double.  When every median is a non-negative whole number and
    their sum is below 2^51, nothing is lost: the figure is [Math.round]
    of the exact arithmetic mean over all rows (absent values adding 0),
    the integer within 1/2 of that mean (the upper one on a tie), and the
    mean itself whenever the mean is an integer. *)
Theorem kpis_median_rounded_mean (data : list Row) (isAll : bool) :
  data <> [] ->
  (sums_finite (map median_key data) ->
   median (kpis data isAll)
   = Math_round (fl (double_sum (map median_key data) / length_of data))) /\
  ((forall r, In r data -> whole (median_key r)) ->
   Qsum (map median_key data) < inject_Z (2 ^ 51) ->
   median (kpis data isAll) = Math_round (mean_of_medians data) /\
   (exists z : Z,
       median (kpis data isAll) = inject_Z z /\
       mean_of_medians data - (1 # 2) < inject_Z z <= mean_of_medians data + (1 # 2)) /\
   (forall z : Z, mean_of_medians data == inject_Z z ->
                  median (kpis data isAll) == mean_of_medians data)).
Proof.
  intros Hne. split; [intros _; apply kpis_median_double, Hne|].
  intros Hw Hb. rewrite (kpis_median_eq data isAll Hne Hw Hb).
  split; [reflexivity|]. split.
  - apply Math_round_spec.
  - intros z Hz. rewrite (Math_round_comp _ _ Hz), Math_round_integer.
    symmetry. exact Hz.
Qed.

Lemma rows_100_200_missing_whole :
  sums_finite (map median_key rows_100_200_missing) /\
  (forall r, In r rows_100_200_missing -> whole (median_key r)) /\
  Qsum (map median_key rows_100_200_missing) < inject_Z (2 ^ 51).
Proof.
  split; [|split; [|reflexivity]].
  - intros [|[|[|[|n]]]]; split; reflexivity.
  - intros r [<-|[<-|[<-|[]]]]; [exists 100%Z|exists 200%Z|exists 0%Z]; split;
      try lia; reflexivity.
Defined.

Lemma kpis_median_rounded_mean_witness :
  rows_100_200_missing <> [] /\
  sums_finite (map median_key rows_100_200_missing) /\
  (forall r, In r rows_100_200_missing -> whole (median_key r)) /\
  Qsum (map median_key rows_100_200_missing) < inject_Z (2 ^ 51) /\
  median (kpis rows_100_200_missing true)
  = Math_round (fl (double_sum (map median_key rows_100_200_missing)
                    / length_of rows_100_200_missing)) /\
  median (kpis rows_100_200_missing true)
  = Math_round (mean_of_medians rows_100_200_missing).
Proof.
  assert (Hne : rows_100_200_missing <> []) by discriminate.
  destruct rows_100_200_missing_whole as (Hf & Hw & Hb).
  destruct (kpis_median_rounded_mean rows_100_200_missing true Hne) as [H1 H2].
  destruct (H2 Hw Hb) as [H3 _]. specialize (H1 Hf).
  repeat (split; [assumption|]). exact H3.
Defined.

(** C3: on an empty collection the summary is exactly the placeholder
    (zero totals, the dash label, zero top values), in either scope; [kpis]
    is a total function and the division is never reached. *)
Theorem kpis_empty (isAll : bool) :
  kpis [] isAll =
  {| totalSales := 0; median := 0;
     topLabel := Some "—"; topValue := 0;
     topVolumeLabel := Some "—"; topVolumeCount := 0 |}.
Proof. reflexivity. Qed.

(** C4: for a non-empty collection the top-by-value entry is the first row,
    in input order, among those with the largest [median_value], and the
    top-by-volume entry is the first row among those with the largest
    [count] (an absent value counting as 0): nothing is larger, and
    everything before it is strictly smaller. *)
Theorem kpis_top_first_maximum (data : list Row) (isAll : bool) :
  data <> [] ->
  exists (i : nat) (rv : Row) (j : nat) (rc : Row),
    (data !! i = Some rv /\
     (forall k r, data !! k = Some r -> median_key r <= median_key rv) /\
     (forall k r, (k < i)%nat -> data !! k = Some r -> median_key r < median_key rv) /\
     topLabel (kpis data isAll) = (if isAll then borough rv else neighborhood rv) /\
     topValue (kpis data isAll) = median_key rv) /\
    (data !! j = Some rc /\
     (forall k r, data !! k = Some r -> count_key r <= count_key rc) /\
     (forall k r, (k < j)%nat -> data !! k = Some r -> count_key r < count_key rc) /\
     topVolumeLabel (kpis data isAll) = (if isAll then borough rc else neighborhood rc) /\
     topVolumeCount (kpis data isAll) = count_key rc).
Proof.
  intros Hne.
  destruct (Array_sort_head median_key data Hne) as (i & rv & Hh & Hi & Hmax & Hfirst).
  destruct (Array_sort_head count_key data Hne) as (j & rc & Hh' & Hj & Hmax' & Hfirst').
  exists i, rv, j, rc.
  change (descending_by median_key) with byMedian in Hh.
  change (descending_by count_key) with byCount in Hh'.
  destruct data as [|r0 data]; [congruence|].
  cbn [kpis topLabel topValue topVolumeLabel topVolumeCount].
  rewrite Hh, Hh'. cbn [mbind option_bind].
  repeat split; try assumption; reflexivity.
Qed.

Lemma kpis_top_first_maximum_witness :
  rows_A_B <> [] /\
  exists (i : nat) (rv : Row) (j : nat) (rc : Row),
    (rows_A_B !! i = Some rv /\
     (forall k r, rows_A_B !! k = Some r -> median_key r <= median_key rv) /\
     (forall k r, (k < i)%nat -> rows_A_B !! k = Some r -> median_key r < median_key rv) /\
     topLabel (kpis rows_A_B true) = borough rv /\
     topValue (kpis rows_A_B true) = median_key rv) /\
    (rows_A_B !! j = Some rc /\
     (forall k r, rows_A_B !! k = Some r -> count_key r <= count_key rc) /\
     (forall k r, (k < j)%nat -> rows_A_B !! k = Some r -> count_key r < count_key rc) /\
     topVolumeLabel (kpis rows_A_B true) = borough rc /\
     topVolumeCount (kpis rows_A_B true) = count_key rc).
Proof.
  split; [discriminate|].
  apply (kpis_top_first_maximum rows_A_B true). discriminate.
Defined.

(** The two rows of the specification: equal medians, so A wins by value;
    B has more sales. *)
Example kpis_top_A_B :
  topLabel (kpis rows_A_B true) = Some "A" /\
  topVolumeLabel (kpis rows_A_B true) = Some "B".
Proof. split; reflexivity. Qed.

End MetricsFacts.

(** ** The chart subset *)

Section ChartDataFacts.
Import JS Metrics.
Local Open Scope Q_scope.

(** C5: in all-boroughs scope the chart gets the rows as they came; in
    single-borough scope it gets the first 10 rows of the rearrangement of
    the rows that is descending by [median_value] and keeps rows of equal
    value in their input order: such a rearrangement exists, and whichever
    one is taken, the chart is its first 10 rows.  On fifteen rows with a
    duplicated maximum that is ten rows, the two largest first in their
    input order. *)
Theorem chartData_top10_stable (data : list Row) :
  chartData data true = data /\
  (exists sorted : list Row,
      Permutation sorted data /\
      StronglySorted (fun a b => median_key b <= median_key a) sorted /\
      (forall v : Q,
          List.filter (fun r => Qeq_bool (median_key r) v) sorted
          = List.filter (fun r => Qeq_bool (median_key r) v) data)) /\
  (forall sorted : list Row,
      Permutation sorted data ->
      StronglySorted (fun a b => median_key b <= median_key a) sorted ->
      (forall v : Q,
          List.filter (fun r => Qeq_bool (median_key r) v) sorted
          = List.filter (fun r => Qeq_bool (median_key r) v) data) ->
      chartData data false = take 10 sorted) /\
  length (chartData data false) = Nat.min 10 (length data) /\
  map neighborhood (chartData rows15 false)
  = map Some ["n4"; "n7"; "n15"; "n14"; "n13"; "n12"; "n2"; "n8"; "n5"; "n10"]%string.
Proof.
  split; [reflexivity|]. split; [|split; [|split]].
  - exists (Array_sort byMedian data). repeat split.
    + apply (Array_sort_perm median_key).
    + apply (Array_sort_sorted median_key).
    + intros v. apply (Array_sort_stable median_key v).
  - intros sorted Hp Hs Hf. unfold chartData, slice0. f_equal.
    apply (stable_descending_unique median_key).
    + rewrite Hp. apply (Array_sort_perm median_key).
    + apply (Array_sort_sorted median_key).
    + exact Hs.
    + intros v. unfold with_key. rewrite Hf. apply (Array_sort_stable median_key v).
  - unfold chartData, slice0. rewrite length_take.
    change byMedian with (descending_by median_key).
    rewrite Array_sort_length. reflexivity.
  - vm_compute. reflexivity.
Qed.

Lemma chartData_top10_stable_witness :
  Permutation (Array_sort byMedian rows15) rows15 /\
  StronglySorted (fun a b => median_key b <= median_key a) (Array_sort byMedian rows15) /\
  (forall v : Q,
      List.filter (fun r => Qeq_bool (median_key r) v) (Array_sort byMedian rows15)
      = List.filter (fun r => Qeq_bool (median_key r) v) rows15) /\
  chartData rows15 false = take 10 (Array_sort byMedian rows15).
Proof.
  assert (H1 : Permutation (Array_sort byMedian rows15) rows15)
    by apply (Array_sort_perm median_key).
  assert (H2 : StronglySorted (fun a b => median_key b <= median_key a)
                              (Array_sort byMedian rows15))
    by apply (Array_sort_sorted median_key).
  assert (H3 : forall v : Q,
             List.filter (fun r => Qeq_bool (median_key r) v) (Array_sort byMedian rows15)
             = List.filter (fun r => Qeq_bool (median_key r) v) rows15)
    by (intros v; apply (Array_sort_stable median_key v)).
  repeat (split; [assumption|]).
  destruct (chartData_top10_stable rows15) as (_ & _ & Huniq & _).
  exact (Huniq _ H1 H2 H3).
Defined.

End ChartDataFacts.

(** ** The bar chart *)

Section BarChartFacts.
Import JS Metrics Chart.
Local Open Scope Q_scope.

Lemma chart_max_spec (valueKey : Row -> option Q) (data : list Row) :
  data <> [] ->
  exists max : Q,
    chart_max valueKey data = Some max /\
    (exists r, In r data /\ max = bar_value valueKey r) /\
    (forall r, In r data -> bar_value valueKey r <= max).
Proof.
  intros Hne. destruct data as [|d data]; [congruence|].
  unfold chart_max. cbn [map].
  set (x := bar_value valueKey d). set (xs := map (bar_value valueKey) data).
  exists (Math_max x xs). split; [reflexivity|].
  destruct (Math_max_ge xs x) as [Hx Hxs]. split.
  - destruct (Math_max_attained xs x) as [E|Hin].
    + exists d. split; [left; reflexivity|exact E].
    + unfold xs in Hin. apply in_map_iff in Hin as (r & Hr & Hin).
      exists r. split; [right; exact Hin|symmetry; exact Hr].
  - intros r [<-|Hin]; [exact Hx|].
    rewrite List.Forall_forall in Hxs. apply Hxs. unfold xs.
    apply in_map. exact Hin.
Qed.

Lemma bar_pct_of_positive (max val : Q) :
  0 < max -> bar_pct_of max val = Qmax 4 (Math_round (fl (fl (val / max) * 100))).
Proof.
  intros H. unfold bar_pct_of. destruct (Qlt_le_dec 0 max) as [_|Hle]; [reflexivity|].
  exfalso. apply (Qlt_not_le _ _ H Hle).
Qed.

Lemma bar_pct_of_full (max val : Q) :
  0 < max -> val == max -> bar_pct_of max val = 100.
Proof.
  intros H E. rewrite bar_pct_of_positive by exact H.
  assert (E1 : fl (val / max) == 1).
  { assert (E0 : val / max == inject_Z 1).
    { rewrite E. change (inject_Z 1) with 1. field. intros E0. rewrite E0 in H.
      apply (Qlt_irrefl 0 H). }
    rewrite (fl_comp _ _ E0). apply (fl_Z 1). lia. }
  assert (E100 : fl (fl (val / max) * 100) == inject_Z 100).
  { assert (E0 : fl (val / max) * 100 == inject_Z 100) by (rewrite E1; reflexivity).
    rewrite (fl_comp _ _ E0). apply (fl_Z 100). lia. }
  rewrite (Math_round_comp _ _ E100), Math_round_integer. reflexivity.
Qed.

Lemma Qmax_4_small (r : Q) : r <= 4 -> Qmax 4 r = 4.
Proof.
  intros H. unfold Qmax, GenericMinMax.gmax.
  destruct (Qcompare_spec 4 r) as [E|E|E]; try reflexivity. exfalso. lra.
Qed.

Lemma whole_not_near_tie (x : Q) (z : Z) : x == inject_Z z -> ~ near_tie x.
Proof.
  intros E (k & H1 & H2). rewrite E in H1, H2.
  assert (P : pow2 (-45) < 1 # 2) by reflexivity.
  assert (A : inject_Z k < inject_Z z).
  { revert H1 P. generalize (inject_Z k) (inject_Z z) (pow2 (-45)). intros; lra. }
  assert (B : inject_Z z < inject_Z (k + 1)).
  { rewrite inject_Z_plus. change (inject_Z 1) with 1.
    revert H2 P. generalize (inject_Z k) (inject_Z z) (pow2 (-45)). intros; lra. }
  rewrite <- Zlt_Qlt in A, B. lia.
Qed.

(** Away from the rounding ties the two roundings of the quotient and the
    product do not show in the width. *)
Lemma bar_pct_of_exact (max val : Q) :
  0 < max -> val <= max -> ~ near_tie (val / max * 100) ->
  bar_pct_of max val = Qmax 4 (Math_round (val / max * 100)).
Proof.
  intros Hpos Hle Hnt. rewrite (bar_pct_of_positive max val Hpos).
  assert (Hq1 : val / max <= 1).
  { apply Qle_shift_div_r; [exact Hpos|]. rewrite Qmult_1_l. exact Hle. }
  destruct (Qlt_le_dec val 0) as [Hneg|Hnn].
  - assert (Hq0 : val / max <= 0).
    { apply Qle_shift_div_r; [exact Hpos|]. rewrite Qmult_0_l. apply Qlt_le_weak, Hneg. }
    assert (R0 : Math_round 0 <= 4) by discriminate.
    assert (R1 : Math_round (fl (fl (val / max) * 100)) <= Math_round 0).
    { apply Math_round_mono. apply (fl_le_Z _ 0); [lia|]. change (inject_Z 0) with 0.
      assert (H : fl (val / max) <= 0) by (apply (fl_le_Z _ 0); [lia|exact Hq0]).
      revert H. generalize (fl (val / max)). intros; lra. }
    assert (R2 : Math_round (val / max * 100) <= Math_round 0).
    { apply Math_round_mono. revert Hq0. generalize (val / max). intros; lra. }
    rewrite !Qmax_4_small; [reflexivity| |].
    + revert R0 R2. generalize (Math_round 0) (Math_round (val / max * 100)). intros; lra.
    + revert R0 R1.
      generalize (Math_round 0) (Math_round (fl (fl (val / max) * 100))). intros; lra.
  - assert (Hq0 : 0 <= val / max).
    { apply Qle_shift_div_l; [exact Hpos|]. rewrite Qmult_0_l. exact Hnn. }
    pose proof (fl_scaled_quotient_error (val / max) (conj Hq0 Hq1)) as [E1 E2].
    destruct (Math_round_spec (val / max * 100)) as (k & Ek & K1 & K2).
    rewrite Ek. f_equal.
    pose proof (pow2_pos (-45)) as P.
    apply Math_round_unique.
    + destruct (Qlt_le_dec (val / max * 100) (inject_Z k - (1 # 2) + pow2 (-45)))
        as [Hlt|Hge].
      * exfalso. apply Hnt. exists (k + -1)%Z. rewrite inject_Z_plus.
        change (inject_Z (-1)) with (-1).
        revert K1 K2 Hlt P. generalize (inject_Z k) (val / max * 100) (pow2 (-45)).
        intros; lra.
      * revert E1 Hge. generalize (inject_Z k) (val / max * 100) (pow2 (-45))
          (fl (fl (val / max) * 100)). intros; lra.
    + destruct (Qlt_le_dec (inject_Z k + (1 # 2) - pow2 (-45)) (val / max * 100))
        as [Hlt|Hge].
      * exfalso. apply Hnt. exists k.
        revert K1 K2 Hlt P. generalize (inject_Z k) (val / max * 100) (pow2 (-45)).
        intros; lra.
      * revert E2 Hge. generalize (inject_Z k) (val / max * 100) (pow2 (-45))
          (fl (fl (val / max) * 100)). intros; lra.
Qed.

Lemma bar_pct_of_nonpositive (max val : Q) :
  max <= 0 -> bar_pct_of max val = 0.
Proof.
  intros H. unfold bar_pct_of. destruct (Qlt_le_dec 0 max) as [Hlt|_]; [|reflexivity].
  exfalso. apply (Qlt_not_le _ _ Hlt H).
Qed.

(** C9, as stated, fails: for the values 23 and 40 the quotient 23/40 and
    its product with 100 are each rounded to a double, which gives
    57.49999999999999 and a bar of 57 percent, where the formula over the
    real numbers gives 57.5 and 58. *)
Lemma BarChart_width_differs_from_exact_formula :
  BarChart rows_23_40 borough median_value
  = Some [ mkBar (Some "A") 57 23; mkBar (Some "B") 100 40 ] /\
  Qmax 4 (Math_round ((23 / 40) * 100)) = 58.
Proof. split; vm_compute; reflexivity. Qed.

(** When [value / max * 100] is a whole number the width is that number
    (or 4): 10 of 40 gives 25 percent. *)
Example bar_pct_of_10_40 :
  ~ near_tie (10 / 40 * 100) /\ bar_pct_of 40 10 = 25.
Proof.
  split; [apply (whole_not_near_tie _ 25); reflexivity|vm_compute; reflexivity].
Qed.

(** C9, amended: an empty collection renders nothing.  For a non-empty one,
    [max] is the largest bar value of the collection and there is one bar
    per row, in order; when [max > 0] each bar is
    [max(4, round(value / max * 100))] percent long with the quotient and
    then the product rounded to double precision; this is the value of the
    formula over the real numbers unless [value / max * 100] lies within
    [2^-45] of an integer plus a half, and it is exactly 100 percent for a
    row whose value is the maximum; when [max = 0] every bar is 0 percent
    long.  The division is only evaluated under [max > 0]. *)
Theorem BarChart_lengths (data : list Row) (labelKey : Row -> option string)
    (valueKey : Row -> option Q) :
  BarChart [] labelKey valueKey = None /\
  (data <> [] ->
   exists (max : Q) (bars : list Bar),
     BarChart data labelKey valueKey = Some bars /\
     length bars = length data /\
     (exists r, In r data /\ max = bar_value valueKey r) /\
     (forall r, In r data -> bar_value valueKey r <= max) /\
     (forall (i : nat) (row : Row), data !! i = Some row ->
        exists bar : Bar,
          bars !! i = Some bar /\
          bar_label bar = labelKey row /\
          bar_val bar = bar_value valueKey row /\
          (0 < max ->
             bar_pct bar
             = Qmax 4 (Math_round (fl (fl (bar_value valueKey row / max) * 100))) /\
             (~ near_tie (bar_value valueKey row / max * 100) ->
              bar_pct bar = Qmax 4 (Math_round (bar_value valueKey row / max * 100))) /\
             (bar_value valueKey row == max -> bar_pct bar = 100)) /\
          (max == 0 -> bar_pct bar = 0))).
Proof.
  split; [reflexivity|]. intros Hne.
  destruct (chart_max_spec valueKey data Hne) as (max & Hmax & Hatt & Hub).
  unfold BarChart. rewrite Hmax.
  eexists max, _. split; [reflexivity|].
  split; [apply length_map|]. split; [exact Hatt|]. split; [exact Hub|].
  intros i row Hi. eexists. split.
  - rewrite list_lookup_fmap, Hi. reflexivity.
  - cbn [bar_label bar_val bar_pct]. split; [reflexivity|]. split; [reflexivity|]. split.
    + intros Hpos. split; [apply bar_pct_of_positive, Hpos|]. split.
      * intros Hnt. apply bar_pct_of_exact; [exact Hpos| |exact Hnt].
        apply Hub. apply list_elem_of_In. eapply list_elem_of_lookup_2, Hi.
      * intros E. apply bar_pct_of_full; assumption.
    + intros E. apply bar_pct_of_nonpositive. rewrite E. apply Qle_refl.
Qed.

Lemma BarChart_lengths_witness :
  rows_bars <> [] /\
  exists (max : Q) (bars : list Bar),
    BarChart rows_bars borough median_value = Some bars /\
    length bars = length rows_bars /\
    (exists r, In r rows_bars /\ max = bar_value median_value r) /\
    (forall r, In r rows_bars -> bar_value median_value r <= max) /\
    (forall (i : nat) (row : Row), rows_bars !! i = Some row ->
       exists bar : Bar,
         bars !! i = Some bar /\
         bar_label bar = borough row /\
         bar_val bar = bar_value median_value row /\
         (0 < max ->
            bar_pct bar
            = Qmax 4 (Math_round (fl (fl (bar_value median_value row / max) * 100))) /\
            (~ near_tie (bar_value median_value row / max * 100) ->
             bar_pct bar = Qmax 4 (Math_round (bar_value median_value row / max * 100))) /\
            (bar_value median_value row == max -> bar_pct bar = 100)) /\
         (max == 0 -> bar_pct bar = 0)).
Proof.
  split; [discriminate|].
  apply (proj2 (BarChart_lengths rows_bars borough median_value)). discriminate.
Defined.

(** Values 1, 2 and a missing one: half, full, and the 4 percent floor. *)
Example BarChart_rows_bars :
  BarChart rows_bars borough median_value
  = Some [ mkBar (Some "A") 50 1; mkBar (Some "B") 100 2; mkBar (Some "C") 4 0 ].
Proof. vm_compute. reflexivity. Qed.

(** An all-zero collection: every bar is empty. *)
Example BarChart_all_zero :
  BarChart [ mkRow (Some "A") None None (Some 0) None;
             mkRow (Some "B") None None None None ] borough median_value
  = Some [ mkBar (Some "A") 0 0; mkBar (Some "B") 0 0 ].
Proof. reflexivity. Qed.

End BarChartFacts.

(** ** The animation slot *)

Section AnimatedFacts.
Import JS Animated.
Local Open Scope Q_scope.

Lemma positive_spec (v : option Q) : positive v = true <-> 0 < or_zero v.
Proof.
  unfold positive. destruct (Qle_bool (or_zero v) 0) eqn:E; cbn.
  - apply Qle_bool_iff in E. split; [discriminate|]. intros H. lra.
  - split; [intros _|reflexivity].
    destruct (Qlt_le_dec 0 (or_zero v)) as [?|Hle]; [assumption|].
    apply Qle_bool_iff in Hle. congruence.
Qed.

Lemma positive_false (v : option Q) : positive v = false <-> or_zero v <= 0.
Proof.
  unfold positive. destruct (Qle_bool (or_zero v) 0) eqn:E; cbn.
  - apply Qle_bool_iff in E. tauto.
  - split; [discriminate|]. intros H. apply Qle_bool_iff in H. congruence.
Qed.

Lemma same_value_or_zero (a b : option Q) :
  same_value a b = true -> or_zero a == or_zero b.
Proof.
  destruct a as [x|], b as [y|]; cbn [same_value]; try discriminate; [|reflexivity].
  intros E. apply Qeq_bool_iff in E. rewrite !or_zero_Some. exact E.
Qed.

Lemma mountSlot_tracks : slot_tracks mountSlot [].
Proof. repeat split; discriminate. Qed.

Lemma AnimatedNumber_from (value : option Q) (s : Slot) :
  from (fst (AnimatedNumber value s)) = (if hasAnimated s then previous s else 0) /\
  to (fst (AnimatedNumber value s)) = or_zero value.
Proof. split; reflexivity. Qed.

Lemma AnimatedNumber_tracks (value : option Q) (s : Slot) (past : list (option Q)) :
  slot_tracks s past -> slot_tracks (snd (AnimatedNumber value s)) (past ++ [value]).
Proof.
  intros (Hp & Hh & Hd). unfold slot_tracks.
  rewrite last_last, existsb_app. cbn [existsb]. rewrite orb_false_r.
  cbn [AnimatedNumber snd]. destruct (deps_changed s value) eqn:Ec.
  - cbn [effect previous hasAnimated lastDeps]. fold (positive value).
    split; [reflexivity|]. split.
    + rewrite <- Hh. destruct (hasAnimated s), (positive value); reflexivity.
    + intros v b [= <- <-]. split; [reflexivity|].
      intros Hf. apply positive_false.
      destruct (hasAnimated s), (positive value); cbn in Hf; congruence.
  - unfold deps_changed in Ec. destruct (lastDeps s) as [[v b]|] eqn:El; [|discriminate].
    apply negb_false_iff, andb_true_iff in Ec as [Esame Eb].
    destruct (Hd v b eq_refl) as [Hprev Hle].
    apply same_value_or_zero in Esame.
    split; [rewrite Hprev; exact Esame|]. split; [|exact Hd].
    rewrite <- Hh. destruct (hasAnimated s) eqn:Ea; [reflexivity|].
    symmetry. cbn. apply positive_false. rewrite <- Esame. apply Hle. reflexivity.
Qed.

Lemma renders_tracks (vs : list (option Q)) (s : Slot) (past : list (option Q)) :
  slot_tracks s past ->
  slot_tracks (snd (renders vs s)) (past ++ vs) /\
  length (fst (renders vs s)) = length vs /\
  (forall (i : nat) (v : option Q) (sp : Spring),
      vs !! i = Some v -> fst (renders vs s) !! i = Some sp ->
      to sp = or_zero v /\
      (existsb positive (past ++ take i vs) = false -> from sp = 0) /\
      (existsb positive (past ++ take i vs) = true ->
       from sp == or_zero (List.last (past ++ take i vs) None))).
Proof.
  revert s past. induction vs as [|v vs IH]; intros s past Hs.
  - cbn [renders snd fst]. rewrite app_nil_r. split; [exact Hs|]. split; [reflexivity|].
    intros i v sp Hi. destruct i; discriminate.
  - cbn [renders].
    pose proof (AnimatedNumber_tracks v s past Hs) as Hs1.
    pose proof (AnimatedNumber_from v s) as [Hfrom Hto].
    destruct (AnimatedNumber v s) as [sp1 s1]. cbn [fst snd] in *.
    destruct (IH s1 (past ++ [v]) Hs1) as (Hs2 & Hlen & Hsp).
    destruct (renders vs s1) as [sps s2]. cbn [fst snd] in *.
    rewrite <- app_assoc in Hs2. cbn [app] in Hs2.
    split; [exact Hs2|]. split; [cbn; rewrite Hlen; reflexivity|].
    intros [|i] w sp Hi Hspi; cbn in Hi, Hspi.
    + injection Hi as <-. injection Hspi as <-.
      rewrite take_0, app_nil_r. destruct Hs as (Hp & Hh & _).
      split; [exact Hto|]. rewrite Hfrom, Hh. split; intros ->; [reflexivity|exact Hp].
    + specialize (Hsp i w sp Hi Hspi).
      rewrite <- app_assoc in Hsp. exact Hsp.
Qed.

Lemma existsb_positive (vs : list (option Q)) :
  (forall v, In v vs -> 0 <= or_zero v) ->
  (existsb positive vs = true <-> exists w, In w vs /\ ~ or_zero w == 0) /\
  (existsb positive vs = false <-> forall w, In w vs -> or_zero w == 0).
Proof.
  intros Hnn. induction vs as [|v vs IH]; cbn [existsb].
  - split; split; try discriminate; try reflexivity.
    + intros (w & [] & _).
    + intros _ w [].
  - destruct IH as [IHt IHf]; [intros w Hw; apply Hnn; right; exact Hw|].
    pose proof (Hnn v (or_introl eq_refl)) as Hv.
    destruct (positive v) eqn:Ev; cbn [orb].
    + apply positive_spec in Ev. split; split; try discriminate; try reflexivity.
      * intros _. exists v. split; [left; reflexivity|]. intros E. lra.
      * intros H. specialize (H v (or_introl eq_refl)). lra.
    + apply positive_false in Ev. split.
      * rewrite IHt. split.
        -- intros (w & Hw & Hz). exists w. split; [right; exact Hw|exact Hz].
        -- intros (w & [<-|Hw] & Hz); [exfalso; apply Hz; lra|].
           exists w. split; assumption.
      * rewrite IHf. split.
        -- intros H w [<-|Hw]; [lra|apply H, Hw].
        -- intros H w Hw. apply H. right. exact Hw.
Qed.

Lemma last_take_lookup (vs : list (option Q)) (i : nat) (v : option Q) :
  vs !! i = Some v -> (0 < i)%nat ->
  exists u, vs !! (i - 1)%nat = Some u /\ List.last (take i vs) None = u.
Proof.
  intros Hi Hpos. destruct i as [|i]; [lia|].
  replace (S i - 1)%nat with i by lia.
  assert (Hlt : (i < length vs)%nat) by (apply lookup_lt_Some in Hi; lia).
  destruct (lookup_lt_is_Some_2 vs i Hlt) as [u Hu].
  exists u. split; [exact Hu|].
  rewrite (take_S_r vs i u Hu). apply last_last.
Qed.

Lemma existsb_positive_spec (vs : list (option Q)) :
  (existsb positive vs = true <-> exists w, In w vs /\ 0 < or_zero w) /\
  (existsb positive vs = false <-> forall w, In w vs -> or_zero w <= 0).
Proof.
  induction vs as [|v vs [IHt IHf]]; cbn [existsb].
  - split; split; try discriminate; try reflexivity.
    + intros (w & [] & _).
    + intros _ w [].
  - destruct (positive v) eqn:Ev; cbn [orb].
    + apply positive_spec in Ev. split; split; try discriminate; try reflexivity.
      * intros _. exists v. split; [left; reflexivity|exact Ev].
      * intros H. specialize (H v (or_introl eq_refl)). lra.
    + apply positive_false in Ev. split.
      * rewrite IHt. split.
        -- intros (w & Hw & Hz). exists w. split; [right; exact Hw|exact Hz].
        -- intros (w & [<-|Hw] & Hz); [exfalso; lra|].
           exists w. split; assumption.
      * rewrite IHf. split.
        -- intros H w [<-|Hw]; [exact Ev|apply H, Hw].
        -- intros H w Hw. apply H. right. exact Hw.
Qed.

(** C10, as stated, fails: the target -3 is nonzero, yet committing it does
    not mark the slot, because the effect tests [(value || 0) > 0]; the
    next target, 7, is therefore still animated from 0 and not from -3. *)
Lemma AnimatedNumber_negative_target_not_marked :
  ~ or_zero (Some (-3)) == 0 /\
  hasAnimated (snd (renders [Some (-3)] mountSlot)) = false /\
  fst (renders [Some (-3); Some 7] mountSlot) = [ mkSpring 0 (-3); mkSpring 0 7 ] /\
  hasAnimated (snd (renders [Some (-3); Some 7] mountSlot)) = true.
Proof.
  split; [intros H; vm_compute in H; discriminate|].
  split; [reflexivity|]. split; reflexivity.
Qed.

(** C10, amended: over any sequence of renders of a slot from mount, the
    slot is marked as having animated exactly when a target greater than 0
    has been committed (a negative target, although nonzero, does not mark
    it); a render before any target greater than 0 was committed (so also
    the one showing the first such target) asks the spring to start from 0;
    every render after that asks it to start from the target committed by
    the previous render, never from 0 again unless that target was 0. *)
Theorem AnimatedNumber_from_zero_until_positive (vs : list (option Q)) :
  (forall n : nat,
      hasAnimated (snd (renders (take n vs) mountSlot)) = true
      <-> exists w, In w (take n vs) /\ 0 < or_zero w) /\
  length (fst (renders vs mountSlot)) = length vs /\
  (forall (i : nat) (v : option Q) (sp : Spring),
      vs !! i = Some v -> fst (renders vs mountSlot) !! i = Some sp ->
      to sp = or_zero v /\
      ((forall w, In w (take i vs) -> or_zero w <= 0) -> from sp = 0) /\
      ((exists w, In w (take i vs) /\ 0 < or_zero w) ->
       exists u, (0 < i)%nat /\ vs !! (i - 1)%nat = Some u /\ from sp == or_zero u)).
Proof.
  split; [|split].
  - intros n.
    destruct (renders_tracks (take n vs) mountSlot [] mountSlot_tracks) as ((_ & Hh & _) & _).
    cbn [app] in Hh. rewrite Hh.
    apply (existsb_positive_spec (take n vs)).
  - apply (renders_tracks vs mountSlot [] mountSlot_tracks).
  - intros i v sp Hi Hsp.
    destruct (renders_tracks vs mountSlot [] mountSlot_tracks) as (_ & _ & H).
    destruct (H i v sp Hi Hsp) as (Hto & Hzero & Hprev). cbn [app] in Hzero, Hprev.
    destruct (existsb_positive_spec (take i vs)) as [Ht Hf].
    split; [exact Hto|]. split.
    + intros Hall. apply Hzero, Hf, Hall.
    + intros Hex. apply Ht in Hex. specialize (Hprev Hex).
      assert (Hpos : (0 < i)%nat).
      { destruct i; [|lia]. rewrite take_0 in Hex. discriminate. }
      destruct (last_take_lookup vs i v Hi Hpos) as (u & Hu & Hl).
      exists u. split; [exact Hpos|]. split; [exact Hu|]. rewrite <- Hl. exact Hprev.
Qed.

(** Targets -3, 7, 2: the slot is marked by 7 and not by -3, so 7 starts
    from 0 and 2 starts from 7. *)
Lemma AnimatedNumber_from_zero_until_positive_witness :
  fst (renders targets_m3_7_2 mountSlot)
  = [ mkSpring 0 (-3); mkSpring 0 7; mkSpring 7 2 ] /\
  (forall w, In w (take 1 targets_m3_7_2) -> or_zero w <= 0) /\
  from (mkSpring 0 7) = 0 /\
  (exists w, In w (take 2 targets_m3_7_2) /\ 0 < or_zero w) /\
  (exists u, (0 < 2)%nat /\ targets_m3_7_2 !! (2 - 1)%nat = Some u /\
             from (mkSpring 7 2) == or_zero u).
Proof.
  assert (Hs : fst (renders targets_m3_7_2 mountSlot)
               = [ mkSpring 0 (-3); mkSpring 0 7; mkSpring 7 2 ]) by reflexivity.
  assert (H1 : forall w, In w (take 1 targets_m3_7_2) -> or_zero w <= 0).
  { intros w [<-|[]]. discriminate. }
  assert (H2 : exists w, In w (take 2 targets_m3_7_2) /\ 0 < or_zero w).
  { exists (Some 7). split; [right; left; reflexivity|reflexivity]. }
  destruct (AnimatedNumber_from_zero_until_positive targets_m3_7_2) as (_ & _ & H).
  assert (L1 : fst (renders targets_m3_7_2 mountSlot) !! 1%nat = Some (mkSpring 0 7))
    by reflexivity.
  assert (L2 : fst (renders targets_m3_7_2 mountSlot) !! 2%nat = Some (mkSpring 7 2))
    by reflexivity.
  destruct (H 1%nat (Some 7) _ eq_refl L1) as (_ & Hz & _).
  destruct (H 2%nat (Some 2) _ eq_refl L2) as (_ & _ & Hp).
  split; [exact Hs|]. split; [exact H1|]. split; [exact (Hz H1)|].
  split; [exact H2|exact (Hp H2)].
Defined.

(** For a slot whose targets are non-negative (as every KPI value is when
    no row carries a negative number), over any sequence of renders from
    mount: the slot is marked as having animated exactly when a nonzero
    target has been committed; a render before any nonzero target was
    committed (so also the one showing the first nonzero target) asks the
    spring to start from 0; every render after that asks it to start from
    the target committed by the previous render. *)
Theorem AnimatedNumber_from_zero_once (vs : list (option Q)) :
  (forall v, In v vs -> 0 <= or_zero v) ->
  (forall n : nat,
      hasAnimated (snd (renders (take n vs) mountSlot)) = true
      <-> exists w, In w (take n vs) /\ ~ or_zero w == 0) /\
  length (fst (renders vs mountSlot)) = length vs /\
  (forall (i : nat) (v : option Q) (sp : Spring),
      vs !! i = Some v -> fst (renders vs mountSlot) !! i = Some sp ->
      to sp = or_zero v /\
      ((forall w, In w (take i vs) -> or_zero w == 0) -> from sp = 0) /\
      ((exists w, In w (take i vs) /\ ~ or_zero w == 0) ->
       exists u, (0 < i)%nat /\ vs !! (i - 1)%nat = Some u /\ from sp == or_zero u)).
Proof.
  intros Hnn.
  assert (Hprefix : forall n w, In w (take n vs) -> 0 <= or_zero w).
  { intros n w Hw. apply Hnn. apply list_elem_of_In. apply list_elem_of_In in Hw.
    exact (subseteq_take n vs w Hw). }
  split; [|split].
  - intros n.
    destruct (renders_tracks (take n vs) mountSlot [] mountSlot_tracks) as ((_ & Hh & _) & _).
    cbn [app] in Hh. rewrite Hh.
    apply (existsb_positive (take n vs) (Hprefix n)).
  - apply (renders_tracks vs mountSlot [] mountSlot_tracks).
  - intros i v sp Hi Hsp.
    destruct (renders_tracks vs mountSlot [] mountSlot_tracks) as (_ & _ & H).
    destruct (H i v sp Hi Hsp) as (Hto & Hzero & Hprev). cbn [app] in Hzero, Hprev.
    destruct (existsb_positive (take i vs) (Hprefix i)) as [Ht Hf].
    split; [exact Hto|]. split.
    + intros Hall. apply Hzero, Hf, Hall.
    + intros Hex. apply Ht in Hex. specialize (Hprev Hex).
      assert (Hpos : (0 < i)%nat).
      { destruct i; [|lia]. rewrite take_0 in Hex. discriminate. }
      destruct (last_take_lookup vs i v Hi Hpos) as (u & Hu & Hl).
      exists u. split; [exact Hpos|]. split; [exact Hu|]. rewrite <- Hl. exact Hprev.
Qed.

Lemma AnimatedNumber_from_zero_once_witness :
  (forall v, In v targets_0_5_5_8_0_3 -> 0 <= or_zero v) /\
  (forall n : nat,
      hasAnimated (snd (renders (take n targets_0_5_5_8_0_3) mountSlot)) = true
      <-> exists w, In w (take n targets_0_5_5_8_0_3) /\ ~ or_zero w == 0) /\
  length (fst (renders targets_0_5_5_8_0_3 mountSlot)) = length targets_0_5_5_8_0_3 /\
  (forall (i : nat) (v : option Q) (sp : Spring),
      targets_0_5_5_8_0_3 !! i = Some v ->
      fst (renders targets_0_5_5_8_0_3 mountSlot) !! i = Some sp ->
      to sp = or_zero v /\
      ((forall w, In w (take i targets_0_5_5_8_0_3) -> or_zero w == 0) -> from sp = 0) /\
      ((exists w, In w (take i targets_0_5_5_8_0_3) /\ ~ or_zero w == 0) ->
       exists u, (0 < i)%nat /\ targets_0_5_5_8_0_3 !! (i - 1)%nat = Some u /\
                 from sp == or_zero u)).
Proof.
  assert (Hnn : forall v, In v targets_0_5_5_8_0_3 -> 0 <= or_zero v).
  { intros v Hv. cbn in Hv.
    repeat (destruct Hv as [<-|Hv]; [vm_compute; discriminate|]). destruct Hv. }
  split; [exact Hnn|].
  apply (AnimatedNumber_from_zero_once targets_0_5_5_8_0_3 Hnn).
Defined.

(** Targets 0, 5, 5, 8, 0, 3: the first 5 starts from 0, later ones from the
    target before them. *)
Example AnimatedNumber_targets :
  fst (renders targets_0_5_5_8_0_3 mountSlot)
  = [ mkSpring 0 0; mkSpring 0 5; mkSpring 5 5; mkSpring 5 8; mkSpring 8 0; mkSpring 0 3 ].
Proof. reflexivity. Qed.

End AnimatedFacts.

(** ** The data-loading effect *)

Section CoordinatorFacts.
Import Metrics Coordinator.

(** [settle] on a request in flight, field by field. *)
Lemma settle_inflight (st : App) (id : nat) (c : Closure) (o : Outcome) :
  inflight st !! id = Some c ->
  settle id o st =
  (match o with
   | Rejected err => Throw err
   | Fulfilled _ => Normal tt
   end,
   mkApp
     (match o with
      | Fulfilled res =>
          if cancel c then salesData st
          else if String.eqb (eff_borough c) "All" then boroughs_or_empty res
               else salesData st
      | Rejected _ => salesData st
      end)
     (match o with
      | Fulfilled res =>
          if cancel c then neighborhoodData st
          else if String.eqb (eff_borough c) "All" then []
               else neighborhoods_or_empty res
      | Rejected _ => neighborhoodData st
      end)
     (months st) (selectedBorough st)
     (if cancel c then loadingNYC st else false)
     (delete id (inflight st)) (current st) (issued st)).
Proof.
  intros H. unfold settle. rewrite H.
  unfold load_resume, try_finally, bind, read_cancel, when, await, ret, throw.
  destruct st as [sd nd m b l fl cur n]. cbn in H.
  destruct c as [em eb [|]]; cbn [eff_borough cancel];
    destruct o as [res|err], (String.eqb eb "All"); cbn; rewrite ?H; cbn;
    rewrite ?H; reflexivity.
Qed.

Lemma settle_unknown (st : App) (id : nat) (o : Outcome) :
  inflight st !! id = None -> settle id o st = (Normal tt, st).
Proof. intros H. unfold settle. rewrite H. reflexivity. Qed.

Lemma mount_consistent : consistent mount.
Proof.
  split; cbn.
  - intros id c H. apply lookup_insert_Some in H as [[<- _]|[_ H]]; [lia|].
    rewrite lookup_empty in H. discriminate.
  - intros id c H. apply lookup_insert_Some in H as [[<- <-]|[_ H]]; [tauto|].
    rewrite lookup_empty in H. discriminate.
  - intros id [= <-]. reflexivity.
  - intros id c [= <-] H. rewrite lookup_insert_eq in H. injection H as <-. tauto.
Qed.

Lemma cleanup_fields (st : App) :
  salesData (cleanup st) = salesData st /\
  neighborhoodData (cleanup st) = neighborhoodData st /\
  months (cleanup st) = months st /\
  selectedBorough (cleanup st) = selectedBorough st /\
  loadingNYC (cleanup st) = loadingNYC st /\
  current (cleanup st) = None /\
  issued (cleanup st) = issued st.
Proof. unfold cleanup. destruct (current st) eqn:E; cbn; tauto. Qed.

Lemma cleanup_cancelled (st : App) (id : nat) (c : Closure) :
  consistent st -> inflight (cleanup st) !! id = Some c ->
  cancel c = true /\ id < issued st.
Proof.
  intros Hc H. unfold cleanup in H. destruct (current st) as [cur|] eqn:E; cbn in H.
  - destruct (decide (cur = id)) as [->|Hne].
    + rewrite lookup_alter_eq in H.
      destruct (inflight st !! id) as [c0|] eqn:E0; [|discriminate].
      cbn in H. injection H as <-. split; [reflexivity|].
      eapply cons_issued; eauto.
    + rewrite lookup_alter_ne in H by exact Hne. split.
      * pose proof (cons_cancel st Hc id c H) as Hiff.
        destruct (cancel c); [reflexivity|].
        destruct Hiff as [Hiff _]. specialize (Hiff eq_refl). congruence.
      * eapply cons_issued; eauto.
  - split.
    + pose proof (cons_cancel st Hc id c H) as Hiff.
      destruct (cancel c); [reflexivity|].
      destruct Hiff as [Hiff _]. specialize (Hiff eq_refl). congruence.
    + eapply cons_issued; eauto.
Qed.

(** A re-run keeps the invariant whatever the new selection is. *)
Lemma rerun_consistent (st : App) (m : Z) (b : string) :
  consistent st ->
  consistent (rerun (mkApp (salesData st) (neighborhoodData st) m b
                           (loadingNYC st) (inflight st) (current st) (issued st))).
Proof.
  intros Hc.
  set (st0 := mkApp (salesData st) (neighborhoodData st) m b
                    (loadingNYC st) (inflight st) (current st) (issued st)).
  assert (Hc0 : forall id c, inflight (cleanup st0) !! id = Some c ->
                             cancel c = true /\ id < issued st).
  { intros id c H.
    assert (Hst : inflight (cleanup st0) = inflight (cleanup st)).
    { unfold cleanup, st0. cbn. destruct (current st); reflexivity. }
    rewrite Hst in H. eapply cleanup_cancelled; eauto. }
  destruct (cleanup_fields st0) as (_ & _ & Hm & Hb & _ & _ & Hi).
  unfold rerun, run_effect, load_start, setLoadingNYC. cbn [snd].
  split; cbn [inflight issued current months selectedBorough].
  - intros id c H. rewrite Hi in *. cbn [issued st0] in *.
    apply lookup_insert_Some in H as [[<- _]|[_ H]]; [lia|].
    apply Hc0 in H. lia.
  - intros id c H. rewrite Hi in *. cbn [issued st0] in *.
    apply lookup_insert_Some in H as [[<- <-]|[Hne H]]; [tauto|].
    apply Hc0 in H as [-> _]. split; [discriminate|]. intros [= E]. congruence.
  - intros id [= <-]. reflexivity.
  - intros id c [= <-] H. rewrite lookup_insert_eq in H. injection H as <-.
    cbn. tauto.
Qed.

Lemma settle_consistent (st : App) (id : nat) (o : Outcome) :
  consistent st -> consistent (snd (settle id o st)).
Proof.
  intros Hc. destruct (inflight st !! id) as [c|] eqn:E.
  - rewrite (settle_inflight st id c o E). cbn [snd].
    split; cbn [inflight issued current months selectedBorough].
    + intros id' c' H. apply lookup_delete_Some in H as [_ H].
      eapply cons_issued; eauto.
    + intros id' c' H. apply lookup_delete_Some in H as [_ H].
      eapply cons_cancel; eauto.
    + apply (cons_latest st Hc).
    + intros id' c' Hcur H. apply lookup_delete_Some in H as [_ H].
      eapply cons_closure; eauto.
  - rewrite (settle_unknown st id o E). exact Hc.
Qed.

Lemma cleanup_consistent (st : App) : consistent st -> consistent (cleanup st).
Proof.
  intros Hc. destruct (cleanup_fields st) as (_ & _ & _ & _ & _ & Hcur & Hi).
  split; rewrite ?Hcur, ?Hi.
  - intros id c H. eapply cleanup_cancelled; eauto.
  - intros id c H. apply (cleanup_cancelled st id c Hc) in H as [-> _].
    split; discriminate.
  - discriminate.
  - discriminate.
Qed.

Lemma step_consistent (st : App) (ev : Event) :
  consistent st -> consistent (step st ev).
Proof.
  intros Hc. destruct ev as [m|b|id o|]; cbn [step].
  - destruct (current st) eqn:E; [|exact Hc].
    destruct (Z.eqb m (months st)); [exact Hc|].
    rewrite <- E. apply rerun_consistent, Hc.
  - destruct (current st) eqn:E; [|exact Hc].
    destruct (String.eqb b (selectedBorough st)); [exact Hc|].
    rewrite <- E. apply rerun_consistent, Hc.
  - apply settle_consistent, Hc.
  - apply cleanup_consistent, Hc.
Qed.

Lemma run_consistent (st : App) (evs : list Event) :
  consistent st -> consistent (run st evs).
Proof.
  revert st. induction evs as [|ev evs IH]; intros st Hc; [exact Hc|].
  cbn [run fold_left]. apply IH, step_consistent, Hc.
Qed.

Lemma reachable_consistent (evs : list Event) : consistent (run mount evs).
Proof. apply run_consistent, mount_consistent. Qed.

(** What a settling request never touches. *)
Lemma settle_frame (st : App) (id : nat) (o : Outcome) :
  months (snd (settle id o st)) = months st /\
  selectedBorough (snd (settle id o st)) = selectedBorough st /\
  current (snd (settle id o st)) = current st /\
  issued (snd (settle id o st)) = issued st /\
  (forall id', id' <> id -> inflight (snd (settle id o st)) !! id' = inflight st !! id').
Proof.
  destruct (inflight st !! id) as [c|] eqn:E.
  - rewrite (settle_inflight st id c o E). cbn. repeat split.
    intros id' Hne. apply lookup_delete_ne. congruence.
  - rewrite (settle_unknown st id o E). cbn. repeat split.
Qed.

(** A request that is not the registered run changes neither the rows nor
    the loading flag when it settles. *)
Lemma settle_stale (st : App) (id : nat) (o : Outcome) :
  consistent st -> current st <> Some id ->
  salesData (snd (settle id o st)) = salesData st /\
  neighborhoodData (snd (settle id o st)) = neighborhoodData st /\
  loadingNYC (snd (settle id o st)) = loadingNYC st.
Proof.
  intros Hc Hne. destruct (inflight st !! id) as [c|] eqn:E.
  - assert (Ecancel : cancel c = true).
    { pose proof (cons_cancel st Hc id c E) as [Hiff _].
      destruct (cancel c); [reflexivity|]. exfalso. apply Hne, Hiff. reflexivity. }
    rewrite (settle_inflight st id c o E). cbn. rewrite Ecancel.
    destruct o; repeat split.
  - rewrite (settle_unknown st id o E). repeat split.
Qed.

(** The registered run, settling while in flight. *)
Lemma settle_current (st : App) (id : nat) (c : Closure) (o : Outcome) :
  consistent st -> current st = Some id -> inflight st !! id = Some c ->
  settle id o st =
  (match o with
   | Rejected err => Throw err
   | Fulfilled _ => Normal tt
   end,
   mkApp
     (match o with
      | Fulfilled res => if isAll st then boroughs_or_empty res else salesData st
      | Rejected _ => salesData st
      end)
     (match o with
      | Fulfilled res => if isAll st then [] else neighborhoods_or_empty res
      | Rejected _ => neighborhoodData st
      end)
     (months st) (selectedBorough st) false
     (delete id (inflight st)) (current st) (issued st)).
Proof.
  intros Hc Hcur E. rewrite (settle_inflight st id c o E).
  assert (Ecancel : cancel c = false) by (apply (cons_cancel st Hc id c E), Hcur).
  destruct (cons_closure st Hc id c Hcur E) as [_ Eb].
  rewrite Ecancel, Eb. reflexivity.
Qed.

Lemma run_stale (ss : list (nat * Outcome)) (st : App) :
  consistent st ->
  (forall s, In s ss -> current st <> Some (fst s)) ->
  salesData (run st (map settle_event ss)) = salesData st /\
  neighborhoodData (run st (map settle_event ss)) = neighborhoodData st /\
  selectedBorough (run st (map settle_event ss)) = selectedBorough st /\
  loadingNYC (run st (map settle_event ss)) = loadingNYC st.
Proof.
  revert st. induction ss as [|[id o] ss IH]; intros st Hc Hall; [repeat split|].
  cbn [map run fold_left settle_event fst snd step].
  destruct (settle_stale st id o Hc (Hall (id, o) (or_introl eq_refl))) as (Hs & Hn & Hl).
  destruct (settle_frame st id o) as (_ & Hb & Hcur & _).
  destruct (IH (snd (settle id o st))) as (Hs' & Hn' & Hb' & Hl').
  - apply settle_consistent, Hc.
  - intros s Hs0. rewrite Hcur. apply Hall. right. exact Hs0.
  - unfold run in *. rewrite Hs', Hn', Hb', Hl'. repeat split; assumption.
Qed.

Lemma run_current_fulfilled (ss : list (nat * Outcome)) (st : App)
    (id : nat) (c : Closure) (res : option Body) :
  consistent st -> current st = Some id -> inflight st !! id = Some c ->
  NoDup (map fst ss) -> In (id, Fulfilled res) ss ->
  data (run st (map settle_event ss)) = response_rows st res.
Proof.
  revert st. induction ss as [|[id' o] ss IH]; intros st Hc Hcur E Hnd Hin; [destruct Hin|].
  apply NoDup_cons in Hnd as [Hfresh Hnd]. cbn [fst map] in Hfresh.
  cbn [map run fold_left settle_event fst snd step].
  destruct (decide (id' = id)) as [->|Hne].
  - assert (Ho : o = Fulfilled res).
    { destruct Hin as [[= ->]|Hin]; [reflexivity|].
      exfalso. apply Hfresh. apply list_elem_of_In.
      apply (in_map fst) in Hin. exact Hin. }
    subst o. pose proof (settle_current st id c (Fulfilled res) Hc Hcur E) as Hset.
    pose proof (settle_consistent st id (Fulfilled res) Hc) as Hc1.
    destruct (settle_frame st id (Fulfilled res)) as (_ & _ & Hcur1 & _).
    destruct (run_stale ss (snd (settle id (Fulfilled res) st)) Hc1) as (Hs & Hn & Hb & _).
    { intros s Hs0 Heq. rewrite Hcur1, Hcur in Heq. injection Heq as Heq.
      apply Hfresh. rewrite Heq. apply list_elem_of_In. apply in_map. exact Hs0. }
    unfold data, isAll, response_rows, isAll. unfold run in *. rewrite Hs, Hn, Hb.
    rewrite Hset. cbn. unfold isAll.
    destruct (String.eqb (selectedBorough st) "All"); reflexivity.
  - destruct (settle_frame st id' o) as (_ & Hb & Hcur1 & _ & Hfl).
    assert (Hin' : In (id, Fulfilled res) ss).
    { destruct Hin as [[= Heq _]|Hin]; [congruence|exact Hin]. }
    unfold run in IH. rewrite (IH (snd (settle id' o st))).
    + unfold response_rows, isAll. rewrite Hb. reflexivity.
    + apply settle_consistent, Hc.
    + rewrite Hcur1. exact Hcur.
    + rewrite Hfl by congruence. exact E.
    + exact Hnd.
    + exact Hin'.
Qed.

Lemma rerun_loading (st : App) : loadingNYC (rerun st) = true.
Proof. reflexivity. Qed.

(** C1: in every state reached from mount, a settling request changes the
    rows only if it is the run of the most recently issued selection (the
    registered, latest run, whose closure holds the current months and
    borough) and it was fulfilled; and once that run is fulfilled, the
    displayed rows are those of its response, in whatever order the requests
    in flight settle, each at most once. *)
Theorem last_selection_wins (evs : list Event) :
  (forall (id : nat) (o : Outcome),
      rows (step (run mount evs) (Settle id o)) <> rows (run mount evs) ->
      current (run mount evs) = Some id /\
      issued (run mount evs) = S id /\
      (exists res, o = Fulfilled res) /\
      exists c, inflight (run mount evs) !! id = Some c /\
                eff_months c = months (run mount evs) /\
                eff_borough c = selectedBorough (run mount evs)) /\
  (forall (id : nat) (c : Closure) (res : option Body) (ss : list (nat * Outcome)),
      current (run mount evs) = Some id ->
      inflight (run mount evs) !! id = Some c ->
      NoDup (map fst ss) ->
      In (id, Fulfilled res) ss ->
      data (run (run mount evs) (map settle_event ss))
      = response_rows (run mount evs) res).
Proof.
  pose proof (reachable_consistent evs) as Hc. set (st := run mount evs) in *.
  split.
  - intros id o Hchg. cbn [step] in Hchg.
    destruct (decide (current st = Some id)) as [Hcur|Hne].
    + destruct (inflight st !! id) as [c|] eqn:E.
      * split; [exact Hcur|]. split; [apply (cons_latest st Hc id Hcur)|]. split.
        -- destruct o as [res|err]; [eexists; reflexivity|].
           exfalso. apply Hchg.
           rewrite (settle_current st id c (Rejected err) Hc Hcur E). reflexivity.
        -- exists c. split; [reflexivity|]. apply (cons_closure st Hc id c Hcur E).
      * exfalso. apply Hchg. rewrite (settle_unknown st id o E). reflexivity.
    + exfalso. apply Hchg.
      destruct (settle_stale st id o Hc Hne) as (Hs & Hn & _).
      unfold rows. rewrite Hs, Hn. reflexivity.
  - intros id c res ss Hcur E Hnd Hin.
    apply (run_current_fulfilled ss st id c res Hc Hcur E Hnd Hin).
Qed.

Lemma last_selection_wins_witness :
  current (run mount W123) = Some 3 /\
  inflight (run mount W123) !! 3 = Some (mkClosure 3 "Brooklyn" false) /\
  NoDup (map fst W1_last) /\
  In (3, Fulfilled (response "W3")) W1_last /\
  data (run (run mount W123) (map settle_event W1_last))
  = response_rows (run mount W123) (response "W3").
Proof.
  assert (H1 : current (run mount W123) = Some 3) by reflexivity.
  assert (H2 : inflight (run mount W123) !! 3 = Some (mkClosure 3 "Brooklyn" false))
    by reflexivity.
  assert (H3 : NoDup (map fst W1_last)).
  { cbn. repeat (apply NoDup_cons; split; [intros Hin; repeat
      (apply elem_of_cons in Hin as [Hin|Hin]; [discriminate|]);
      apply elem_of_nil in Hin; exact Hin|]). apply NoDup_nil. exact I. }
  assert (H4 : In (3, Fulfilled (response "W3")) W1_last) by (right; left; reflexivity).
  repeat (split; [assumption|]).
  apply (proj2 (last_selection_wins W123) 3 _ (response "W3") W1_last H1 H2 H3 H4).
Defined.

(** With W1 settling last, the rows shown are W3's. *)
Example last_selection_wins_W3 :
  data (run (run mount W123) (map settle_event W1_last))
  = [mkRow None (Some "W3") (Some 1%Q) (Some 1%Q) None].
Proof. reflexivity. Qed.

(** C6, as stated, fails from all boroughs to one borough: after Brooklyn's
    response is applied the borough-level rows are still in [salesData]. *)
Lemma borough_rows_survive_scope_switch :
  isAll (run mount all_then_brooklyn) = false /\
  neighborhoodData (run mount all_then_brooklyn) = [neighborhood_row] /\
  salesData (run mount all_then_brooklyn) = [borough_row] /\
  salesData (run mount all_then_brooklyn) <> [].
Proof. repeat split. discriminate. Qed.

(** C6, amended: when the response of the current selection is applied, in
    all-boroughs scope the borough rows are replaced and the neighbourhood
    rows are cleared; in single-borough scope the neighbourhood rows are
    replaced and the borough rows stay as they were; in both scopes the
    displayed collection is exactly the rows of the new response. *)
Theorem scope_switch_rows (evs : list Event) (id : nat) (c : Closure) (res : option Body) :
  current (run mount evs) = Some id ->
  inflight (run mount evs) !! id = Some c ->
  (isAll (run mount evs) = true ->
   salesData (step (run mount evs) (Settle id (Fulfilled res))) = boroughs_or_empty res /\
   neighborhoodData (step (run mount evs) (Settle id (Fulfilled res))) = []) /\
  (isAll (run mount evs) = false ->
   neighborhoodData (step (run mount evs) (Settle id (Fulfilled res)))
   = neighborhoods_or_empty res /\
   salesData (step (run mount evs) (Settle id (Fulfilled res)))
   = salesData (run mount evs)) /\
  isAll (step (run mount evs) (Settle id (Fulfilled res))) = isAll (run mount evs) /\
  data (step (run mount evs) (Settle id (Fulfilled res)))
  = response_rows (run mount evs) res.
Proof.
  intros Hcur E. pose proof (reachable_consistent evs) as Hc.
  set (st := run mount evs) in *. cbn [step].
  rewrite (settle_current st id c (Fulfilled res) Hc Hcur E). cbn [snd].
  unfold data, response_rows, isAll. cbn [salesData neighborhoodData selectedBorough].
  fold (isAll st). repeat split; intros; destruct (isAll st); congruence.
Qed.

Lemma scope_switch_rows_witness :
  current (run mount all_loaded_brooklyn_selected) = Some 1 /\
  inflight (run mount all_loaded_brooklyn_selected) !! 1
  = Some (mkClosure 12 "Brooklyn" false) /\
  (isAll (run mount all_loaded_brooklyn_selected) = true ->
   salesData (step (run mount all_loaded_brooklyn_selected)
                   (Settle 1 (Fulfilled brooklyn_response)))
   = boroughs_or_empty brooklyn_response /\
   neighborhoodData (step (run mount all_loaded_brooklyn_selected)
                          (Settle 1 (Fulfilled brooklyn_response))) = []) /\
  (isAll (run mount all_loaded_brooklyn_selected) = false ->
   neighborhoodData (step (run mount all_loaded_brooklyn_selected)
                          (Settle 1 (Fulfilled brooklyn_response)))
   = neighborhoods_or_empty brooklyn_response /\
   salesData (step (run mount all_loaded_brooklyn_selected)
                   (Settle 1 (Fulfilled brooklyn_response)))
   = salesData (run mount all_loaded_brooklyn_selected)) /\
  isAll (step (run mount all_loaded_brooklyn_selected)
              (Settle 1 (Fulfilled brooklyn_response)))
  = isAll (run mount all_loaded_brooklyn_selected) /\
  data (step (run mount all_loaded_brooklyn_selected)
             (Settle 1 (Fulfilled brooklyn_response)))
  = response_rows (run mount all_loaded_brooklyn_selected) brooklyn_response.
Proof.
  assert (H1 : current (run mount all_loaded_brooklyn_selected) = Some 1) by reflexivity.
  assert (H2 : inflight (run mount all_loaded_brooklyn_selected) !! 1
               = Some (mkClosure 12 "Brooklyn" false)) by reflexivity.
  split; [exact H1|]. split; [exact H2|].
  exact (scope_switch_rows all_loaded_brooklyn_selected 1 _ brooklyn_response H1 H2).
Defined.

(** C7, as stated, fails: [load] has a [finally] block and no [catch], so a
    failure of the current request leaves [load] as a thrown error (a
    rejected promise nobody handles). *)
Lemma load_failure_not_caught :
  current mount = Some 0 /\
  fst (settle 0 (Rejected "Network Error") mount) = Throw "Network Error" /\
  fst (settle 0 (Rejected "Network Error") mount) <> Normal tt.
Proof. repeat split. discriminate. Qed.

(** C7, amended: when the current request fails, both row collections are
    left exactly as they were and the loading flag is cleared; the failure
    itself is not caught but propagates out of [load]. *)
Theorem load_failure (evs : list Event) (id : nat) (c : Closure) (err : string) :
  current (run mount evs) = Some id ->
  inflight (run mount evs) !! id = Some c ->
  salesData (step (run mount evs) (Settle id (Rejected err))) = salesData (run mount evs) /\
  neighborhoodData (step (run mount evs) (Settle id (Rejected err)))
  = neighborhoodData (run mount evs) /\
  loadingNYC (step (run mount evs) (Settle id (Rejected err))) = false /\
  fst (settle id (Rejected err) (run mount evs)) = Throw err.
Proof.
  intros Hcur E. pose proof (reachable_consistent evs) as Hc.
  set (st := run mount evs) in *. cbn [step].
  rewrite (settle_current st id c (Rejected err) Hc Hcur E). repeat split.
Qed.

Lemma load_failure_witness :
  current (run mount all_loaded_3_months_selected) = Some 1 /\
  inflight (run mount all_loaded_3_months_selected) !! 1 = Some (mkClosure 3 "All" false) /\
  salesData (step (run mount all_loaded_3_months_selected) (Settle 1 (Rejected "timeout")))
  = salesData (run mount all_loaded_3_months_selected) /\
  neighborhoodData (step (run mount all_loaded_3_months_selected)
                         (Settle 1 (Rejected "timeout")))
  = neighborhoodData (run mount all_loaded_3_months_selected) /\
  loadingNYC (step (run mount all_loaded_3_months_selected) (Settle 1 (Rejected "timeout")))
  = false /\
  fst (settle 1 (Rejected "timeout") (run mount all_loaded_3_months_selected))
  = Throw "timeout".
Proof.
  assert (H1 : current (run mount all_loaded_3_months_selected) = Some 1) by reflexivity.
  assert (H2 : inflight (run mount all_loaded_3_months_selected) !! 1
               = Some (mkClosure 3 "All" false)) by reflexivity.
  split; [exact H1|]. split; [exact H2|].
  exact (load_failure all_loaded_3_months_selected 1 _ "timeout" H1 H2).
Defined.

(** C8: in every state reached from mount, a change of months or of borough
    raises the loading flag at once; the flag goes from raised to lowered
    only when the registered run, still in flight, settles; a request of any
    other run leaves the flag as it is when it settles; and the registered
    run lowers it when it settles, fulfilled or rejected. *)
Theorem loading_flag (evs : list Event) :
  (forall m : Z, current (run mount evs) <> None -> m <> months (run mount evs) ->
                 loadingNYC (step (run mount evs) (SetMonths m)) = true) /\
  (forall b : string, current (run mount evs) <> None ->
                      b <> selectedBorough (run mount evs) ->
                      loadingNYC (step (run mount evs) (SetBorough b)) = true) /\
  (forall ev : Event,
      loadingNYC (run mount evs) = true ->
      loadingNYC (step (run mount evs) ev) = false ->
      exists id o, ev = Settle id o /\ current (run mount evs) = Some id /\
                   is_Some (inflight (run mount evs) !! id)) /\
  (forall (id : nat) (o : Outcome),
      current (run mount evs) <> Some id ->
      loadingNYC (step (run mount evs) (Settle id o)) = loadingNYC (run mount evs)) /\
  (forall (id : nat) (o : Outcome),
      current (run mount evs) = Some id ->
      is_Some (inflight (run mount evs) !! id) ->
      loadingNYC (step (run mount evs) (Settle id o)) = false).
Proof.
  pose proof (reachable_consistent evs) as Hc. set (st := run mount evs) in *.
  split; [|split; [|split; [|split]]].
  - intros m Hm Hne. cbn [step]. destruct (current st); [|congruence].
    destruct (Z.eqb_spec m (months st)); [congruence|]. apply rerun_loading.
  - intros b Hm Hne. cbn [step]. destruct (current st); [|congruence].
    destruct (String.eqb_spec b (selectedBorough st)); [congruence|]. apply rerun_loading.
  - intros ev Hup Hdown. destruct ev as [m|b|id o|]; cbn [step] in Hdown.
    + destruct (current st); [|congruence].
      destruct (Z.eqb m (months st)); [congruence|].
      rewrite rerun_loading in Hdown. discriminate.
    + destruct (current st); [|congruence].
      destruct (String.eqb b (selectedBorough st)); [congruence|].
      rewrite rerun_loading in Hdown. discriminate.
    + exists id, o. split; [reflexivity|].
      destruct (decide (current st = Some id)) as [Hcur|Hne].
      * split; [exact Hcur|].
        destruct (inflight st !! id) as [c|] eqn:E; [eexists; reflexivity|].
        rewrite (settle_unknown st id o E) in Hdown. cbn in Hdown. congruence.
      * destruct (settle_stale st id o Hc Hne) as (_ & _ & Hl). congruence.
    + destruct (cleanup_fields st) as (_ & _ & _ & _ & Hl & _). congruence.
  - intros id o Hne. cbn [step]. apply (settle_stale st id o Hc Hne).
  - intros id o Hcur [c E]. cbn [step].
    rewrite (settle_current st id c o Hc Hcur E). reflexivity.
Qed.

(** With W1, W2, W3 issued and nothing settled yet: the flag is up, the
    stale W1 leaves it up, W3 brings it down. *)
Lemma loading_flag_witness :
  current (run mount W123) <> Some 1 /\
  loadingNYC (step (run mount W123) (Settle 1 (Fulfilled (response "W1"))))
  = loadingNYC (run mount W123) /\
  current (run mount W123) = Some 3 /\
  is_Some (inflight (run mount W123) !! 3) /\
  loadingNYC (step (run mount W123) (Settle 3 (Rejected "timeout"))) = false.
Proof.
  assert (H1 : current (run mount W123) <> Some 1) by discriminate.
  assert (H2 : current (run mount W123) = Some 3) by reflexivity.
  assert (H3 : is_Some (inflight (run mount W123) !! 3)) by (eexists; reflexivity).
  destruct (loading_flag W123) as (_ & _ & _ & Hstale & Hcur).
  split; [exact H1|]. split; [apply (Hstale 1 _ H1)|].
  split; [exact H2|]. split; [exact H3|]. apply (Hcur 3 _ H2 H3).
Defined.

End CoordinatorFacts.

(** * Further properties of the code *)

(** ** The KPI values *)

Section KpiValueFacts.
Import JS Metrics View.
Local Open Scope Q_scope.

Lemma Qsum_perm (l l' : list Q) : Permutation l l' -> Qsum l == Qsum l'.
Proof.
  induction 1 as [|x l l' _ IH|x y l|l l' l'' _ IH1 _ IH2].
  - reflexivity.
  - rewrite !Qsum_cons, IH. reflexivity.
  - rewrite !Qsum_cons. generalize (Qsum l). intros q. lra.
  - rewrite IH1. exact IH2.
Qed.

Lemma Qsum_ge_elem (l : list Q) (y : Q) :
  (forall x, In x l -> 0 <= x) -> In y l -> y <= Qsum l.
Proof.
  induction l as [|x l IH]; intros H Hy; [destruct Hy|].
  rewrite Qsum_cons.
  pose proof (H x (or_introl eq_refl)) as Hx.
  assert (Hl : 0 <= Qsum l) by (apply Qsum_nonneg; intros z Hz; apply H; right; exact Hz).
  destruct Hy as [<-|Hy].
  - generalize dependent (Qsum l). intros; lra.
  - assert (y <= Qsum l) by (apply IH; [intros z Hz; apply H; right; exact Hz|exact Hy]).
    generalize dependent (Qsum l). intros; lra.
Qed.

Lemma Qsum_le_bound (l : list Q) (m : Q) :
  (forall x, In x l -> x <= m) -> Qsum l <= length_of l * m.
Proof.
  unfold length_of. induction l as [|x l IH]; intros H.
  - change (0 <= 0 * m). lra.
  - rewrite Qsum_cons. cbn [length]. rewrite Nat2Z.inj_succ, <- Z.add_1_r, inject_Z_plus.
    pose proof (H x (or_introl eq_refl)) as Hx.
    assert (Hl : Qsum l <= inject_Z (Z.of_nat (length l)) * m)
      by (apply IH; intros z Hz; apply H; right; exact Hz).
    change (inject_Z 1) with 1.
    generalize dependent (Qsum l). generalize (inject_Z (Z.of_nat (length l))).
    intros; nra.
Qed.

Lemma length_of_pos {A} (l : list A) : l <> [] -> 0 < length_of l.
Proof.
  intros H. destruct l as [|x l]; [congruence|].
  unfold length_of. change 0 with (inject_Z 0). rewrite <- Zlt_Qlt. cbn [length]. lia.
Qed.

Lemma or_zero_nonneg (v : option Q) : (forall x, v = Some x -> 0 <= x) -> 0 <= or_zero v.
Proof.
  intros H. destruct v as [x|]; [|apply Qle_refl].
  rewrite or_zero_Some. apply H. reflexivity.
Qed.

Lemma kpis_totalSales_double (data : list Row) (isAll : bool) :
  totalSales (kpis data isAll) = double_sum (map count_key data).
Proof.
  destruct data as [|r data]; [reflexivity|].
  cbn [kpis totalSales]. unfold count_key. rewrite <- reduce_double_sum. reflexivity.
Qed.

(** For whole-number counts whose sum is at most 2^53 the total is exact. *)
Lemma kpis_totalSales_eq (data : list Row) (isAll : bool) :
  (forall r, In r data -> whole (count_key r)) ->
  Qsum (map count_key data) <= inject_Z (2 ^ 53) ->
  totalSales (kpis data isAll) == Qsum (map count_key data).
Proof.
  intros Hw Hb. rewrite kpis_totalSales_double. apply double_sum_whole; [|exact Hb].
  intros x Hx. apply in_map_iff in Hx as (r & <- & Hr). apply Hw, Hr.
Qed.

Lemma whole_rows_permutation (key : Row -> Q) (data data' : list Row) :
  Permutation data data' ->
  (forall r, In r data -> whole (key r)) -> forall r, In r data' -> whole (key r).
Proof.
  intros Hp Hw r Hr. apply Hw. eapply Permutation_in; [symmetry; exact Hp|exact Hr].
Qed.

(** Both top entries, as rows of the collection with the largest key. *)
Lemma kpis_top_keys (data : list Row) (isAll : bool) :
  data <> [] ->
  exists rv rc : Row,
    In rv data /\ In rc data /\
    (forall r, In r data -> median_key r <= median_key rv) /\
    (forall r, In r data -> count_key r <= count_key rc) /\
    head (Array_sort byMedian data) = Some rv /\
    head (Array_sort byCount data) = Some rc /\
    topValue (kpis data isAll) = median_key rv /\
    topVolumeCount (kpis data isAll) = count_key rc.
Proof.
  intros Hne.
  destruct (Array_sort_head median_key data Hne) as (i & rv & Hh & Hi & Hmax & _).
  destruct (Array_sort_head count_key data Hne) as (j & rc & Hh' & Hj & Hmax' & _).
  change (descending_by median_key) with byMedian in Hh.
  change (descending_by count_key) with byCount in Hh'.
  exists rv, rc.
  split; [apply list_elem_of_In, list_elem_of_lookup; eauto|].
  split; [apply list_elem_of_In, list_elem_of_lookup; eauto|].
  split.
  { intros r Hr. apply list_elem_of_In, list_elem_of_lookup in Hr as [k Hk]. eauto. }
  split.
  { intros r Hr. apply list_elem_of_In, list_elem_of_lookup in Hr as [k Hk]. eauto. }
  split; [exact Hh|]. split; [exact Hh'|].
  destruct data as [|r0 data]; [congruence|].
  cbn [kpis topValue topVolumeCount]. rewrite Hh, Hh'. split; reflexivity.
Qed.

(** When the counts are non-negative whole numbers whose sum is at most
    2^53, the total is exactly the sum of the counts that are present: a row
    without a count adds nothing. *)
Theorem kpis_totalSales_sum (data : list Row) (isAll : bool) :
  (forall r, In r data -> whole (count_key r)) ->
  Qsum (map count_key data) <= inject_Z (2 ^ 53) ->
  totalSales (kpis data isAll) == Qsum (omap count data).
Proof.
  intros Hw Hb. rewrite (kpis_totalSales_eq data isAll Hw Hb).
  unfold count_key. apply Qsum_or_zero.
Qed.

Lemma rows_A_B_whole :
  (forall r, In r rows_A_B -> whole (count_key r)) /\
  Qsum (map count_key rows_A_B) <= inject_Z (2 ^ 53) /\
  (forall r, In r rows_A_B -> whole (median_key r)) /\
  Qsum (map median_key rows_A_B) < inject_Z (2 ^ 51).
Proof.
  split; [|split; [discriminate|split; [|reflexivity]]].
  - intros r [<-|[<-|[]]]; [exists 10%Z|exists 30%Z]; split; try lia; reflexivity.
  - intros r [<-|[<-|[]]]; exists 500000%Z; split; try lia; reflexivity.
Defined.

Lemma kpis_totalSales_sum_witness :
  (forall r, In r rows_A_B -> whole (count_key r)) /\
  Qsum (map count_key rows_A_B) <= inject_Z (2 ^ 53) /\
  totalSales (kpis rows_A_B true) == Qsum (omap count rows_A_B).
Proof.
  destruct rows_A_B_whole as (H1 & H2 & _).
  split; [exact H1|]. split; [exact H2|]. exact (kpis_totalSales_sum rows_A_B true H1 H2).
Defined.

(** The two top values of the summary do not depend on the order of the
    rows nor on the scope flag; neither does the total when the counts are
    non-negative whole numbers with sum at most 2^53, nor the median when
    the medians are non-negative whole numbers with sum below 2^51. *)
Theorem kpis_values_permutation (data data' : list Row) (isAll isAll' : bool) :
  Permutation data data' ->
  topValue (kpis data isAll) == topValue (kpis data' isAll') /\
  topVolumeCount (kpis data isAll) == topVolumeCount (kpis data' isAll') /\
  ((forall r, In r data -> whole (count_key r)) ->
   Qsum (map count_key data) <= inject_Z (2 ^ 53) ->
   totalSales (kpis data isAll) == totalSales (kpis data' isAll')) /\
  ((forall r, In r data -> whole (median_key r)) ->
   Qsum (map median_key data) < inject_Z (2 ^ 51) ->
   median (kpis data isAll) = median (kpis data' isAll')).
Proof.
  intros Hp. destruct data as [|r data].
  { apply Permutation_nil in Hp. subst data'. repeat split; reflexivity. }
  assert (Hne : r :: data <> []) by discriminate.
  assert (Hne' : data' <> []).
  { intros ->. apply Permutation_sym, Permutation_nil in Hp. discriminate. }
  set (d := r :: data) in *. clearbody d.
  assert (Htop : topValue (kpis d isAll) == topValue (kpis data' isAll') /\
                 topVolumeCount (kpis d isAll) == topVolumeCount (kpis data' isAll')).
  { destruct (kpis_top_keys d isAll Hne)
      as (rv & rc & Hv & Hc & Hvmax & Hcmax & _ & _ & -> & ->).
    destruct (kpis_top_keys data' isAll' Hne')
      as (rv' & rc' & Hv' & Hc' & Hvmax' & Hcmax' & _ & _ & -> & ->).
    split; apply Qle_antisym.
    + apply Hvmax'. eapply Permutation_in; eauto.
    + apply Hvmax. eapply Permutation_in; [symmetry|]; eauto.
    + apply Hcmax'. eapply Permutation_in; eauto.
    + apply Hcmax. eapply Permutation_in; [symmetry|]; eauto. }
  destruct Htop as [Htv Htc].
  split; [exact Htv|]. split; [exact Htc|]. split.
  - intros Hw Hb.
    assert (Es : Qsum (map count_key d) == Qsum (map count_key data'))
      by (apply Qsum_perm, Permutation_map, Hp).
    rewrite (kpis_totalSales_eq d isAll Hw Hb).
    rewrite (kpis_totalSales_eq data' isAll'); [exact Es| |rewrite <- Es; exact Hb].
    apply (whole_rows_permutation count_key d data' Hp Hw).
  - intros Hw Hb.
    assert (Es : Qsum (map median_key d) == Qsum (map median_key data'))
      by (apply Qsum_perm, Permutation_map, Hp).
    rewrite (kpis_median_eq d isAll Hne Hw Hb).
    rewrite (kpis_median_eq data' isAll' Hne');
      [|apply (whole_rows_permutation median_key d data' Hp Hw)|rewrite <- Es; exact Hb].
    apply Math_round_comp. rewrite !mean_of_medians_eq.
    unfold length_of. rewrite (Permutation_length Hp).
    apply Qdiv_comp; [exact Es|reflexivity].
Qed.

Lemma kpis_values_permutation_witness :
  Permutation rows_A_B (rev rows_A_B) /\
  topValue (kpis rows_A_B true) == topValue (kpis (rev rows_A_B) false) /\
  topVolumeCount (kpis rows_A_B true) == topVolumeCount (kpis (rev rows_A_B) false) /\
  totalSales (kpis rows_A_B true) == totalSales (kpis (rev rows_A_B) false) /\
  median (kpis rows_A_B true) = median (kpis (rev rows_A_B) false).
Proof.
  assert (H : Permutation rows_A_B (rev rows_A_B)) by apply Permutation_rev.
  destruct rows_A_B_whole as (H1 & H2 & H3 & H4).
  destruct (kpis_values_permutation rows_A_B (rev rows_A_B) true false H)
    as (G1 & G2 & G3 & G4).
  split; [exact H|]. split; [exact G1|]. split; [exact G2|].
  split; [exact (G3 H1 H2)|exact (G4 H3 H4)].
Defined.

(** On a non-empty collection: when the counts are non-negative doubles,
    the top count is at most the total; and when the medians are
    non-negative whole numbers with sum below 2^51, the mean of the medians
    is at most the top median, so the rounded figure shown exceeds it by at
    most a half. *)
Theorem kpis_values_consistent (data : list Row) (isAll : bool) :
  data <> [] ->
  ((forall r, In r data -> 0 <= count_key r /\ is_double (count_key r)) ->
   topVolumeCount (kpis data isAll) <= totalSales (kpis data isAll)) /\
  ((forall r, In r data -> whole (median_key r)) ->
   Qsum (map median_key data) < inject_Z (2 ^ 51) ->
   mean_of_medians data <= topValue (kpis data isAll) /\
   median (kpis data isAll) <= topValue (kpis data isAll) + (1 # 2)).
Proof.
  intros Hne.
  destruct (kpis_top_keys data isAll Hne)
    as (rv & rc & Hv & Hc & Hvmax & Hcmax & _ & _ & Etv & Etc).
  split.
  - intros Hd. rewrite Etc, kpis_totalSales_double. apply double_sum_ge_elem.
    + intros x Hx. apply in_map_iff in Hx as (r & <- & Hr). apply Hd, Hr.
    + apply in_map, Hc.
  - intros Hw Hb.
    assert (Hmean : mean_of_medians data <= topValue (kpis data isAll)).
    { rewrite mean_of_medians_eq, Etv. apply Qle_shift_div_r.
      - apply length_of_pos, Hne.
      - rewrite Qmult_comm.
        replace (length_of data) with (length_of (map median_key data))
          by (unfold length_of; rewrite length_map; reflexivity).
        apply Qsum_le_bound.
        intros x Hx. apply in_map_iff in Hx as (r & <- & Hr). apply Hvmax, Hr. }
    split; [exact Hmean|].
    rewrite (kpis_median_eq data isAll Hne Hw Hb).
    destruct (Math_round_spec (mean_of_medians data)) as (z & -> & _ & Hz).
    revert Hz Hmean.
    generalize (inject_Z z) (mean_of_medians data) (topValue (kpis data isAll)).
    intros; lra.
Qed.

Lemma kpis_values_consistent_witness :
  rows_A_B <> [] /\
  (forall r, In r rows_A_B -> 0 <= count_key r /\ is_double (count_key r)) /\
  topVolumeCount (kpis rows_A_B true) <= totalSales (kpis rows_A_B true) /\
  mean_of_medians rows_A_B <= topValue (kpis rows_A_B true) /\
  median (kpis rows_A_B true) <= topValue (kpis rows_A_B true) + (1 # 2).
Proof.
  assert (Hne : rows_A_B <> []) by discriminate.
  assert (Hd : forall r, In r rows_A_B -> 0 <= count_key r /\ is_double (count_key r)).
  { intros r [<-|[<-|[]]]; split; try discriminate; vm_compute; reflexivity. }
  destruct rows_A_B_whole as (_ & _ & H3 & H4).
  destruct (kpis_values_consistent rows_A_B true Hne) as [G1 G2].
  split; [exact Hne|]. split; [exact Hd|]. split; [exact (G1 Hd)|exact (G2 H3 H4)].
Defined.

(** When no row carries a negative count or median, none of the four values
    handed to the animated slots is negative. *)
Theorem kpi_targets_nonneg (data : list Row) (isAll : bool) :
  (forall r x, In r data -> count r = Some x -> 0 <= x) ->
  (forall r x, In r data -> median_value r = Some x -> 0 <= x) ->
  forall v, In v (kpi_targets (kpis data isAll)) -> 0 <= or_zero v.
Proof.
  intros Hc Hm.
  assert (Hck : forall r, In r data -> 0 <= count_key r).
  { intros r Hr. apply or_zero_nonneg. intros x. apply Hc, Hr. }
  assert (Hmk : forall r, In r data -> 0 <= median_key r).
  { intros r Hr. apply or_zero_nonneg. intros x. apply Hm, Hr. }
  assert (Hall : 0 <= totalSales (kpis data isAll) /\ 0 <= median (kpis data isAll) /\
                 0 <= topValue (kpis data isAll) /\ 0 <= topVolumeCount (kpis data isAll)).
  { destruct data as [|r0 data0] eqn:Ed; [cbn; repeat split; apply Qle_refl|].
    rewrite <- Ed in *. assert (Hne : data <> []) by (rewrite Ed; discriminate).
    clear Ed. destruct (kpis_top_keys data isAll Hne)
      as (rv & rc & Hv & Hcin & _ & _ & _ & _ & -> & ->).
    split; [|split; [|split]].
    - rewrite kpis_totalSales_double. apply double_fold_nonneg; [apply Qle_refl|].
      intros x Hx. apply in_map_iff in Hx as (r & <- & Hr). apply Hck, Hr.
    - rewrite (kpis_median_double data isAll Hne).
      change 0 with (inject_Z 0). rewrite <- (Math_round_integer 0).
      apply Math_round_mono. change (inject_Z 0) with 0.
      apply fl_nonneg. apply Qle_shift_div_l; [apply length_of_pos, Hne|].
      rewrite Qmult_0_l. apply double_fold_nonneg; [apply Qle_refl|].
      intros x Hx. apply in_map_iff in Hx as (r & <- & Hr). apply Hmk, Hr.
    - apply Hmk, Hv.
    - apply Hck, Hcin. }
  destruct Hall as (H1 & H2 & H3 & H4).
  intros v Hv. cbn in Hv.
  destruct Hv as [<-|[<-|[<-|[<-|[]]]]]; rewrite or_zero_Some; assumption.
Qed.

Lemma kpi_targets_nonneg_witness :
  (forall r x, In r rows_A_B -> count r = Some x -> 0 <= x) /\
  (forall r x, In r rows_A_B -> median_value r = Some x -> 0 <= x) /\
  forall v, In v (kpi_targets (kpis rows_A_B true)) -> 0 <= or_zero v.
Proof.
  assert (H1 : forall r x, In r rows_A_B -> count r = Some x -> 0 <= x).
  { intros r x [<-|[<-|[]]] [= <-]; discriminate. }
  assert (H2 : forall r x, In r rows_A_B -> median_value r = Some x -> 0 <= x).
  { intros r x [<-|[<-|[]]] [= <-]; discriminate. }
  split; [exact H1|]. split; [exact H2|].
  exact (kpi_targets_nonneg rows_A_B true H1 H2).
Defined.

End KpiValueFacts.

(** ** The bars *)

Section BarFacts.
Import JS Metrics Chart.
Local Open Scope Q_scope.

Lemma bar_pct_of_bounds (max val : Q) :
  val <= max ->
  0 <= bar_pct_of max val <= 100 /\ (0 < max -> 4 <= bar_pct_of max val).
Proof.
  intros Hle. destruct (Qlt_le_dec 0 max) as [Hpos|Hnp].
  - rewrite (bar_pct_of_positive max val Hpos).
    set (r := Math_round (fl (fl (val / max) * 100))).
    assert (Hr : r <= 100).
    { unfold r. change 100 with (inject_Z 100) at 2.
      rewrite <- (Math_round_integer 100). apply Math_round_mono.
      apply fl_le_Z; [lia|]. change (inject_Z 100) with 100.
      assert (H1 : fl (val / max) <= 1).
      { apply (fl_le_Z _ 1); [lia|]. change (inject_Z 1) with 1.
        apply Qle_shift_div_r; [exact Hpos|]. rewrite Qmult_1_l. exact Hle. }
      revert H1. generalize (fl (val / max)). intros; lra. }
    pose proof (Q.le_max_l 4 r) as H4.
    assert (H100 : Qmax 4 r <= 100) by (apply Q.max_lub; [discriminate|exact Hr]).
    clearbody r. revert H4 H100. generalize (Qmax 4 r). intros. split; [lra|intros _; lra].
  - rewrite (bar_pct_of_nonpositive max val Hnp). split; [split; discriminate|].
    intros Hpos. exfalso. apply (Qlt_not_le _ _ Hpos Hnp).
Qed.

Lemma bar_pct_of_mono (max v1 v2 : Q) :
  v1 <= v2 -> bar_pct_of max v1 <= bar_pct_of max v2.
Proof.
  intros Hle. destruct (Qlt_le_dec 0 max) as [Hpos|Hnp].
  - rewrite !(bar_pct_of_positive max _ Hpos).
    apply Q.max_le_compat_l. apply Math_round_mono. apply fl_mono.
    apply Qmult_le_compat_r; [|discriminate]. apply fl_mono.
    unfold Qdiv. apply Qmult_le_compat_r; [exact Hle|].
    apply Qlt_le_weak, Qinv_lt_0_compat, Hpos.
  - rewrite !(bar_pct_of_nonpositive max _ Hnp). apply Qle_refl.
Qed.

(** What [BarChart] returns when it returns bars. *)
Lemma BarChart_Some (data : list Row) (labelKey : Row -> option string)
    (valueKey : Row -> option Q) (bars : list Bar) :
  BarChart data labelKey valueKey = Some bars ->
  exists max : Q,
    data <> [] /\
    chart_max valueKey data = Some max /\
    (forall r, In r data -> bar_value valueKey r <= max) /\
    bars = map (fun row => mkBar (labelKey row) (bar_pct_of max (bar_value valueKey row))
                                 (bar_value valueKey row)) data.
Proof.
  intros H. destruct data as [|d data]; [discriminate|].
  destruct (chart_max_spec valueKey (d :: data)) as (max & Hmax & _ & Hub); [discriminate|].
  exists max. split; [discriminate|]. split; [exact Hmax|]. split; [exact Hub|].
  unfold BarChart in H. rewrite Hmax in H. injection H as <-. reflexivity.
Qed.

(** No bar is longer than its track: every width is between 0 and 100
    percent, and within one chart either all widths are 0 (no positive
    value) or all are at least 4. *)
Theorem BarChart_pct_bounds (data : list Row) (labelKey : Row -> option string)
    (valueKey : Row -> option Q) (bars : list Bar) :
  BarChart data labelKey valueKey = Some bars ->
  (forall bar, In bar bars -> 0 <= bar_pct bar <= 100) /\
  ((forall bar, In bar bars -> bar_pct bar = 0) \/
   (forall bar, In bar bars -> 4 <= bar_pct bar)).
Proof.
  intros H. destruct (BarChart_Some _ _ _ _ H) as (max & _ & _ & Hub & ->).
  split.
  - intros bar Hb. apply in_map_iff in Hb as (row & <- & Hr). cbn [bar_pct].
    apply bar_pct_of_bounds, Hub, Hr.
  - destruct (Qlt_le_dec 0 max) as [Hpos|Hnp]; [right|left];
      intros bar Hb; apply in_map_iff in Hb as (row & <- & Hr); cbn [bar_pct].
    + apply bar_pct_of_bounds; [apply Hub, Hr|exact Hpos].
    + apply bar_pct_of_nonpositive, Hnp.
Qed.

Lemma BarChart_pct_bounds_witness :
  BarChart rows_bars borough median_value
  = Some [ mkBar (Some "A") 50 1; mkBar (Some "B") 100 2; mkBar (Some "C") 4 0 ] /\
  (forall bar, In bar [ mkBar (Some "A") 50 1; mkBar (Some "B") 100 2; mkBar (Some "C") 4 0 ] ->
               0 <= bar_pct bar <= 100) /\
  ((forall bar, In bar [ mkBar (Some "A") 50 1; mkBar (Some "B") 100 2; mkBar (Some "C") 4 0 ] ->
                bar_pct bar = 0) \/
   (forall bar, In bar [ mkBar (Some "A") 50 1; mkBar (Some "B") 100 2; mkBar (Some "C") 4 0 ] ->
                4 <= bar_pct bar)).
Proof.
  assert (H : BarChart rows_bars borough median_value
              = Some [ mkBar (Some "A") 50 1; mkBar (Some "B") 100 2; mkBar (Some "C") 4 0 ])
    by reflexivity.
  split; [exact H|]. exact (BarChart_pct_bounds rows_bars borough median_value _ H).
Defined.

(** Within one chart a row with a larger value never gets a shorter bar. *)
Theorem BarChart_pct_monotone (data : list Row) (labelKey : Row -> option string)
    (valueKey : Row -> option Q) (bars : list Bar) :
  BarChart data labelKey valueKey = Some bars ->
  forall b1 b2, In b1 bars -> In b2 bars ->
                bar_val b1 <= bar_val b2 -> bar_pct b1 <= bar_pct b2.
Proof.
  intros H. destruct (BarChart_Some _ _ _ _ H) as (max & _ & _ & _ & ->).
  intros b1 b2 H1 H2.
  apply in_map_iff in H1 as (r1 & <- & _). apply in_map_iff in H2 as (r2 & <- & _).
  cbn [bar_val bar_pct]. apply bar_pct_of_mono.
Qed.

Lemma BarChart_pct_monotone_witness :
  BarChart rows_bars borough median_value
  = Some [ mkBar (Some "A") 50 1; mkBar (Some "B") 100 2; mkBar (Some "C") 4 0 ] /\
  forall b1 b2,
    In b1 [ mkBar (Some "A") 50 1; mkBar (Some "B") 100 2; mkBar (Some "C") 4 0 ] ->
    In b2 [ mkBar (Some "A") 50 1; mkBar (Some "B") 100 2; mkBar (Some "C") 4 0 ] ->
    bar_val b1 <= bar_val b2 -> bar_pct b1 <= bar_pct b2.
Proof.
  assert (H : BarChart rows_bars borough median_value
              = Some [ mkBar (Some "A") 50 1; mkBar (Some "B") 100 2; mkBar (Some "C") 4 0 ])
    by reflexivity.
  split; [exact H|]. exact (BarChart_pct_monotone rows_bars borough median_value _ H).
Defined.

Lemma StronglySorted_lookup {A} (R : A -> A -> Prop) (l : list A) (i j : nat) (a b : A) :
  StronglySorted R l -> (i < j)%nat -> l !! i = Some a -> l !! j = Some b -> R a b.
Proof.
  intros Hs. revert i j. induction Hs as [|x l Hs IH Hx]; intros i j Hij Hi Hj.
  - destruct i; discriminate.
  - destruct j as [|j]; [lia|]. cbn in Hj. destruct i as [|i]; cbn in Hi.
    + injection Hi as <-. rewrite List.Forall_forall in Hx. apply Hx.
      apply list_elem_of_In, list_elem_of_lookup. eauto.
    + apply (IH i j); [lia|assumption|assumption].
Qed.

Lemma StronglySorted_take {A} (R : A -> A -> Prop) (n : nat) (l : list A) :
  StronglySorted R l -> StronglySorted R (take n l).
Proof.
  intros Hs. revert n. induction Hs as [|x l Hs IH Hx]; intros [|n]; cbn; try constructor.
  - apply IH.
  - rewrite List.Forall_forall in *. intros y Hy. apply Hx.
    apply list_elem_of_In. apply list_elem_of_In in Hy. exact (subseteq_take n l y Hy).
Qed.

(** The neighbourhood chart: at most ten bars, in non-increasing value and
    length; the first bar is the row the "Top Neighborhood" card names, with
    the card's value, and it is full-length when that value is positive. *)
Theorem neighborhood_chart_ranked (data : list Row) :
  data <> [] ->
  exists bars : list Bar,
    BarChart (chartData data false) neighborhood median_value = Some bars /\
    length bars = Nat.min 10 (length data) /\
    (forall (i j : nat) (bi bj : Bar),
        (i <= j)%nat -> bars !! i = Some bi -> bars !! j = Some bj ->
        bar_val bj <= bar_val bi /\ bar_pct bj <= bar_pct bi) /\
    (exists b0 : Bar,
        bars !! 0%nat = Some b0 /\
        bar_label b0 = topLabel (kpis data false) /\
        bar_val b0 = topValue (kpis data false) /\
        (0 < topValue (kpis data false) -> bar_pct b0 = 100)).
Proof.
  intros Hne.
  destruct (kpis_top_keys data false Hne) as (rv & rc & Hv & _ & Hvmax & _ & Hh & _ & Etv & _).
  assert (Hsorted : StronglySorted (ge_key median_key) (chartData data false)).
  { apply StronglySorted_take. apply (Array_sort_sorted median_key). }
  assert (Hhead : chartData data false !! 0%nat = Some rv).
  { unfold chartData, slice0.
    destruct (Array_sort byMedian data) as [|r s]; [discriminate|].
    cbn in Hh |- *. exact Hh. }
  assert (Hsub : forall r, In r (chartData data false) -> In r data).
  { intros r Hr. unfold chartData, slice0 in Hr.
    apply (Permutation_in r (Array_sort_perm median_key data)).
    apply list_elem_of_In. apply list_elem_of_In in Hr.
    exact (subseteq_take _ _ _ Hr). }
  assert (Hcne : chartData data false <> []) by (intros E; rewrite E in Hhead; discriminate).
  destruct (chart_max_spec median_value (chartData data false) Hcne)
    as (max & Hmax & (rm & Hrm & Emax) & Hub).
  assert (Emaxv : median_key rv == max).
  { apply Qle_antisym.
    - apply (Hub rv). apply list_elem_of_In, list_elem_of_lookup. eauto.
    - rewrite Emax. apply Hvmax, Hsub, Hrm. }
  eexists. split; [unfold BarChart; rewrite Hmax; reflexivity|].
  split; [|split].
  - rewrite length_map. unfold chartData, slice0. rewrite length_take.
    change byMedian with (descending_by median_key). rewrite Array_sort_length. reflexivity.
  - intros i j bi bj Hij Hi Hj.
    rewrite list_lookup_fmap in Hi, Hj.
    destruct (chartData data false !! i) as [ri|] eqn:Eri; [|discriminate].
    destruct (chartData data false !! j) as [rj|] eqn:Erj; [|discriminate].
    cbn in Hi, Hj. injection Hi as <-. injection Hj as <-. cbn [bar_val bar_pct].
    assert (Hle : bar_value median_value rj <= bar_value median_value ri).
    { destruct (decide (i = j)) as [->|Hneq].
      - rewrite Eri in Erj. injection Erj as <-. apply Qle_refl.
      - apply (StronglySorted_lookup _ _ i j ri rj Hsorted); [lia|assumption|assumption]. }
    split; [exact Hle|apply bar_pct_of_mono, Hle].
  - eexists. split; [rewrite list_lookup_fmap, Hhead; reflexivity|].
    cbn [bar_label bar_val bar_pct]. split; [|split].
    + destruct data as [|r0 data0]; [congruence|].
      cbn [kpis topLabel]. rewrite Hh. reflexivity.
    + rewrite Etv. reflexivity.
    + intros Hpos. rewrite Etv in Hpos. apply bar_pct_of_full; [|exact Emaxv].
      rewrite <- Emaxv. exact Hpos.
Qed.

Lemma neighborhood_chart_ranked_witness :
  rows15 <> [] /\
  exists bars : list Bar,
    BarChart (chartData rows15 false) neighborhood median_value = Some bars /\
    length bars = Nat.min 10 (length rows15) /\
    (forall (i j : nat) (bi bj : Bar),
        (i <= j)%nat -> bars !! i = Some bi -> bars !! j = Some bj ->
        bar_val bj <= bar_val bi /\ bar_pct bj <= bar_pct bi) /\
    (exists b0 : Bar,
        bars !! 0%nat = Some b0 /\
        bar_label b0 = topLabel (kpis rows15 false) /\
        bar_val b0 = topValue (kpis rows15 false) /\
        (0 < topValue (kpis rows15 false) -> bar_pct b0 = 100)).
Proof.
  split; [discriminate|]. apply (neighborhood_chart_ranked rows15). discriminate.
Defined.

End BarFacts.

(** ** Re-rendering an animated slot *)

Section RerenderFacts.
Import JS Animated.
Local Open Scope Q_scope.

Lemma same_value_refl (v : option Q) : same_value v v = true.
Proof. destruct v as [x|]; [|reflexivity]. apply Qeq_bool_iff. reflexivity. Qed.

Lemma AnimatedNumber_unchanged (v : option Q) (s : Slot) :
  deps_changed s v = false -> snd (AnimatedNumber v s) = s.
Proof. intros H. cbn [AnimatedNumber snd]. rewrite H. reflexivity. Qed.

(** After one render with [v] the slot either is at rest for [v], or has
    just been marked and needs one more effect run. *)
Lemma AnimatedNumber_once (v : option Q) (s : Slot) :
  deps_changed (snd (AnimatedNumber v s)) v = false \/
  (lastDeps (snd (AnimatedNumber v s)) = Some (v, false) /\
   hasAnimated (snd (AnimatedNumber v s)) = true).
Proof.
  cbn [AnimatedNumber snd]. destruct (deps_changed s v) eqn:E; [|left; exact E].
  unfold deps_changed at 1. cbn [effect lastDeps hasAnimated].
  rewrite same_value_refl. fold (positive v).
  destruct (hasAnimated s), (positive v); cbn; auto.
Qed.

(** The chain effect, state update, re-render stops: whatever the slot, once
    a value has been rendered twice a further render with it leaves the
    slot as it is, so no further effect or state update follows. *)
Theorem AnimatedNumber_rerender_settles (v : option Q) (s : Slot) :
  snd (AnimatedNumber v (snd (AnimatedNumber v (snd (AnimatedNumber v s)))))
  = snd (AnimatedNumber v (snd (AnimatedNumber v s))).
Proof.
  apply AnimatedNumber_unchanged.
  destruct (AnimatedNumber_once v s) as [H|[Hd Hh]].
  - rewrite (AnimatedNumber_unchanged v _ H). exact H.
  - set (s1 := snd (AnimatedNumber v s)) in *.
    cbn [AnimatedNumber snd]. destruct (deps_changed s1 v) eqn:E.
    + unfold deps_changed. cbn [effect lastDeps hasAnimated].
      rewrite same_value_refl, Hh. reflexivity.
    + exact E.
Qed.

(** Rendering again with the target that was just committed asks for a
    spring that starts where it ends, for any non-negative target and any
    earlier targets: an unchanged value never restarts the animation. *)
Theorem AnimatedNumber_same_target_at_rest (vs : list (option Q)) (v : option Q) :
  0 <= or_zero v ->
  from (fst (AnimatedNumber v (snd (renders (vs ++ [v]) mountSlot))))
  == to (fst (AnimatedNumber v (snd (renders (vs ++ [v]) mountSlot)))).
Proof.
  intros Hnn.
  destruct (renders_tracks (vs ++ [v]) mountSlot [] mountSlot_tracks) as ((Hp & Hh & _) & _).
  cbn [app] in Hp, Hh. rewrite last_last in Hp.
  rewrite existsb_app in Hh. cbn [existsb] in Hh. rewrite orb_false_r in Hh.
  destruct (AnimatedNumber_from v (snd (renders (vs ++ [v]) mountSlot))) as [-> ->].
  destruct (hasAnimated (snd (renders (vs ++ [v]) mountSlot))); [exact Hp|].
  symmetry in Hh. apply orb_false_iff in Hh as [_ Hv]. apply positive_false in Hv.
  apply Qle_antisym; assumption.
Qed.

Lemma AnimatedNumber_same_target_at_rest_witness :
  0 <= or_zero (Some 8) /\
  from (fst (AnimatedNumber (Some 8) (snd (renders ([Some 0; Some 5] ++ [Some 8]) mountSlot))))
  == to (fst (AnimatedNumber (Some 8) (snd (renders ([Some 0; Some 5] ++ [Some 8]) mountSlot)))).
Proof.
  assert (H : 0 <= or_zero (Some 8)) by discriminate.
  split; [exact H|]. exact (AnimatedNumber_same_target_at_rest [Some 0; Some 5] (Some 8) H).
Defined.

End RerenderFacts.

(** ** More on the data-loading effect *)

Section CoordinatorInvariants.
Import Metrics Coordinator.

Lemma run_snoc (st : App) (evs : list Event) (ev : Event) :
  run st (evs ++ [ev]) = step (run st evs) ev.
Proof. unfold run. rewrite fold_left_app. reflexivity. Qed.

Lemma rerun_fields (st : App) :
  salesData (rerun st) = salesData st /\
  neighborhoodData (rerun st) = neighborhoodData st /\
  months (rerun st) = months st /\
  selectedBorough (rerun st) = selectedBorough st /\
  current (rerun st) = Some (issued st) /\
  issued (rerun st) = S (issued st) /\
  inflight (rerun st) !! issued st
  = Some (mkClosure (months st) (selectedBorough st) false).
Proof.
  destruct (cleanup_fields st) as (Hs & Hn & Hm & Hb & _ & _ & Hi).
  unfold rerun, run_effect, load_start, setLoadingNYC. cbn.
  rewrite Hs, Hn, Hm, Hb, Hi, lookup_insert_eq. repeat split.
Qed.

(** A selection event or an unmount leaves both row collections alone. *)
Lemma step_rows_selection (st : App) (ev : Event) :
  (forall id o, ev <> Settle id o) ->
  salesData (step st ev) = salesData st /\
  neighborhoodData (step st ev) = neighborhoodData st.
Proof.
  intros Hev. destruct ev as [m|b|id o|]; cbn [step].
  - destruct (current st); [|split; reflexivity].
    destruct (Z.eqb m (months st)); [split; reflexivity|].
    destruct (rerun_fields (mkApp (salesData st) (neighborhoodData st) m (selectedBorough st)
                                  (loadingNYC st) (inflight st) (Some n) (issued st)))
      as (Hs & Hn & _). rewrite Hs, Hn. split; reflexivity.
  - destruct (current st); [|split; reflexivity].
    destruct (String.eqb b (selectedBorough st)); [split; reflexivity|].
    destruct (rerun_fields (mkApp (salesData st) (neighborhoodData st) (months st) b
                                  (loadingNYC st) (inflight st) (Some n) (issued st)))
      as (Hs & Hn & _). rewrite Hs, Hn. split; reflexivity.
  - exfalso. apply (Hev id o). reflexivity.
  - destruct (cleanup_fields st) as (Hs & Hn & _). rewrite Hs, Hn. split; reflexivity.
Qed.

Lemma step_loading_tracks (st : App) (ev : Event) :
  consistent st ->
  (forall id, current st = Some id ->
              (loadingNYC st = true <-> is_Some (inflight st !! id))) ->
  forall id, current (step st ev) = Some id ->
             (loadingNYC (step st ev) = true <-> is_Some (inflight (step st ev) !! id)).
Proof.
  intros Hc Hl id. destruct ev as [m|b|id' o|]; cbn [step].
  - destruct (current st) as [cur|] eqn:Ecur; [|intros H; apply Hl; congruence].
    destruct (Z.eqb m (months st)); [intros H; apply Hl; congruence|].
    match goal with |- context [rerun ?s] =>
      destruct (rerun_fields s) as (_ & _ & _ & _ & Hcur & _ & Hfl) end.
    cbn [issued months selectedBorough] in Hcur, Hfl.
    rewrite Hcur, rerun_loading. intros [= <-]. rewrite Hfl. split; eauto.
  - destruct (current st) as [cur|] eqn:Ecur; [|intros H; apply Hl; congruence].
    destruct (String.eqb b (selectedBorough st)); [intros H; apply Hl; congruence|].
    match goal with |- context [rerun ?s] =>
      destruct (rerun_fields s) as (_ & _ & _ & _ & Hcur & _ & Hfl) end.
    cbn [issued months selectedBorough] in Hcur, Hfl.
    rewrite Hcur, rerun_loading. intros [= <-]. rewrite Hfl. split; eauto.
  - destruct (inflight st !! id') as [c|] eqn:E.
    + rewrite (settle_inflight st id' c o E). cbn [snd current loadingNYC inflight].
      intros Hcur. pose proof (cons_cancel st Hc id' c E) as Hiff.
      destruct (decide (id' = id)) as [->|Hne].
      * assert (Ecancel : cancel c = false) by (apply Hiff, Hcur).
        rewrite Ecancel, lookup_delete_eq. split; [discriminate|intros [? ?]; discriminate].
      * assert (Ecancel : cancel c = true).
        { destruct (cancel c); [reflexivity|].
          destruct Hiff as [Hiff _]. specialize (Hiff eq_refl). congruence. }
        rewrite Ecancel, lookup_delete_ne by exact Hne. apply Hl, Hcur.
    + rewrite (settle_unknown st id' o E). apply Hl.
  - destruct (cleanup_fields st) as (_ & _ & _ & _ & _ & Hcur & _).
    rewrite Hcur. discriminate.
Qed.

Lemma run_loading_tracks (evs : list Event) (st : App) :
  consistent st ->
  (forall id, current st = Some id ->
              (loadingNYC st = true <-> is_Some (inflight st !! id))) ->
  forall id, current (run st evs) = Some id ->
             (loadingNYC (run st evs) = true <-> is_Some (inflight (run st evs) !! id)).
Proof.
  revert st. induction evs as [|ev evs IH]; intros st Hc Hl; [exact Hl|].
  cbn [run fold_left]. apply IH.
  - apply step_consistent, Hc.
  - apply step_loading_tracks; assumption.
Qed.

(** While the component is mounted, the loading flag is up exactly while
    the request of the latest selection is still in flight: the screen is
    never left loading after that request settled, and never stops loading
    before it did. *)
Theorem loading_while_latest_in_flight (evs : list Event) (id : nat) :
  current (run mount evs) = Some id ->
  (loadingNYC (run mount evs) = true <-> is_Some (inflight (run mount evs) !! id)).
Proof.
  apply (run_loading_tracks evs mount mount_consistent).
  intros id' [= <-]. cbn. rewrite lookup_insert_eq. split; eauto.
Qed.

Lemma loading_while_latest_in_flight_witness :
  current (run mount W123) = Some 3 /\
  (loadingNYC (run mount W123) = true <-> is_Some (inflight (run mount W123) !! 3)).
Proof.
  assert (H : current (run mount W123) = Some 3) by reflexivity.
  split; [exact H|]. exact (loading_while_latest_in_flight W123 3 H).
Defined.

(** Whatever happened since mount, the borough rows held are either none or
    the [boroughs] of a response that was delivered, and the neighbourhood
    rows are either none or the [neighborhoods] of a delivered response:
    rows of one granularity never end up in the other collection. *)
Theorem rows_come_from_responses (evs : list Event) :
  (salesData (run mount evs) = [] \/
   exists id res, In (Settle id (Fulfilled res)) evs /\
                  salesData (run mount evs) = boroughs_or_empty res) /\
  (neighborhoodData (run mount evs) = [] \/
   exists id res, In (Settle id (Fulfilled res)) evs /\
                  neighborhoodData (run mount evs) = neighborhoods_or_empty res).
Proof.
  induction evs as [|ev evs IH] using rev_ind; [split; left; reflexivity|].
  rewrite run_snoc. set (st := run mount evs) in *.
  assert (Hkeep : forall (P : nat -> option Body -> Prop),
             (exists id res, In (Settle id (Fulfilled res)) evs /\ P id res) ->
             exists id res, In (Settle id (Fulfilled res)) (evs ++ [ev]) /\ P id res).
  { intros P (id & res & Hin & HP). exists id, res. split; [|exact HP].
    apply in_or_app. left. exact Hin. }
  assert (Hlast : forall id res, ev = Settle id (Fulfilled res) ->
                                 In (Settle id (Fulfilled res)) (evs ++ [ev])).
  { intros id res ->. apply in_or_app. right. left. reflexivity. }
  destruct IH as [IHs IHn].
  assert (Hold : (salesData st = [] \/
                  exists id res, In (Settle id (Fulfilled res)) (evs ++ [ev]) /\
                                 salesData st = boroughs_or_empty res) /\
                 (neighborhoodData st = [] \/
                  exists id res, In (Settle id (Fulfilled res)) (evs ++ [ev]) /\
                                 neighborhoodData st = neighborhoods_or_empty res)).
  { split.
    - destruct IHs as [?|H]; [left; assumption|right].
      apply (Hkeep (fun _ res => salesData st = boroughs_or_empty res) H).
    - destruct IHn as [?|H]; [left; assumption|right].
      apply (Hkeep (fun _ res => neighborhoodData st = neighborhoods_or_empty res) H). }
  destruct ev as [m|b|id o|].
  - destruct (step_rows_selection st (SetMonths m)) as [-> ->]; [discriminate|exact Hold].
  - destruct (step_rows_selection st (SetBorough b)) as [-> ->]; [discriminate|exact Hold].
  - cbn [step]. destruct (inflight st !! id) as [c|] eqn:E.
    + rewrite (settle_inflight st id c o E). cbn [snd salesData neighborhoodData].
      destruct o as [res|err]; [|exact Hold].
      destruct (cancel c); [exact Hold|].
      destruct (String.eqb (eff_borough c) "All").
      * split; [right|left; reflexivity]. exists id, res. split; [apply Hlast|]; reflexivity.
      * split; [apply Hold|right]. exists id, res. split; [apply Hlast|]; reflexivity.
    + rewrite (settle_unknown st id o E). exact Hold.
  - destruct (step_rows_selection st Unmount) as [-> ->]; [discriminate|exact Hold].
Qed.

Lemma step_unmounted (st : App) (ev : Event) :
  consistent st -> current st = None ->
  rows (step st ev) = rows st /\
  loadingNYC (step st ev) = loadingNYC st /\
  months (step st ev) = months st /\
  selectedBorough (step st ev) = selectedBorough st /\
  issued (step st ev) = issued st /\
  current (step st ev) = None.
Proof.
  intros Hc Hcur. destruct ev as [m|b|id o|]; cbn [step].
  - rewrite Hcur. repeat split. exact Hcur.
  - rewrite Hcur. repeat split. exact Hcur.
  - destruct (settle_stale st id o Hc) as (Hs & Hn & Hl); [congruence|].
    destruct (settle_frame st id o) as (Hm & Hb & Hcur' & Hi & _).
    unfold rows. rewrite Hs, Hn, Hl, Hm, Hb, Hi, Hcur'. repeat split. exact Hcur.
  - unfold cleanup. rewrite Hcur. repeat split. exact Hcur.
Qed.

(** Once unmounted the component is inert: whatever is clicked and whichever
    requests still settle, fulfilled or rejected, the rows, the loading
    flag and the selection stay as they were and no request is issued. *)
Theorem unmounted_is_inert (evs evs' : list Event) :
  rows (run (step (run mount evs) Unmount) evs') = rows (run mount evs) /\
  loadingNYC (run (step (run mount evs) Unmount) evs') = loadingNYC (run mount evs) /\
  months (run (step (run mount evs) Unmount) evs') = months (run mount evs) /\
  selectedBorough (run (step (run mount evs) Unmount) evs')
  = selectedBorough (run mount evs) /\
  issued (run (step (run mount evs) Unmount) evs') = issued (run mount evs).
Proof.
  pose proof (reachable_consistent evs) as Hc. set (st := run mount evs) in *.
  destruct (cleanup_fields st) as (Hs & Hn & Hm & Hb & Hl & Hcur & Hi).
  assert (Hgen : forall es s, consistent s -> current s = None ->
                   rows (run s es) = rows s /\ loadingNYC (run s es) = loadingNYC s /\
                   months (run s es) = months s /\
                   selectedBorough (run s es) = selectedBorough s /\
                   issued (run s es) = issued s).
  { induction es as [|e es IH]; intros s Hcs Hnone; [repeat split|].
    cbn [run fold_left].
    destruct (step_unmounted s e Hcs Hnone) as (H1 & H2 & H3 & H4 & H5 & H6).
    destruct (IH (step s e) (step_consistent s e Hcs) H6) as (G1 & G2 & G3 & G4 & G5).
    unfold run in *. rewrite G1, G2, G3, G4, G5. repeat split; assumption. }
  cbn [step].
  destruct (Hgen evs' (cleanup st) (cleanup_consistent st Hc) Hcur) as (G1 & G2 & G3 & G4 & G5).
  rewrite G1, G2, G3, G4, G5. unfold rows. rewrite Hs, Hn, Hm, Hb, Hl, Hi. repeat split.
Qed.

End CoordinatorInvariants.

(** ** The requests *)

Section ApiFacts.
Import Coordinator Api.

Lemma load_request_all (c : Closure) :
  eff_borough c = "All" ->
  url (load_request c) = API_BASE +:+ "/nyc/recent-sales" /\
  params (load_request c) !! "months" = Some (PNum (eff_months c)) /\
  params (load_request c) !! "limit" = Some (PNum 20000) /\
  params (load_request c) !! "borough" = None.
Proof.
  intros E. unfold load_request. rewrite E. cbn. repeat split.
Qed.

Lemma load_request_borough (c : Closure) :
  eff_borough c <> "All" ->
  url (load_request c) = API_BASE +:+ "/nyc/neighborhoods" /\
  params (load_request c) !! "months" = Some (PNum (eff_months c)) /\
  params (load_request c) !! "limit" = None /\
  params (load_request c) !! "borough" = Some (PStr (eff_borough c)).
Proof.
  intros E. unfold load_request.
  destruct (String.eqb_spec (eff_borough c) "All") as [|_]; [congruence|].
  cbn. repeat split.
Qed.

(** Two runs ask for the same thing only if they hold the same selection:
    the months and the borough can be read back from the request. *)
Theorem load_request_injective (c1 c2 : Closure) :
  load_request c1 = load_request c2 ->
  eff_months c1 = eff_months c2 /\ eff_borough c1 = eff_borough c2.
Proof.
  intros H.
  assert (Hm : params (load_request c1) !! "months" = params (load_request c2) !! "months")
    by (rewrite H; reflexivity).
  assert (Hb : params (load_request c1) !! "borough" = params (load_request c2) !! "borough")
    by (rewrite H; reflexivity).
  destruct (decide (eff_borough c1 = "All")) as [E1|E1];
    destruct (decide (eff_borough c2 = "All")) as [E2|E2].
  - destruct (load_request_all c1 E1) as (_ & M1 & _).
    destruct (load_request_all c2 E2) as (_ & M2 & _).
    rewrite M1, M2 in Hm. split; congruence.
  - destruct (load_request_all c1 E1) as (_ & _ & _ & B1).
    destruct (load_request_borough c2 E2) as (_ & _ & _ & B2).
    rewrite B1, B2 in Hb. discriminate.
  - destruct (load_request_borough c1 E1) as (_ & _ & _ & B1).
    destruct (load_request_all c2 E2) as (_ & _ & _ & B2).
    rewrite B1, B2 in Hb. discriminate.
  - destruct (load_request_borough c1 E1) as (_ & M1 & _ & B1).
    destruct (load_request_borough c2 E2) as (_ & M2 & _ & B2).
    rewrite M1, M2 in Hm. rewrite B1, B2 in Hb. split; congruence.
Qed.

Lemma load_request_injective_witness :
  load_request (mkClosure 3 "Brooklyn" false) = load_request (mkClosure 3 "Brooklyn" true) /\
  eff_months (mkClosure 3 "Brooklyn" false) = eff_months (mkClosure 3 "Brooklyn" true) /\
  eff_borough (mkClosure 3 "Brooklyn" false) = eff_borough (mkClosure 3 "Brooklyn" true).
Proof.
  assert (H : load_request (mkClosure 3 "Brooklyn" false)
              = load_request (mkClosure 3 "Brooklyn" true)) by reflexivity.
  split; [exact H|]. exact (load_request_injective _ _ H).
Defined.

(** In every state reached from mount, the request of the registered run
    is the one for the selection on screen: the borough endpoint with the
    default limit of 20000 under "All", otherwise the neighbourhood
    endpoint with the selected borough; both with the selected months. *)
Theorem current_request_matches_selection (evs : list Event) (id : nat) (c : Closure) :
  current (run mount evs) = Some id ->
  inflight (run mount evs) !! id = Some c ->
  load_request c =
  (if isAll (run mount evs)
   then getNYCRecentSales (Some (months (run mount evs))) (Some 20000%Z)
   else getNeighborhoodSales (selectedBorough (run mount evs)) (months (run mount evs))).
Proof.
  intros Hcur E.
  destruct (cons_closure _ (reachable_consistent evs) id c Hcur E) as [Em Eb].
  unfold load_request, isAll. rewrite Em, Eb.
  destruct (String.eqb (selectedBorough (run mount evs)) "All"); reflexivity.
Qed.

Lemma current_request_matches_selection_witness :
  current (run mount W123) = Some 3 /\
  inflight (run mount W123) !! 3 = Some (mkClosure 3 "Brooklyn" false) /\
  load_request (mkClosure 3 "Brooklyn" false) =
  (if isAll (run mount W123)
   then getNYCRecentSales (Some (months (run mount W123))) (Some 20000%Z)
   else getNeighborhoodSales (selectedBorough (run mount W123)) (months (run mount W123))).
Proof.
  assert (H1 : current (run mount W123) = Some 3) by reflexivity.
  assert (H2 : inflight (run mount W123) !! 3 = Some (mkClosure 3 "Brooklyn" false))
    by reflexivity.
  split; [exact H1|]. split; [exact H2|].
  exact (current_request_matches_selection W123 3 _ H1 H2).
Defined.

(** [getProperties] always sends [limit] (100 when omitted), sends
    [zip_code] exactly when a non-empty zip code is given, and sends
    nothing else. *)
Theorem getProperties_params (limit : option Z) (zipCode : option string) :
  params (getProperties limit zipCode) !! "limit" = Some (PNum (default 100%Z limit)) /\
  (forall z, params (getProperties limit zipCode) !! "zip_code" = Some (PStr z)
             <-> zipCode = Some z /\ z <> "") /\
  (forall k v, params (getProperties limit zipCode) !! k = Some v ->
               k = "limit" \/ k = "zip_code").
Proof.
  unfold getProperties. cbn [params].
  destruct zipCode as [z0|]; [destruct (String.eqb_spec z0 "") as [->|Hne]; cbn [negb]|].
  - split; [reflexivity|]. split.
    + intros z. rewrite lookup_singleton_ne by discriminate. split; [discriminate|].
      intros [[= <-] Hz]. congruence.
    + intros k v Hk. apply lookup_singleton_Some in Hk as [<- _]. left; reflexivity.
  - split; [rewrite lookup_insert_ne by discriminate; apply lookup_singleton_eq|]. split.
    + intros z. rewrite lookup_insert_eq. split.
      * intros [= <-]. split; [reflexivity|exact Hne].
      * intros [[= <-] _]. reflexivity.
    + intros k v Hk. apply lookup_insert_Some in Hk as [[<- _]|[_ Hk]]; [right; reflexivity|].
      apply lookup_singleton_Some in Hk as [<- _]. left; reflexivity.
  - split; [reflexivity|]. split.
    + intros z. rewrite lookup_singleton_ne by discriminate. split; [discriminate|].
      intros [[=] _].
    + intros k v Hk. apply lookup_singleton_Some in Hk as [<- _]. left; reflexivity.
Qed.

End ApiFacts.

(** ** The screen *)

Section ViewFacts.
Import JS Metrics Chart Coordinator View.

Lemma nonempty_spec (l : list Row) : nonempty l = true <-> l <> [].
Proof. destruct l; cbn; split; congruence. Qed.

(** Which parts of the screen go together, in any state: the loading text
    excludes every data part; the KPI cards, the chart and a table appear
    together or not at all; and the two tables never appear together. *)
Theorem render_parts (st : App) :
  (loadingText (render st) = true ->
   kpiSection (render st) = None /\ boroughTable (render st) = None /\
   chartSection (render st) = None /\ neighborhoodTable (render st) = None) /\
  (is_Some (kpiSection (render st)) <-> is_Some (chartSection (render st))) /\
  (is_Some (kpiSection (render st)) <->
   is_Some (boroughTable (render st)) \/ is_Some (neighborhoodTable (render st))) /\
  ~ (is_Some (boroughTable (render st)) /\ is_Some (neighborhoodTable (render st))).
Proof.
  unfold render, data. cbn [kpiSection loadingText boroughTable chartSection neighborhoodTable].
  destruct (loadingNYC st), (isAll st), (nonempty (salesData st)),
    (nonempty (neighborhoodData st)); cbn;
    repeat split; try discriminate; try reflexivity; eauto;
    try (intros [[? ?]|[? ?]]; discriminate);
    try (intros [? ?]; discriminate);
    try (intros [[? ?] [? ?]]; discriminate).
Qed.

(** When the chart part is rendered it is never an empty chart: it has one
    bar per borough row under "All", and between one and ten bars for a
    single borough. *)
Theorem render_chart_bars (st : App) (chart : option (list Bar)) :
  chartSection (render st) = Some chart ->
  exists bars : list Bar,
    chart = Some bars /\
    0 < length bars /\
    length bars = (if isAll st then length (salesData st)
                   else Nat.min 10 (length (neighborhoodData st))).
Proof.
  unfold render. cbn [chartSection].
  destruct (negb (loadingNYC st) && nonempty (data st)) eqn:E; [|discriminate].
  intros [= <-]. apply andb_true_iff in E as [_ Hne]. apply nonempty_spec in Hne.
  assert (Hlen : length (chartData (data st) (isAll st))
                 = if isAll st then length (salesData st)
                   else Nat.min 10 (length (neighborhoodData st))).
  { unfold data, chartData, slice0. destruct (isAll st); [reflexivity|].
    rewrite length_take. change byMedian with (descending_by median_key).
    rewrite Array_sort_length. reflexivity. }
  assert (Hpos : 0 < length (chartData (data st) (isAll st))).
  { rewrite Hlen. unfold data in Hne.
    destruct (isAll st); [destruct (salesData st)|destruct (neighborhoodData st)];
      cbn; try congruence; lia. }
  assert (Hcne : chartData (data st) (isAll st) <> [])
    by (intros E0; rewrite E0 in Hpos; cbn in Hpos; lia).
  destruct (chart_max_spec median_value _ Hcne) as (max & Hmax & _).
  eexists. split; [unfold BarChart; rewrite Hmax; reflexivity|].
  rewrite length_map. split; [exact Hpos|exact Hlen].
Qed.

Lemma render_chart_bars_witness :
  chartSection (render (run mount all_then_brooklyn))
  = Some (Some [mkBar (Some "Park Slope") 100%Q 1200000%Q]) /\
  exists bars : list Bar,
    Some [mkBar (Some "Park Slope") 100%Q 1200000%Q] = Some bars /\
    0 < length bars /\
    length bars = (if isAll (run mount all_then_brooklyn)
                   then length (salesData (run mount all_then_brooklyn))
                   else Nat.min 10 (length (neighborhoodData (run mount all_then_brooklyn)))).
Proof.
  assert (H : chartSection (render (run mount all_then_brooklyn))
              = Some (Some [mkBar (Some "Park Slope") 100%Q 1200000%Q])) by reflexivity.
  split; [exact H|]. exact (render_chart_bars _ _ H).
Defined.

(** When the neighbourhood table is rendered, its rows are the neighbourhood
    rows rearranged, the chart beside it draws exactly the first ten rows of
    the table in the table's order, and the "Top Neighborhood" card names
    the table's first row. *)
Theorem render_neighborhood_table (st : App) (table : list Row) :
  neighborhoodTable (render st) = Some table ->
  Permutation table (neighborhoodData st) /\
  (exists bars : list Bar,
      chartSection (render st) = Some (Some bars) /\
      map bar_label bars = map neighborhood (take 10 table) /\
      map bar_val bars = map median_key (take 10 table)) /\
  (exists k : Kpis,
      kpiSection (render st) = Some k /\
      topLabel k = head table ≫= neighborhood /\
      topValue k = or_zero (head table ≫= median_value)).
Proof.
  unfold render. cbn [neighborhoodTable chartSection kpiSection].
  unfold data, chartLabelKey.
  destruct (loadingNYC st); [discriminate|].
  destruct (isAll st); [discriminate|]. cbn [negb andb].
  destruct (nonempty (neighborhoodData st)) eqn:Hne; [|discriminate].
  intros [= <-]. apply nonempty_spec in Hne.
  split; [apply (Array_sort_perm median_key)|]. split.
  - assert (Hcne : chartData (neighborhoodData st) false <> []).
    { unfold chartData, slice0. intros E0. apply (f_equal length) in E0.
      rewrite length_take in E0. change byMedian with (descending_by median_key) in E0.
      rewrite Array_sort_length in E0.
      destruct (neighborhoodData st); cbn in E0; [congruence|lia]. }
    destruct (chart_max_spec median_value _ Hcne) as (max & Hmax & _).
    eexists. split; [unfold BarChart; rewrite Hmax; reflexivity|].
    rewrite !map_map. split; reflexivity.
  - eexists. split; [reflexivity|].
    destruct (neighborhoodData st) as [|r0 l0]; [congruence|]. split; reflexivity.
Qed.

Lemma render_neighborhood_table_witness :
  neighborhoodTable (render (run mount all_then_brooklyn)) = Some [neighborhood_row] /\
  Permutation [neighborhood_row] (neighborhoodData (run mount all_then_brooklyn)) /\
  (exists bars : list Bar,
      chartSection (render (run mount all_then_brooklyn)) = Some (Some bars) /\
      map bar_label bars = map neighborhood (take 10 [neighborhood_row]) /\
      map bar_val bars = map median_key (take 10 [neighborhood_row])) /\
  (exists k : Kpis,
      kpiSection (render (run mount all_then_brooklyn)) = Some k /\
      topLabel k = head [neighborhood_row] ≫= neighborhood /\
      topValue k = or_zero (head [neighborhood_row] ≫= median_value)).
Proof.
  assert (H : neighborhoodTable (render (run mount all_then_brooklyn))
              = Some [neighborhood_row]) by reflexivity.
  split; [exact H|]. exact (render_neighborhood_table _ _ H).
Defined.

End ViewFacts.

(** ** Loading and the screen *)

Section SettledScreenFacts.
Import JS Metrics Chart Coordinator View.

(** At most one run in flight may still write state: two closures whose
    [cancel] is still false are the same run, the registered and latest
    one. *)
Theorem single_live_run (evs : list Event) (id1 id2 : nat) (c1 c2 : Closure) :
  inflight (run mount evs) !! id1 = Some c1 ->
  inflight (run mount evs) !! id2 = Some c2 ->
  cancel c1 = false -> cancel c2 = false ->
  id1 = id2 /\ current (run mount evs) = Some id1 /\ issued (run mount evs) = S id1.
Proof.
  intros E1 E2 H1 H2. pose proof (reachable_consistent evs) as Hc.
  apply (cons_cancel _ Hc id1 c1 E1) in H1. apply (cons_cancel _ Hc id2 c2 E2) in H2.
  split; [congruence|]. split; [exact H1|]. apply (cons_latest _ Hc id1 H1).
Qed.

Lemma single_live_run_witness :
  inflight (run mount W123) !! 3 = Some (mkClosure 3 "Brooklyn" false) /\
  cancel (mkClosure 3 "Brooklyn" false) = false /\
  3 = 3 /\ current (run mount W123) = Some 3 /\ issued (run mount W123) = 4.
Proof.
  assert (H : inflight (run mount W123) !! 3 = Some (mkClosure 3 "Brooklyn" false))
    by reflexivity.
  split; [exact H|]. split; [reflexivity|].
  exact (single_live_run W123 3 3 _ _ H H eq_refl eq_refl).
Defined.

(** When the response of the current selection arrives, the loading text
    goes away; if the response has no rows for the scope nothing takes its
    place (no cards, no chart, no table); otherwise the cards are computed
    from the response's rows and the table of the scope shows them. *)
Theorem render_after_fulfilled (evs : list Event) (id : nat) (c : Closure)
    (res : option Body) :
  current (run mount evs) = Some id ->
  inflight (run mount evs) !! id = Some c ->
  loadingText (render (step (run mount evs) (Settle id (Fulfilled res)))) = false /\
  (response_rows (run mount evs) res = [] ->
   kpiSection (render (step (run mount evs) (Settle id (Fulfilled res)))) = None /\
   boroughTable (render (step (run mount evs) (Settle id (Fulfilled res)))) = None /\
   chartSection (render (step (run mount evs) (Settle id (Fulfilled res)))) = None /\
   neighborhoodTable (render (step (run mount evs) (Settle id (Fulfilled res)))) = None) /\
  (response_rows (run mount evs) res <> [] ->
   kpiSection (render (step (run mount evs) (Settle id (Fulfilled res))))
   = Some (kpis (response_rows (run mount evs) res) (isAll (run mount evs))) /\
   (isAll (run mount evs) = true ->
    boroughTable (render (step (run mount evs) (Settle id (Fulfilled res))))
    = Some (response_rows (run mount evs) res)) /\
   (isAll (run mount evs) = false ->
    neighborhoodTable (render (step (run mount evs) (Settle id (Fulfilled res))))
    = Some (Array_sort byMedian (response_rows (run mount evs) res)))).
Proof.
  intros Hcur E. pose proof (reachable_consistent evs) as Hc.
  set (st := run mount evs) in *. cbn [step].
  rewrite (settle_current st id c (Fulfilled res) Hc Hcur E). cbn [snd].
  unfold render, data, response_rows, isAll.
  cbn [salesData neighborhoodData selectedBorough loadingNYC
       kpiSection loadingText boroughTable chartSection neighborhoodTable].
  fold (isAll st). split; [reflexivity|].
  destruct (isAll st); cbn [negb andb].
  - split.
    + intros ->. repeat split.
    + intros Hne. apply nonempty_spec in Hne. rewrite Hne.
      repeat split; intros; congruence.
  - split.
    + intros ->. repeat split.
    + intros Hne. apply nonempty_spec in Hne. rewrite Hne.
      repeat split; intros; congruence.
Qed.

Lemma render_after_fulfilled_witness :
  current (run mount all_loaded_brooklyn_selected) = Some 1 /\
  inflight (run mount all_loaded_brooklyn_selected) !! 1
  = Some (mkClosure 12 "Brooklyn" false) /\
  loadingText (render (step (run mount all_loaded_brooklyn_selected)
                            (Settle 1 (Fulfilled brooklyn_response)))) = false.
Proof.
  assert (H1 : current (run mount all_loaded_brooklyn_selected) = Some 1) by reflexivity.
  assert (H2 : inflight (run mount all_loaded_brooklyn_selected) !! 1
               = Some (mkClosure 12 "Brooklyn" false)) by reflexivity.
  split; [exact H1|]. split; [exact H2|].
  exact (proj1 (render_after_fulfilled all_loaded_brooklyn_selected 1 _
                                       brooklyn_response H1 H2)).
Defined.

(** When the request of the current selection fails, the loading text goes
    away and the screen shows the rows held before for the scope now
    selected, if there are any: the cards are computed from them as if they
    belonged to the new selection, and nothing reports the failure. *)
Theorem render_after_rejected (evs : list Event) (id : nat) (c : Closure) (err : string) :
  current (run mount evs) = Some id ->
  inflight (run mount evs) !! id = Some c ->
  loadingText (render (step (run mount evs) (Settle id (Rejected err)))) = false /\
  kpiSection (render (step (run mount evs) (Settle id (Rejected err))))
  = (if nonempty (data (run mount evs))
     then Some (kpis (data (run mount evs)) (isAll (run mount evs))) else None) /\
  boroughTable (render (step (run mount evs) (Settle id (Rejected err))))
  = (if isAll (run mount evs) && nonempty (salesData (run mount evs))
     then Some (salesData (run mount evs)) else None) /\
  neighborhoodTable (render (step (run mount evs) (Settle id (Rejected err))))
  = (if negb (isAll (run mount evs)) && nonempty (neighborhoodData (run mount evs))
     then Some (Array_sort byMedian (neighborhoodData (run mount evs))) else None).
Proof.
  intros Hcur E. pose proof (reachable_consistent evs) as Hc.
  set (st := run mount evs) in *. cbn [step].
  rewrite (settle_current st id c (Rejected err) Hc Hcur E). cbn [snd].
  unfold render, data, isAll.
  cbn [salesData neighborhoodData selectedBorough loadingNYC
       kpiSection loadingText boroughTable chartSection neighborhoodTable].
  repeat split.
Qed.

Lemma render_after_rejected_witness :
  current (run mount all_loaded_3_months_selected) = Some 1 /\
  inflight (run mount all_loaded_3_months_selected) !! 1 = Some (mkClosure 3 "All" false) /\
  boroughTable (render (step (run mount all_loaded_3_months_selected)
                             (Settle 1 (Rejected "timeout"))))
  = (if isAll (run mount all_loaded_3_months_selected)
        && nonempty (salesData (run mount all_loaded_3_months_selected))
     then Some (salesData (run mount all_loaded_3_months_selected)) else None).
Proof.
  assert (H1 : current (run mount all_loaded_3_months_selected) = Some 1) by reflexivity.
  assert (H2 : inflight (run mount all_loaded_3_months_selected) !! 1
               = Some (mkClosure 3 "All" false)) by reflexivity.
  split; [exact H1|]. split; [exact H2|].
  apply (render_after_rejected all_loaded_3_months_selected 1 _ "timeout" H1 H2).
Defined.

(** Rows that arrive already in descending order of median are kept in that
    order by the sort: the table shows them as received and the chart is
    their first ten; sorting a second time changes nothing. *)
Theorem chartData_presorted (data : list Row) :
  (StronglySorted (fun a b => (median_key b <= median_key a)%Q) data ->
   Array_sort byMedian data = data /\ chartData data false = take 10 data) /\
  Array_sort byMedian (Array_sort byMedian data) = Array_sort byMedian data.
Proof.
  assert (Hfix : forall l, StronglySorted (ge_key median_key) l -> Array_sort byMedian l = l).
  { intros l Hs. apply (stable_descending_unique median_key).
    - apply (Array_sort_perm median_key).
    - apply (Array_sort_sorted median_key).
    - exact Hs.
    - intros v. apply (Array_sort_stable median_key v). }
  split.
  - intros Hs. pose proof (Hfix data Hs) as E. split; [exact E|].
    unfold chartData, slice0. rewrite E. reflexivity.
  - apply Hfix. apply (Array_sort_sorted median_key).
Qed.

Lemma chartData_presorted_witness :
  StronglySorted (fun a b => (median_key b <= median_key a)%Q) rows_A_B /\
  Array_sort byMedian rows_A_B = rows_A_B /\ chartData rows_A_B false = take 10 rows_A_B.
Proof.
  assert (H : StronglySorted (fun a b => (median_key b <= median_key a)%Q) rows_A_B).
  { repeat constructor; discriminate. }
  split; [exact H|]. exact (proj1 (chartData_presorted rows_A_B) H).
Defined.

End SettledScreenFacts.

(** ** The end of loading *)

Section LoadingEndsFacts.
Import Metrics Coordinator.

Lemma run_settles_loading (ss : list (nat * Outcome)) (st : App) (id : nat) (c : Closure)
    (o : Outcome) :
  consistent st -> current st = Some id -> inflight st !! id = Some c ->
  NoDup (map fst ss) -> In (id, o) ss ->
  loadingNYC (run st (map settle_event ss)) = false.
Proof.
  revert st. induction ss as [|[id' o'] ss IH]; intros st Hc Hcur E Hnd Hin; [destruct Hin|].
  apply NoDup_cons in Hnd as [Hfresh Hnd]. cbn [fst map] in Hfresh.
  cbn [map run fold_left settle_event fst snd step].
  destruct (decide (id' = id)) as [->|Hne].
  - pose proof (settle_current st id c o' Hc Hcur E) as Hset.
    pose proof (settle_consistent st id o' Hc) as Hc1.
    destruct (settle_frame st id o') as (_ & _ & Hcur1 & _).
    destruct (run_stale ss (snd (settle id o' st)) Hc1) as (_ & _ & _ & Hl).
    { intros s Hs0 Heq. rewrite Hcur1, Hcur in Heq. injection Heq as Heq.
      apply Hfresh. rewrite Heq. apply list_elem_of_In. apply in_map. exact Hs0. }
    unfold run in *. rewrite Hl, Hset. reflexivity.
  - destruct (settle_frame st id' o') as (_ & _ & Hcur1 & _ & Hfl).
    unfold run in IH. apply (IH (snd (settle id' o' st))).
    + apply settle_consistent, Hc.
    + rewrite Hcur1. exact Hcur.
    + rewrite Hfl by congruence. exact E.
    + exact Hnd.
    + destruct Hin as [[= Heq _]|Hin]; [congruence|exact Hin].
Qed.

(** Once the request of the latest selection has settled, fulfilled or
    rejected, the loading flag is down, in whatever order it and the older
    requests settle (each at most once), as long as no new selection is
    made. *)
Theorem loading_ends_when_latest_settles (evs : list Event) (id : nat) (c : Closure)
    (o : Outcome) (ss : list (nat * Outcome)) :
  current (run mount evs) = Some id ->
  inflight (run mount evs) !! id = Some c ->
  NoDup (map fst ss) ->
  In (id, o) ss ->
  loadingNYC (run (run mount evs) (map settle_event ss)) = false.
Proof.
  intros Hcur E Hnd Hin.
  apply (run_settles_loading ss (run mount evs) id c o
           (reachable_consistent evs) Hcur E Hnd Hin).
Qed.

Lemma loading_ends_when_latest_settles_witness :
  current (run mount W123) = Some 3 /\
  inflight (run mount W123) !! 3 = Some (mkClosure 3 "Brooklyn" false) /\
  NoDup (map fst W1_last) /\
  In (3, Fulfilled (response "W3")) W1_last /\
  loadingNYC (run (run mount W123) (map settle_event W1_last)) = false.
Proof.
  assert (H1 : current (run mount W123) = Some 3) by reflexivity.
  assert (H2 : inflight (run mount W123) !! 3 = Some (mkClosure 3 "Brooklyn" false))
    by reflexivity.
  assert (H3 : NoDup (map fst W1_last)).
  { cbn. repeat (apply NoDup_cons; split; [intros Hin; repeat
      (apply elem_of_cons in Hin as [Hin|Hin]; [discriminate|]);
      apply elem_of_nil in Hin; exact Hin|]). apply NoDup_nil. exact I. }
  assert (H4 : In (3, Fulfilled (response "W3")) W1_last) by (right; left; reflexivity).
  repeat (split; [assumption|]).
  exact (loading_ends_when_latest_settles W123 3 _ _ W1_last H1 H2 H3 H4).
Defined.

End LoadingEndsFacts.
